(** * Common-name enrichment pipeline: a shallow embedding of [main.py],
      [en_csv_to_jsonl.py] and [jp_csv_to_jsonl.py], with the properties
      of the specification stated and settled against it. *)

From Stdlib Require Import ZArith NArith Lia Ascii String.
From stdpp Require Import base list sorting.

Local Open Scope N_scope.

(** ** Python strings

    A Python [str] is a sequence of Unicode code points.  The Japanese
    branch of the normalizer works on code points beyond ASCII, so a
    character is a code point (an [N]) and a string a list of them. *)

Definition char := N.
Definition str := list char.

(** ASCII literals of the source, as code-point lists. *)
Definition u (s : string) : str :=
  map N_of_ascii (list_ascii_of_string s).

Definition char_eqb (a b : char) : bool := N.eqb a b.

Fixpoint str_eqb (a b : str) : bool :=
  match a, b with
  | [], [] => true
  | x :: a', y :: b' => char_eqb x y && str_eqb a' b'
  | _, _ => false
  end.

(** [c in chars] for a single character. *)
Fixpoint char_in (c : char) (chars : str) : bool :=
  match chars with
  | [] => false
  | d :: chars' => char_eqb c d || char_in c chars'
  end.

(** [str.isspace] on one character, the table of CPython's
    [_PyUnicode_IsWhitespace]; the regular-expression class [\s] of a
    [str] pattern uses the same table. *)
Definition is_space (c : char) : bool :=
  ((0x09 <=? c) && (c <=? 0x0D)) || ((0x1C <=? c) && (c <=? 0x20))
  || (c =? 0x85) || (c =? 0xA0) || (c =? 0x1680)
  || ((0x2000 <=? c) && (c <=? 0x200A))
  || (c =? 0x2028) || (c =? 0x2029) || (c =? 0x202F) || (c =? 0x205F)
  || (c =? 0x3000).

Definition newline : char := 0x0A.

Section Strip.
Variable drop_it : char -> bool.

Fixpoint lstrip_with (s : str) : str :=
    match s with
    | [] => []
    | c :: s' => if drop_it c then lstrip_with s' else s
    end.

Definition rstrip_with (s : str) : str := rev (lstrip_with (rev s)).

Definition strip_with (s : str) : str := rstrip_with (lstrip_with s).
End Strip.

(** [s.strip()] *)
Definition strip (s : str) : str := strip_with is_space s.

(** [s.strip(chars)] *)
Definition strip_chars (chars s : str) : str :=
  strip_with (fun c => char_in c chars) s.

(** [s.split(sep)] for a one-character separator: never empty. *)
Fixpoint split (sep : char) (s : str) : list str :=
  match s with
  | [] => [[]]
  | c :: s' =>
      if char_eqb c sep then [] :: split sep s'
      else match split sep s' with
           | [] => [[c]]
           | w :: ws => (c :: w) :: ws
           end
  end.

(** ** The fragment of [re] the normalizer uses

    The four patterns are [^] followed by literals, at most one
    bracketed set, and a final [\s*].  The matcher below is the usual
    backtracking one for such sequences: a starred atom is greedy and
    gives characters back when the rest of the pattern fails. *)

Inductive atom : Type :=
| Lit (c : char)            (* an ordinary character *)
| OneOf (cs : str)          (* [...] *)
| Space.                    (* \s *)

Inductive piece : Type :=
| One (a : atom)
| Star (a : atom).

Definition regex := list piece.

(** Lower-casing as [re.IGNORECASE] applies it to one character.  Only
    the ASCII letters are folded: no code point outside ASCII lower-cases
    to a letter of the two English patterns. *)
Definition sre_lower (c : char) : char :=
  if (0x41 <=? c) && (c <=? 0x5A) then c + 32 else c.

Definition atom_matches (ignorecase : bool) (a : atom) (c : char) : bool :=
  match a with
  | Lit d => if ignorecase then char_eqb (sre_lower c) (sre_lower d)
             else char_eqb c d
  | OneOf cs => if ignorecase then char_in (sre_lower c) (map sre_lower cs)
                else char_in c cs
  | Space => is_space c
  end.

Section Match.
Variable ignorecase : bool.

Fixpoint match_star (a : atom) (k : str -> option str) (s : str)
    : option str :=
    match s with
    | c :: s' =>
        if atom_matches ignorecase a c then
          match match_star a k s' with
          | Some rest => Some rest
          | None => k s
          end
        else k s
    | [] => k s
    end.

  (** [match_here r s]: the text left after the match of [r] at the start
      of [s], if there is one. *)
Fixpoint match_here (r : regex) : str -> option str :=
    match r with
    | [] => fun s => Some s
    | One a :: r' => fun s =>
        match s with
        | c :: s' => if atom_matches ignorecase a c then match_here r' s'
                     else None
        | [] => None
        end
    | Star a :: r' => match_star a (match_here r')
    end.
End Match.

(** [re.sub('^' + r, '', s, flags)], without [re.MULTILINE]: the pattern
    can match at position 0 only, so at most one replacement is made. *)
Definition re_sub_start (ignorecase : bool) (r : regex) (s : str) : str :=
  match match_here ignorecase r s with
  | Some rest => rest
  | None => s
  end.

Definition lits (w : str) : regex := map (fun c => One (Lit c)) w.

(** The code points of the Japanese literals of [main.py]. *)
Definition kosho : str := [0x547C; 0x79F0].                      (* 呼称 *)
Definition nihongomei : str := [0x65E5; 0x672C; 0x8A9E; 0x540D]. (* 日本語名 *)
Definition colons : str := [0x3A; 0xFF1A].                       (* : and ： *)
Definition ja_quotes : str :=
  [0x300C; 0x300D; 0x300E; 0x300F; 0x22; 0x22; 0x27; 0x22].
Definition en_quotes : str := [0x22; 0x27].

(** The sentinel failure label, "エラー". *)
Definition sentinel : str := [0x30A8; 0x30E9; 0x30FC].

Definition ja_patterns : list regex :=
  [ lits kosho ++ [One (OneOf colons); Star Space];
    lits nihongomei ++ [One (OneOf colons); Star Space] ].

Definition en_patterns : list regex :=
  [ lits (u "Common Name:") ++ [Star Space];
    lits (u "Name:") ++ [Star Space] ].

(** ** [clean_common_name] (main.py, lines 41-83) *)

Definition clean_common_name (common_name language : str) : str :=
  let common_name := strip common_name in
  let common_name :=
    if str_eqb language (u "ja") then
      let common_name :=
        fold_left (fun s pattern => re_sub_start false pattern s)
                  ja_patterns common_name in
      let common_name :=
        if char_in newline common_name
        then strip (hd [] (split newline common_name))
        else common_name in
      strip_chars ja_quotes common_name
    else
      let common_name :=
        fold_left (fun s pattern => re_sub_start true pattern s)
                  en_patterns common_name in
      let common_name :=
        if char_in newline common_name
        then strip (hd [] (split newline common_name))
        else common_name in
      strip_chars en_quotes common_name
  in
  strip common_name.

Definition dquote : char := 0x22.

(** ** The normalizer as the specification words it

    Five steps in order: trim; remove the leading labels; cut at the
    first line break and trim again; strip the quote characters from
    both ends; trim. *)

Inductive target : Type := LangEn | LangJa.

Definition target_of (language : str) : target :=
  if str_eqb language (u "ja") then LangJa else LangEn.

(** The text after the prefix [w] of [s], characters compared up to
    [fold]. *)
Fixpoint after_prefix (fold : char -> char) (w s : str) : option str :=
  match w, s with
  | [], _ => Some s
  | d :: w', c :: s' =>
      if char_eqb (fold c) (fold d) then after_prefix fold w' s' else None
  | _ :: _, [] => None
  end.

(** Removal of a leading label: the label, matched at the start, goes
    together with the white space that follows it. *)
Definition drop_en_label (label s : str) : str :=
  match after_prefix sre_lower label s with
  | Some rest => lstrip_with is_space rest
  | None => s
  end.

Definition drop_ja_label (label s : str) : str :=
  match after_prefix (fun c => c) label s with
  | Some (c :: rest) =>
      if char_in c colons then lstrip_with is_space rest else s
  | _ => s
  end.

Definition remove_prefixes (t : target) (s : str) : str :=
  match t with
  | LangEn => drop_en_label (u "Name:") (drop_en_label (u "Common Name:") s)
  | LangJa => drop_ja_label nihongomei (drop_ja_label kosho s)
  end.

Fixpoint before_newline (s : str) : str :=
  match s with
  | [] => []
  | c :: s' => if char_eqb c newline then [] else c :: before_newline s'
  end.

Definition cut_at_line_break (s : str) : str :=
  if char_in newline s then strip (before_newline s) else s.

Definition quotes_of (t : target) : str :=
  match t with LangEn => en_quotes | LangJa => ja_quotes end.

Definition normalize (t : target) (raw : str) : str :=
  strip (strip_chars (quotes_of t)
           (cut_at_line_break (remove_prefixes t (strip raw)))).

(** ** More of [str]: substring search, replacement, lower-casing *)

Fixpoint starts_with (w s : str) : bool :=
  match w, s with
  | [], _ => true
  | d :: w', c :: s' => char_eqb c d && starts_with w' s'
  | _ :: _, [] => false
  end.

(** [sub in s] *)
Fixpoint contains (sub s : str) : bool :=
  starts_with sub s ||
  match s with
  | [] => false
  | _ :: s' => contains sub s'
  end.

(** [s.replace(old, new)] for a non-empty [old]: occurrences are replaced
    from the left and do not overlap; [skip] counts the characters of a
    replaced occurrence still to be passed over. *)
Fixpoint replace_from (old new s : str) (skip : nat) : str :=
  match s with
  | [] => []
  | c :: s' =>
      match skip with
      | S k => replace_from old new s' k
      | O => if starts_with old s
             then new ++ replace_from old new s' (length old - 1)
             else c :: replace_from old new s' 0
      end
  end.

Definition replace (old new s : str) : str := replace_from old new s 0.

(** [s.lower()].  The table holds every code point whose lower-case form
    contains an ASCII character; the others cannot change whether an
    ASCII marker occurs in the result and are left as they are. *)
Definition lower_char (c : char) : str :=
  if (0x41 <=? c) && (c <=? 0x5A) then [c + 32]
  else if c =? 0x130 then [0x69; 0x307]
  else if c =? 0x212A then [0x6B]
  else [c].

Definition lower (s : str) : str := concat (map lower_char s).

Local Open Scope Z_scope.

(** ** The completion service and [get_common_name] (main.py, 86-136) *)

Inductive response_format : Type :=
| CommonNameResponse
| JapaneseCommonNameResponse.

(** The arguments of [client.beta.chat.completions.parse]. *)
Record request : Type := {
  req_model : str;
  req_prompt : str;
  req_response_format : response_format;
  req_max_tokens : Z;
  req_temperature : Z
}.

(** What one call yields inside the [try]: a response whose [parsed]
    carries the single field of the response format, a response whose
    [parsed] is [None], or an exception with its [str(e)]. *)
Inductive reply : Type :=
| Parsed (field : str)
| Unparsed
| Raised (error_message : str).

(** The observable effects of one [get_common_name] invocation. *)
Inductive io : Type :=
| Call (r : request)
| Sleep (secs : Z).

Definition range (n : Z) : list Z :=
  map Z.of_nat (seq 0 (Z.to_nat n)).

Definition is_rate_limit (error_message : str) : bool :=
  contains (u "429") error_message
  || contains (u "rate_limit") (lower error_message).

Definition default_model : str := u "gpt-4o".
Definition default_max_retries : Z := 10.

(** ** Rows, the output file, and the scheduler's data *)

Record row : Type := {
  number : Z;
  scientific_name : str;
  english_common_name : str;
  japanese_common_name : str
}.

Inductive file_mode : Type := ModeW | ModeA.

Inductive csv_line : Type :=
| HeaderLine (fieldnames : list str)
| RowLine (r : row).

Definition fieldnames : list str :=
  [u "number"; u "scientific_name";
   u "english_common_name"; u "japanese_common_name"].

(** What the scheduler does, in order.  [Done r] marks the moment the
    [process_species] task of [r] finishes. *)
Inductive action : Type :=
| Open (m : file_mode)
| WriteLine (l : csv_line)
| Flush
| Close
| Done (r : row)
| Pause (secs : Z).

(** How a call ends; [Pending] is a call left awaiting tasks that never
    finish. *)
Inductive outcome : Type :=
| Returned
| IndexError
| ValueError
| Pending.

(** [l[i]] *)
Definition index {A} (l : list A) (i : Z) : option A :=
  let n := Z.of_nat (length l) in
  if i <? 0 then (if i + n <? 0 then None else l !! Z.to_nat (i + n))
  else l !! Z.to_nat i.

(** [range(a, b)] *)
Definition range2 (a b : Z) : list Z :=
  map (fun k => a + Z.of_nat k) (seq 0 (Z.to_nat (b - a))).

(** [range(0, n, step)]; a zero step raises [ValueError]. *)
Definition range3 (n step : Z) : option (list Z) :=
  if step =? 0 then None
  else if step <? 0 then Some []
  else Some (map (fun k => Z.of_nat k * step)
                 (seq 0 (Z.to_nat ((n + step - 1) / step)))).

(** [l[i:j]] for [0 <= i] *)
Definition slice {A} (l : list A) (i j : Z) : list A :=
  take (Z.to_nat (j - i)) (drop (Z.to_nat i) l).

(** [asyncio.gather] over the awaitables [aws]: each one stores its
    result in its own slot when it finishes, in the order [finishing];
    the call returns the slots, in the order of [aws], once every slot is
    filled. *)
Definition gather {A} (finishing : list nat) (aws : list A)
  : option (list A) :=
  let slots :=
    foldl (fun slots i =>
             match aws !! i with
             | Some result => <[i := Some result]> slots
             | None => slots
             end)
          (replicate (length aws) None) finishing in
  mapM (fun slot => slot) slots.

Definition number_le (a b : row) : Prop := number a <= number b.

#[local] Instance number_le_dec a b : Decision (number_le a b) :=
  Z_le_dec (number a) (number b).

Section Batches.
(** [finishing i] is the order in which the tasks of the batch at
    offset [i] finish. *)
Variable finishing : Z -> list nat.
Variables (tasks : list (Z * row)) (batch_size : Z).

Fixpoint batches (offsets : list Z) : list action * outcome :=
  match offsets with
  | [] => ([], Returned)
  | i :: offsets' =>
      let batch := map snd (slice tasks i (i + batch_size)) in
      let done := omap (fun k => Done <$> batch !! k) (finishing i) in
      match gather (finishing i) batch with
      | None => (done, Pending)
      | Some batch_results =>
          let batch_results := merge_sort number_le batch_results in
          let saved :=
            map (fun r => WriteLine (RowLine r)) batch_results ++ [Flush] in
          let pause :=
            if i + batch_size <? Z.of_nat (length tasks)
            then [Pause 2] else [] in
          let '(later, out) := batches offsets' in
          (done ++ saved ++ pause ++ later, out)
      end
  end.
End Batches.

(** ** The output path: the file and the buffer of the open handle

    A line written through the handle goes to the buffer of the file
    object.  The file object passes buffered text on to the file at a
    flush and at the close, and also by itself whenever its buffer, of
    8192 bytes by default, fills.  [spill] stands for the latter: given
    the lines that the buffer holds right after a write, oldest first, it
    tells how many of them the file object passes on at that write.
    Nothing is assumed about [spill], so that what is proved holds for
    every file object: one that keeps every line until the flush, one
    that passes every line on at once, and the one of CPython in
    between.  [on_disk] holds the lines that have reached the file, a
    line counting as such once all of it has, and [buffered] those that
    have not. *)

Record store : Type := {
  on_disk : option (list csv_line);
  buffered : list csv_line
}.

Section Output.
Variable spill : list csv_line -> nat.

Definition perform (s : store) (a : action) : store :=
  match a with
  | Open ModeW => {| on_disk := Some []; buffered := [] |}
  | Open ModeA => {| on_disk := Some (default [] (on_disk s));
                     buffered := [] |}
  | WriteLine l =>
      let pending := buffered s ++ [l] in
      {| on_disk := (fun lines => lines ++ take (spill pending) pending)
                      <$> on_disk s;
         buffered := drop (spill pending) pending |}
  | Flush | Close =>
      {| on_disk := (fun lines => lines ++ buffered s) <$> on_disk s;
         buffered := [] |}
  | Done _ | Pause _ => s
  end.

Definition run (s : store) (acts : list action) : store :=
  foldl perform s acts.
End Output.

Definition closed (content : option (list csv_line)) : store :=
  {| on_disk := content; buffered := [] |}.

(** ** [main_async] (main.py, 199-248) *)

Record arguments : Type := {
  arg_start : Z;
  arg_line : option Z;
  arg_batch_size : Z
}.

Definition default_arguments : arguments :=
  {| arg_start := 1; arg_line := None; arg_batch_size := 10 |}.

(** Lines 226-240: the file mode and the range of the run. *)
Definition plan (args : arguments) (species_list : list str)
           (output_exists : bool) : file_mode * Z * Z :=
  match arg_line args with
  | Some single_line => (ModeA, single_line, single_line)
  | None =>
      let start_line := arg_start args in
      let mode :=
        if (1 <? start_line) && output_exists then ModeA else ModeW in
      (mode, start_line, Z.of_nat (length species_list))
  end.

(** ** The service-dependent part: [get_common_name] (main.py, 86-136),
    [process_species] (139-156), [process_and_save_batch] (159-196) and
    [main_async] (199-248) *)

Section Service.
(** [service r k] is the reply to the [k]-th call (from 0) that one
    invocation makes with request [r]. *)
Variable service : request -> nat -> reply.

Section Attempts.
Variables (r : request) (language : str) (max_retries : Z).

(** The [for attempt in range(max_retries)] loop, over the attempts
    still to run; line 136 is the empty case. *)
Fixpoint attempts (todo : list Z) : str * list io :=
  match todo with
  | [] => (sentinel, [])
  | attempt :: todo' =>
      match service r (Z.to_nat attempt) with
      | Parsed field =>
          (clean_common_name field language, [Call r])
      | Unparsed =>
          (clean_common_name sentinel language, [Call r])
      | Raised error_message =>
          if is_rate_limit error_message then
            let wait_time := 10 * (attempt + 1) in
            if attempt =? max_retries - 1 then
              (sentinel, [Call r; Sleep wait_time])
            else
              let '(common_name, log) := attempts todo' in
              (common_name, Call r :: Sleep wait_time :: log)
          else (sentinel, [Call r])
      end
  end.
End Attempts.

Definition get_common_name (species prompt_template model language : str)
           (max_retries : Z) : str * list io :=
  let prompt := replace (u "[species]") species prompt_template in
  let response_format :=
    if str_eqb language (u "ja") then JapaneseCommonNameResponse
    else CommonNameResponse in
  let r := {| req_model := model; req_prompt := prompt;
              req_response_format := response_format;
              req_max_tokens := 200; req_temperature := 0 |} in
  attempts r language max_retries (range max_retries).

(** The two lookups are gathered; [asyncio.gather] hands their results
  back by position. *)
Definition process_species (line_number : Z)
           (species en_prompt_template ja_prompt_template : str) : row :=
  let en_common_name :=
    fst (get_common_name species en_prompt_template default_model
                         (u "en") default_max_retries) in
  let ja_common_name :=
    fst (get_common_name species ja_prompt_template default_model
                         (u "ja") default_max_retries) in
  {| number := line_number;
     scientific_name := species;
     english_common_name := en_common_name;
     japanese_common_name := ja_common_name |}.

Definition process_and_save_batch (finishing : Z -> list nat)
           (species_list : list str) (start_line end_line : Z)
           (en_prompt_template ja_prompt_template : str)
           (mode : file_mode) (batch_size : Z) : list action * outcome :=
  match
    mapM (fun i =>
            species ← index species_list i;
            let line_number := i + 1 in
            Some (line_number,
                  process_species line_number species
                                  en_prompt_template ja_prompt_template))
         (range2 (start_line - 1) end_line)
  with
  | None => ([], IndexError)
  | Some tasks =>
      let header :=
        match mode with
        | ModeW => [WriteLine (HeaderLine fieldnames); Flush]
        | ModeA => []
        end in
      match range3 (Z.of_nat (length tasks)) batch_size with
      | None => (Open mode :: header ++ [Close], ValueError)
      | Some offsets =>
          match batches finishing tasks batch_size offsets with
          | (acts, Pending) => (Open mode :: header ++ acts, Pending)
          | (acts, out) => (Open mode :: header ++ acts ++ [Close], out)
          end
      end
  end.

Definition main_async (finishing : Z -> list nat) (args : arguments)
           (en_prompt_template ja_prompt_template : str)
           (species_list : list str) (output : option (list csv_line))
  : list action * outcome :=
  let '(mode, start_line, end_line) :=
    plan args species_list (bool_decide (is_Some output)) in
  process_and_save_batch finishing species_list start_line end_line
                         en_prompt_template ja_prompt_template
                         mode (arg_batch_size args).
End Service.


(** ** The grouping utilities ([en_csv_to_jsonl.py], [jp_csv_to_jsonl.py])

    The two files differ in the name of the label column only, which is
    the parameter [label_key] of the section. *)

(** A row as [csv.DictReader] yields it, restricted to the two columns
    that are read. *)
Record table_row : Type := {
  row_scientific_name : str;
  row_common_name : str
}.

(** [d[k].append(v)] on a [defaultdict(list)]; the association list keeps
    the keys in insertion order, as a Python dict does. *)
Fixpoint dict_append (d : list (str * list str)) (k v : str)
  : list (str * list str) :=
  match d with
  | [] => [(k, [v])]
  | (k', vs) :: d' =>
      if str_eqb k' k then (k', vs ++ [v]) :: d'
      else (k', vs) :: dict_append d' k v
  end.

(** [a < b] on [str]: lexicographic on code points. *)
Fixpoint str_ltb (a b : str) : bool :=
  match a, b with
  | _, [] => false
  | [], _ :: _ => true
  | x :: a', y :: b' =>
      if (x <? y)%N then true
      else if (x =? y)%N then str_ltb a' b' else false
  end.

(** [a < b] on lists of [str] *)
Fixpoint strs_ltb (a b : list str) : bool :=
  match a, b with
  | _, [] => false
  | [], _ :: _ => true
  | x :: a', y :: b' =>
      if str_eqb x y then strs_ltb a' b' else str_ltb x y
  end.

(** [a < b] on the [(key, value)] tuples of [d.items()] *)
Definition item_ltb (a b : str * list str) : bool :=
  if str_eqb (fst a) (fst b) then strs_ltb (snd a) (snd b)
  else str_ltb (fst a) (fst b).

(** The stable sort takes its left element unless the right one is
    smaller. *)
Definition item_le (a b : str * list str) : Prop := item_ltb b a = false.

#[local] Instance item_le_dec a b : Decision (item_le a b).
Proof. unfold item_le. apply _. Defined.

(** [sorted(d.items())] *)
Definition sorted_items (d : list (str * list str)) : list (str * list str) :=
  merge_sort item_le d.

Definition backslash : char := 0x5C%N.

Definition hex_digit (n : N) : char :=
  (if n <? 10 then 0x30 + n else 0x61 + (n - 10))%N.

(** The escape of one character in [json.dumps(..., ensure_ascii=False)]. *)
Definition json_escape (c : char) : str :=
  (if c =? 0x22 then [backslash; dquote]
   else if c =? 0x5C then [backslash; backslash]
   else if c =? 0x0A then backslash :: u "n"
   else if c =? 0x0D then backslash :: u "r"
   else if c =? 0x09 then backslash :: u "t"
   else if c =? 0x08 then backslash :: u "b"
   else if c =? 0x0C then backslash :: u "f"
   else if c <? 0x20
        then backslash :: u "u00" ++ [hex_digit (c / 16); hex_digit (c mod 16)]
   else [c])%N.

Definition json_string (s : str) : str :=
  [dquote] ++ concat (map json_escape s) ++ [dquote].

(** [sep.join(parts)] *)
Fixpoint join (sep : str) (parts : list str) : str :=
  match parts with
  | [] => []
  | [p] => p
  | p :: parts' => p ++ sep ++ join sep parts'
  end.

Definition json_array (items : list str) : str :=
  u "[" ++ join (u ", ") (map json_string items) ++ u "]".

Section Grouping.
Variable label_key : str.

  (** Lines 24-32: the dictionary from label to scientific names. *)
Definition name_to_scientific_names (rows : list table_row)
    : list (str * list str) :=
    foldl (fun d row => dict_append d (row_common_name row)
                                    (row_scientific_name row))
          [] rows.

  (** [json.dumps(json_obj, ensure_ascii=False)] for the two-key object of
      lines 37-40. *)
Definition json_dumps (item : str * list str) : str :=
    u "{" ++ json_string label_key ++ u ": " ++ json_string (fst item)
      ++ u ", " ++ json_string (u "scientific_name_list") ++ u ": "
      ++ json_array (snd item) ++ u "}".

  (** Lines 35-41: the text written to the output file. *)
Definition csv_to_jsonl (rows : list table_row) : str :=
    concat (map (fun item => json_dumps item ++ [newline])
                (sorted_items (name_to_scientific_names rows))).
End Grouping.

Module En_csv_to_jsonl.
Definition csv_to_jsonl : list table_row -> str :=
    csv_to_jsonl (u "english_common_name").
End En_csv_to_jsonl.

Module Jp_csv_to_jsonl.
Definition csv_to_jsonl : list table_row -> str :=
    csv_to_jsonl (u "japanese_common_name").
End Jp_csv_to_jsonl.

(** ** Notions used by the statements *)

(** The case folding of a match: [re.IGNORECASE] or none. *)
Definition fold_of (ignorecase : bool) : char -> char :=
  if ignorecase then sre_lower else fun c => c.

(** The request that [get_common_name] sends on every attempt. *)
Definition request_for (species prompt_template model language : str)
  : request :=
  {| req_model := model;
     req_prompt := replace (u "[species]") species prompt_template;
     req_response_format :=
       if str_eqb language (u "ja") then JapaneseCommonNameResponse
       else CommonNameResponse;
     req_max_tokens := 200; req_temperature := 0 |}.

(** The effects of [k] rate-limited attempts in a row, from the first:
    a call, then a sleep of ten times the attempt number. *)
Definition backoff (r : request) (k : nat) : list io :=
  flat_map (fun attempt => [Call r; Sleep (10 * (attempt + 1))])
           (range (Z.of_nat k)).

(** The number of service calls in a log. *)
Fixpoint calls (log : list io) : nat :=
  match log with
  | [] => 0
  | Call _ :: log' => S (calls log')
  | Sleep _ :: log' => calls log'
  end.

(** The service answers the [k]-th call for [r] with an error that is
    classified as rate-limit. *)
Definition rate_limited (service : request -> nat -> reply)
           (r : request) (k : nat) : Prop :=
  exists error_message,
    service r k = Raised error_message
    /\ is_rate_limit error_message = true.

(** The rows that a sequence of actions writes, in order. *)
Definition written (acts : list action) : list row :=
  omap (fun a => match a with WriteLine (RowLine r) => Some r | _ => None end)
       acts.

(** The rows among the lines of a file. *)
Definition rows_of (lines : list csv_line) : list row :=
  omap (fun l => match l with RowLine r => Some r | _ => None end) lines.

(** The ordinals [start_line], ..., [end_line]. *)
Definition ordinals (start_line end_line : Z) : list Z :=
  range2 start_line (end_line + 1).

(** In every batch of a run over [n] tasks, each task finishes, once, in
    some order: at the offset of a batch, [finishing] lists the positions
    of the batch in the order in which the tasks finish. *)
Definition every_task_finishes (finishing : Z -> list nat)
           (n batch_size : Z) : Prop :=
  forall k : nat,
    Z.of_nat k * batch_size < n ->
    finishing (Z.of_nat k * batch_size)
    ≡ₚ seq 0 (Z.to_nat (Z.min batch_size (n - Z.of_nat k * batch_size))).

(** The batch a row of a run belongs to. *)
Definition batch_index (start_line batch_size : Z) (r : row) : Z :=
  (number r - start_line) / batch_size.

(** Rows numbered consecutively from [first]. *)
Definition numbered (first : Z) (rows : list row) : Prop :=
  forall x r, rows !! x = Some r -> number r = first + Z.of_nat x.

(** What one batch contributes to the actions once its tasks have all
    finished: the tasks finish, the rows are written, the file is flushed,
    and the scheduler pauses when more batches follow. *)
Definition block (finished : list nat) (batch : list row) (more : bool)
  : list action :=
  omap (fun k => Done <$> batch !! k) finished
  ++ map (fun r => WriteLine (RowLine r)) batch ++ [Flush]
  ++ (if more then [Pause 2] else []).

(** Actions other than opening, flushing and closing the file. *)
Definition quiet (a : action) : Prop :=
  match a with
  | Done _ | Pause _ | WriteLine _ => True
  | _ => False
  end.

(** The row of an ordinal, and the rows of a range of ordinals. *)
Definition row_for (service : request -> nat -> reply)
           (en_prompt_template ja_prompt_template : str)
           (species_list : list str) (ordinal : Z) : option row :=
  (fun species => process_species service ordinal species
                                  en_prompt_template ja_prompt_template)
    <$> species_list !! Z.to_nat (ordinal - 1).

Definition rows_for (service : request -> nat -> reply)
           (en_prompt_template ja_prompt_template : str)
           (species_list : list str) (start_line end_line : Z) : list row :=
  omap (row_for service en_prompt_template ja_prompt_template species_list)
       (ordinals start_line end_line).

(** The offsets of [m] consecutive batches, from batch [a]. *)
Definition offsets_from (batch_size : Z) (a m : nat) : list Z :=
  map (fun k => Z.of_nat k * batch_size) (seq a m).

(** What is written right after the file is opened. *)
Definition header_of (mode : file_mode) : list action :=
  match mode with
  | ModeW => [WriteLine (HeaderLine fieldnames); Flush]
  | ModeA => []
  end.

(** The rows that have reached the file. *)
Definition rows_on_disk (s : store) : list row :=
  rows_of (default [] (on_disk s)).

(** ** Inputs of the worked examples *)

Definition five_species : list str :=
  [u "Panthera leo"; u "Canis lupus"; u "Ursus arctos";
   u "Vulpes vulpes"; u "Lynx lynx"].

Definition ten_species : list str :=
  five_species
  ++ [u "Bos taurus"; u "Equus caballus"; u "Sus scrofa";
      u "Felis catus"; u "Ovis aries"].

(** A service that answers every request with the prompt it received. *)
Definition echo_service : request -> nat -> reply :=
  fun r _ => Parsed (req_prompt r).

(** In every batch of two, the second task finishes first. *)
Definition second_first : Z -> list nat := fun _ => [1; 0]%nat.

(** The lines of the file right after it was opened and the header, if
    any, flushed: [old] is what the path held before. *)
Definition opened (mode : file_mode) (old : option (list csv_line))
  : list csv_line :=
  match mode with
  | ModeW => [HeaderLine fieldnames]
  | ModeA => default [] old
  end.

(** Every batch holds one task. *)
Definition one_by_one : Z -> list nat := fun _ => [0%nat].

(** ** Notions for the grouping utilities *)

(** The scientific names of the rows that carry [label], in the order of
    the table. *)
Definition carrying (label : str) (rows : list table_row) : list str :=
  map row_scientific_name
      (List.filter (fun r => str_eqb (row_common_name r) label) rows).

Definition str_lt (a b : str) : Prop := str_ltb a b = true.

(** [d.get(k)] *)
Fixpoint dict_get (d : list (str * list str)) (k : str)
  : option (list str) :=
  match d with
  | [] => None
  | (k', vs) :: d' => if str_eqb k' k then Some vs else dict_get d' k
  end.

(** The service of the scenario of the specification: labels for the
    first species, an English label for the second, and throttling on
    every Japanese request for the second. *)
Definition scenario_service : request -> nat -> reply :=
  fun r _ =>
    if str_eqb (req_prompt r) (u "EN Panthera leo") then Parsed (u "Lion")
    else if str_eqb (req_prompt r) (u "JA Panthera leo")
         then Parsed [0x30E9; 0x30A4; 0x30AA; 0x30F3]%N   (* ライオン *)
    else if str_eqb (req_prompt r) (u "EN Canis lupus") then Parsed (u "Wolf")
    else Raised (u "Error code: 429").

(** ** File objects of the worked examples *)

(** A file object whose buffer never fills: every line stays buffered
    until the flush. *)
Definition keeps_all : list csv_line -> nat := fun _ => 0%nat.

(** A file object without buffer: every line is passed on at once. *)
Definition passes_all : list csv_line -> nat := fun pending => length pending.

(** A file object whose buffer holds one line: a second line pushes
    both out. *)
Definition holds_one : list csv_line -> nat :=
  fun pending => if decide (1 < length pending)%nat
                 then length pending else 0%nat.


(** * Further code of the repository *)

(** ** [load_species_list] (main.py, 35-38) *)

Definition carriage_return : char := 0x0D%N.

(** The text that a file opened in text mode hands out: every line ending
    ([\r\n], [\r] or [\n]) reads as [\n].  [after_cr] tells that the
    character before was a carriage return. *)
Fixpoint translate_from (after_cr : bool) (s : str) : str :=
  match s with
  | [] => []
  | c :: s' =>
      if char_eqb c carriage_return then newline :: translate_from true s'
      else if char_eqb c newline then
             if after_cr then translate_from false s'
             else newline :: translate_from false s'
      else c :: translate_from false s'
  end.

Definition universal_newlines (s : str) : str := translate_from false s.

(** [for line in f]: the lines of a text, each with its line break, the
    last one possibly without. *)
Fixpoint file_lines (s : str) : list str :=
  match s with
  | [] => []
  | c :: s' =>
      if char_eqb c newline then [newline] :: file_lines s'
      else match file_lines s' with
           | [] => [[c]]
           | l :: ls => (c :: l) :: ls
           end
  end.

(** The truth value of a [str]: it is not empty. *)
Definition truthy (s : str) : bool :=
  match s with [] => false | _ :: _ => true end.

(** [content] is what the file at [species_path] holds, decoded. *)
Definition load_species_list (content : str) : list str :=
  map strip
      (List.filter (fun line => truthy (strip line))
                   (file_lines (universal_newlines content))).

(** ** Notions used by the further statements *)

(** [a] occurs in [b] as one piece. *)
Definition part_of (a b : str) : Prop := exists l r, b = l ++ a ++ r.

(** An identifier as [load_species_list] returns them. *)
Definition identifier (s : str) : Prop :=
  s <> [] /\ strip s = s
  /\ char_in newline s = false /\ char_in carriage_return s = false.

(** The seconds slept in a log. *)
Fixpoint slept (log : list io) : Z :=
  match log with
  | [] => 0
  | Call _ :: log' => slept log'
  | Sleep secs :: log' => secs + slept log'
  end.

(** The pauses among the actions. *)
Definition pauses (acts : list action) : list Z :=
  omap (fun a => match a with Pause secs => Some secs | _ => None end) acts.

(** A character that is no control character. *)
Definition printable (c : char) : bool := (0x20 <=? c)%N.

(** * Further notions used by the statements *)

(** ** The steps of the scheduler *)

(** The actions other than the completions of tasks. *)
Definition steps (acts : list action) : list action :=
  List.filter (fun a => match a with Done _ => false | _ => true end) acts.

(** What the scheduler is to do for [m] batches of [batch_size] rows,
    from batch [a] of [rows]: the rows of a batch are written, the file
    is flushed, and a pause of two seconds follows when rows remain for a
    later batch. *)
Fixpoint batch_steps (rows : list row) (batch_size a m : nat)
  : list action :=
  match m with
  | O => []
  | S m' =>
      map (fun r => WriteLine (RowLine r))
          (take batch_size (drop (a * batch_size) rows))
      ++ [Flush]
      ++ (if bool_decide (S a * batch_size < length rows)%nat
          then [Pause 2] else [])
      ++ batch_steps rows batch_size (S a) m'
  end.

(** ** The file mode of a run *)

(** The range of ordinals that the arguments ask for: the single ordinal
    of [--line], or from [--start] to the end of the list. *)
Definition requested_range (args : arguments) (species_list : list str)
  : Z * Z :=
  match arg_line args with
  | Some single_line => (single_line, single_line)
  | None => (arg_start args, Z.of_nat (length species_list))
  end.

(** The arguments ask for a single ordinal, or for a start after the
    first ordinal while the output file exists. *)
Definition append_requested (args : arguments)
           (output : option (list csv_line)) : Prop :=
  arg_line args <> None \/ (1 < arg_start args /\ output <> None).

(** Some index of the range of a run lies outside the list, so that
    [species_list[i]] raises [IndexError]. *)
Definition out_of_list (species_list : list str)
           (start_line end_line : Z) : Prop :=
  exists i, start_line - 1 <= i < end_line /\ index species_list i = None.

(** A line that an earlier run left in the output file. *)
Definition earlier_row : row :=
  {| number := 1; scientific_name := u "Panthera leo";
     english_common_name := u "Lion"; japanese_common_name := u "Raion" |}.

(** ** Reading a line of the grouped export back

    A reader for the JSON that the utilities write: an object of two
    members, the first a string and the second a list of strings, with
    [": "] after a key and [", "] between members and between elements.
    It is written from the grammar of JSON, not from [json_dumps]. *)

Definition hex_value (c : char) : option N :=
  (if (0x30 <=? c) && (c <=? 0x39) then Some (c - 0x30)
   else if (0x61 <=? c) && (c <=? 0x66) then Some (c - 0x61 + 10)
   else if (0x41 <=? c) && (c <=? 0x46) then Some (c - 0x41 + 10)
   else None)%N.

(** The character that the escape of [e] after a backslash stands for. *)
Definition unescape (e : char) : option char :=
  (if e =? 0x22 then Some 0x22
   else if e =? 0x5C then Some 0x5C
   else if e =? 0x2F then Some 0x2F
   else if e =? 0x6E then Some 0x0A
   else if e =? 0x72 then Some 0x0D
   else if e =? 0x74 then Some 0x09
   else if e =? 0x62 then Some 0x08
   else if e =? 0x66 then Some 0x0C
   else None)%N.

(** The characters of a string literal after its opening quote: the text
    it stands for and what follows the closing quote.  A control
    character may not occur unescaped. *)
Fixpoint read_chars (s : str) : option (str * str) :=
  match s with
  | [] => None
  | c :: s' =>
      if (c =? 0x22)%N then Some ([], s')
      else if (c =? 0x5C)%N then
        match s' with
        | [] => None
        | e :: s'' =>
            if (e =? 0x75)%N then
              match s'' with
              | h1 :: h2 :: h3 :: h4 :: s6 =>
                  match hex_value h1, hex_value h2,
                        hex_value h3, hex_value h4 with
                  | Some d1, Some d2, Some d3, Some d4 =>
                      match read_chars s6 with
                      | Some (v, rest) =>
                          Some ((((d1 * 16 + d2) * 16 + d3) * 16 + d4)%N
                                  :: v, rest)
                      | None => None
                      end
                  | _, _, _, _ => None
                  end
              | _ => None
              end
            else
              match unescape e with
              | Some c' =>
                  match read_chars s'' with
                  | Some (v, rest) => Some (c' :: v, rest)
                  | None => None
                  end
              | None => None
              end
        end
      else if (c <? 0x20)%N then None
      else
        match read_chars s' with
        | Some (v, rest) => Some (c :: v, rest)
        | None => None
        end
  end.

Definition read_string (s : str) : option (str * str) :=
  match s with
  | c :: s' => if (c =? 0x22)%N then read_chars s' else None
  | [] => None
  end.

(** What follows [lit] at the start of [s]. *)
Fixpoint expect (lit s : str) : option str :=
  match lit, s with
  | [], _ => Some s
  | d :: lit', c :: s' => if (c =? d)%N then expect lit' s' else None
  | _ :: _, [] => None
  end.

(** The elements of a list that is not empty, after its opening
    bracket. *)
Fixpoint read_strings (fuel : nat) (s : str) : option (list str * str) :=
  match fuel with
  | O => None
  | S fuel' =>
      match read_string s with
      | None => None
      | Some (v, rest) =>
          match expect (u ", ") rest with
          | Some rest' =>
              match read_strings fuel' rest' with
              | Some (vs, rest'') => Some (v :: vs, rest'')
              | None => None
              end
          | None =>
              match expect (u "]") rest with
              | Some rest' => Some ([v], rest')
              | None => None
              end
          end
      end
  end.

Definition read_list (s : str) : option (list str * str) :=
  match expect (u "[") s with
  | None => None
  | Some rest =>
      match expect (u "]") rest with
      | Some rest' => Some ([], rest')
      | None => read_strings (length rest) rest
      end
  end.

(** The two members of the object that a line holds, each as its key and
    its value. *)
Definition read_object (line : str)
  : option ((str * str) * (str * list str)) :=
  rest ← expect (u "{") line;
  '(key1, rest) ← read_string rest;
  rest ← expect (u ": ") rest;
  '(value1, rest) ← read_string rest;
  rest ← expect (u ", ") rest;
  '(key2, rest) ← read_string rest;
  rest ← expect (u ": ") rest;
  '(value2, rest) ← read_list rest;
  rest ← expect (u "}") rest;
  match rest with
  | [] => Some ((key1, value1), (key2, value2))
  | _ :: _ => None
  end.

(** The line holds the JSON object that maps [label_key] to the label of
    the item and ["scientific_name_list"] to its names. *)
Definition line_of_group (label_key : str) (line : str)
           (item : str * list str) : Prop :=
  read_object line
  = Some ((label_key, fst item), (u "scientific_name_list", snd item)).

(** What the specification asks of a grouping utility [f] whose label
    column is [label_key]: the output consists of lines, each ended by a
    line feed; each line holds the JSON object of one item, which maps
    the label to the list of names; the labels of the items increase
    strictly from line to line; and the items pair each label of the
    table with the scientific names of the rows that carry it. *)
Definition groups_by_label (f : list table_row -> str) (label_key : str)
  : Prop :=
  forall rows, exists (lines : list str) (items : list (str * list str)),
    f rows = concat (map (fun line => line ++ [newline]) lines)
    /\ Forall (fun line => newline ∉ line) lines
    /\ Forall2 (line_of_group label_key) lines items
    /\ Sorted str_lt (map fst items)
    /\ forall label names,
        (label, names) ∈ items
        <-> names = carrying label rows /\ names <> [].

(** ** The normalizer, step by step, as relations between texts

    Each step of the specification is stated on its own, as a relation
    between the text before it and the text after it, on the characters
    of the two texts only: none of the functions that embed
    [clean_common_name] occurs in it. *)

(** White space: the code points for which [str.isspace] holds. *)
Definition blank (c : char) : Prop :=
  c ∈ [0x09; 0x0A; 0x0B; 0x0C; 0x0D; 0x1C; 0x1D; 0x1E; 0x1F; 0x20;
       0x85; 0xA0; 0x1680;
       0x2000; 0x2001; 0x2002; 0x2003; 0x2004; 0x2005; 0x2006; 0x2007;
       0x2008; 0x2009; 0x200A;
       0x2028; 0x2029; 0x202F; 0x205F; 0x3000]%N.

(** [t] is [s] without the characters of the kind [p] at its two ends:
    what is cut off on either side is of that kind, and [t] neither
    begins nor ends with such a character. *)
Definition trimmed (p : char -> Prop) (s t : str) : Prop :=
  exists l r,
    s = l ++ t ++ r
    /\ Forall p l /\ Forall p r
    /\ (forall c, head t = Some c -> ~ p c)
    /\ (forall c, last t = Some c -> ~ p c).

(** The same character, or with [ignorecase] the same ASCII letter in
    the other case. *)
Definition same_char (ignorecase : bool) (a b : char) : Prop :=
  a = b
  \/ (ignorecase = true
      /\ ((0x41 <= a <= 0x5A /\ b = a + 32)
          \/ (0x41 <= b <= 0x5A /\ a = b + 32)))%N.

(** The text begins with one of the labels. *)
Definition labelled (ignorecase : bool) (labels : list str) (s : str)
  : Prop :=
  exists label w rest,
    label ∈ labels /\ s = w ++ rest /\ Forall2 (same_char ignorecase) w label.

(** Removal of a leading label: a label at the very start goes, together
    with all the white space that follows it; a text that begins with
    none of the labels stays as it is. *)
Definition label_removed (ignorecase : bool) (labels : list str)
           (s t : str) : Prop :=
  (exists label w blanks,
      label ∈ labels
      /\ Forall2 (same_char ignorecase) w label
      /\ s = w ++ blanks ++ t
      /\ Forall blank blanks
      /\ (forall c, head t = Some c -> ~ blank c))
  \/ (~ labelled ignorecase labels s /\ t = s).

(** The line break of the specification: the line feed U+000A. *)
Definition line_feed : char := 0x0A%N.

(** The first line: a text with a line feed is cut before the first one
    and trimmed; a text without stays as it is. *)
Definition first_line (s t : str) : Prop :=
  (exists line rest,
      s = line ++ line_feed :: rest
      /\ (line_feed ∉ line) /\ trimmed blank line t)
  \/ ((line_feed ∉ s) /\ t = s).

(** The quote characters of a language: the two ASCII quotes, and for
    Japanese also the corner brackets. *)
Definition quote_of (t : target) (c : char) : Prop :=
  match t with
  | LangEn => c ∈ [0x22; 0x27]%N
  | LangJa => c ∈ [0x300C; 0x300D; 0x300E; 0x300F; 0x22; 0x27]%N
  end.

(** The labels of a language, in the order of their removal, each with
    its spellings: "Common Name:" and "Name:", and the two Japanese
    labels with an ASCII or a full-width colon. *)
Definition first_labels (t : target) : list str :=
  match t with
  | LangEn => [[0x43; 0x6F; 0x6D; 0x6D; 0x6F; 0x6E; 0x20;
                0x4E; 0x61; 0x6D; 0x65; 0x3A]]%N
  | LangJa => [[0x547C; 0x79F0; 0x3A]; [0x547C; 0x79F0; 0xFF1A]]%N
  end.

Definition second_labels (t : target) : list str :=
  match t with
  | LangEn => [[0x4E; 0x61; 0x6D; 0x65; 0x3A]]%N
  | LangJa => [[0x65E5; 0x672C; 0x8A9E; 0x540D; 0x3A];
               [0x65E5; 0x672C; 0x8A9E; 0x540D; 0xFF1A]]%N
  end.

(** Labels are matched without regard to case for English only. *)
Definition ignorecase_of (t : target) : bool :=
  match t with LangEn => true | LangJa => false end.

(** The language argument selects Japanese when it is "ja", and English
    otherwise. *)
Definition selects (language : str) (t : target) : Prop :=
  match t with
  | LangJa => language = [0x6A; 0x61]%N
  | LangEn => language <> [0x6A; 0x61]%N
  end.

(** The five steps of the specification, in order. *)
Definition normalized (t : target) (raw result : str) : Prop :=
  exists s1 s2 s3 s4 s5,
    trimmed blank raw s1
    /\ label_removed (ignorecase_of t) (first_labels t) s1 s2
    /\ label_removed (ignorecase_of t) (second_labels t) s2 s3
    /\ first_line s3 s4
    /\ trimmed (quote_of t) s4 s5
    /\ trimmed blank s5 result.

(** ** Batches and their tasks *)

(** Every task of batch [a] of [rows] finishes: each position of the
    batch occurs in the finishing order at the offset of the batch. *)
Definition batch_finished (finishing : Z -> list nat) (rows : list row)
           (batch_size : Z) (a : nat) : Prop :=
  forall k,
    (k < length (take (Z.to_nat batch_size)
                      (drop (a * Z.to_nat batch_size) rows)))%nat ->
    k ∈ finishing (Z.of_nat a * batch_size).

(** * Properties *)

(** ** Worked examples of the normalizer *)

Example clean_en_quoted :
  clean_common_name (u "  Common Name: " ++ [dquote] ++ u "Lion" ++ [dquote]
                       ++ [newline] ++ u "(Panthera leo)  ")
                    (u "en")
  = u "Lion".
Proof. vm_compute. reflexivity. Qed.

Example clean_ja_bracketed :
  clean_common_name (kosho ++ [0xFF1A; 0x3000; 0x300C; 0x30E9; 0x300D]%N)
                    (u "ja")
  = [0x30E9%N].
Proof. vm_compute. reflexivity. Qed.

Example csv_to_jsonl_example :
  En_csv_to_jsonl.csv_to_jsonl
    [ {| row_scientific_name := u "Panthera leo"; row_common_name := u "Lion" |};
      {| row_scientific_name := u "Canis lupus"; row_common_name := u "Gray Wolf" |};
      {| row_scientific_name := u "Panthera leo leo"; row_common_name := u "Lion" |} ]
  = u "{" ++ [dquote] ++ u "english_common_name" ++ [dquote] ++ u ": "
      ++ [dquote] ++ u "Gray Wolf" ++ [dquote] ++ u ", " ++ [dquote]
      ++ u "scientific_name_list" ++ [dquote] ++ u ": [" ++ [dquote]
      ++ u "Canis lupus" ++ [dquote] ++ u "]}" ++ [newline]
      ++ u "{" ++ [dquote] ++ u "english_common_name" ++ [dquote] ++ u ": "
      ++ [dquote] ++ u "Lion" ++ [dquote] ++ u ", " ++ [dquote]
      ++ u "scientific_name_list" ++ [dquote] ++ u ": [" ++ [dquote]
      ++ u "Panthera leo" ++ [dquote] ++ u ", " ++ [dquote]
      ++ u "Panthera leo leo" ++ [dquote] ++ u "]}" ++ [newline].
Proof. vm_compute. reflexivity. Qed.

(** ** The matcher on the shapes of the four patterns *)

Lemma match_star_space ignorecase s :
  match_star ignorecase Space (fun rest => Some rest) s
  = Some (lstrip_with is_space s).
Proof.
  induction s as [|c s IH]; simpl; [done|].
  rewrite IH. by destruct (is_space c).
Qed.

Lemma match_here_lits ignorecase w r s :
  match_here ignorecase (lits w ++ r) s
  = match after_prefix (fold_of ignorecase) w s with
    | Some rest => match_here ignorecase r rest
    | None => None
    end.
Proof.
  revert s. induction w as [|d w IH]; intros s; simpl; [done|].
  destruct s as [|c s]; [done|].
  destruct ignorecase; simpl in *.
  - destruct (char_eqb (sre_lower c) (sre_lower d)); [apply IH|done].
  - destruct (char_eqb c d); [apply IH|done].
Qed.

Lemma re_sub_en_label w s :
  re_sub_start true (lits w ++ [Star Space]) s = drop_en_label w s.
Proof.
  unfold re_sub_start, drop_en_label. rewrite match_here_lits. simpl.
  destruct (after_prefix sre_lower w s) as [rest|]; [|done].
  by rewrite match_star_space.
Qed.

Lemma re_sub_ja_label w s :
  re_sub_start false (lits w ++ [One (OneOf colons); Star Space]) s
  = drop_ja_label w s.
Proof.
  unfold re_sub_start, drop_ja_label. rewrite match_here_lits.
  cbn [fold_of match_here atom_matches].
  destruct (after_prefix (fun c => c) w s) as [[|c rest]|]; try done.
  destruct (char_in c colons); [|done].
  by rewrite match_star_space.
Qed.

Lemma hd_split_newline s : hd [] (split newline s) = before_newline s.
Proof.
  induction s as [|c s IH]; simpl; [done|].
  destruct (char_eqb c newline); [done|].
  destruct (split newline s); simpl in *; by rewrite <- IH.
Qed.

(** The source function is the composition of the five steps. *)
Lemma clean_common_name_steps common_name language :
  clean_common_name common_name language
  = normalize (target_of language) common_name.
Proof.
  unfold clean_common_name, normalize, target_of, cut_at_line_break.
  unfold ja_patterns, en_patterns.
  destruct (str_eqb language (u "ja")); cbn [fold_left].
  - rewrite !re_sub_ja_label, hd_split_newline. done.
  - rewrite !re_sub_en_label, hd_split_newline. done.
Qed.

(** ** Stripping *)

Section StripFacts.
Variable p : char -> bool.

Lemma lstrip_with_idem s : lstrip_with p (lstrip_with p s) = lstrip_with p s.
Proof.
  induction s as [|c s IH]; simpl; [done|].
  destruct (p c) eqn:E; [done|]. simpl. by rewrite E.
Qed.

Lemma lstrip_with_length s : (length (lstrip_with p s) <= length s)%nat.
Proof.
  induction s as [|c s IH]; simpl; [done|].
  destruct (p c); simpl; lia.
Qed.

Lemma lstrip_with_fixed_head c s :
  lstrip_with p (c :: s) = c :: s -> p c = false.
Proof.
  simpl. destruct (p c); [|done]. intros H.
  pose proof (lstrip_with_length s) as L. rewrite H in L. simpl in L. lia.
Qed.

Lemma lstrip_with_snoc_keep c s :
  p c = false -> exists r, lstrip_with p (s ++ [c]) = r ++ [c].
Proof.
  intros Hc. induction s as [|d s [r IH]]; simpl.
  - rewrite Hc. by exists [].
  - destruct (p d); [by exists r|]. by exists (d :: s).
Qed.

Lemma lstrip_rstrip_fixed s :
  lstrip_with p s = s -> lstrip_with p (rstrip_with p s) = rstrip_with p s.
Proof.
  destruct s as [|c s]; [done|]. intros H.
  apply lstrip_with_fixed_head in H. unfold rstrip_with. simpl rev.
  destruct (lstrip_with_snoc_keep c (rev s) H) as [r ->].
  rewrite rev_app_distr. simpl. by rewrite H.
Qed.

Lemma rstrip_with_idem s : rstrip_with p (rstrip_with p s) = rstrip_with p s.
Proof.
  unfold rstrip_with. by rewrite rev_involutive, lstrip_with_idem.
Qed.

Lemma strip_with_idem s : strip_with p (strip_with p s) = strip_with p s.
Proof.
  unfold strip_with.
  rewrite (lstrip_rstrip_fixed (lstrip_with p s)) by apply lstrip_with_idem.
  apply rstrip_with_idem.
Qed.

Lemma lstrip_with_all s : forallb p s = true -> lstrip_with p s = [].
Proof.
  induction s as [|c s IH]; simpl; [done|].
  destruct (p c); simpl; [done|discriminate].
Qed.

Lemma elem_of_lstrip_with (x : char) s : x ∈ lstrip_with p s -> x ∈ s.
Proof.
  induction s as [|c s IH]; simpl; [done|].
  destruct (p c); [|done]. intros H. right. by apply IH.
Qed.

Lemma elem_of_strip_with (x : char) s : x ∈ strip_with p s -> x ∈ s.
Proof.
  unfold strip_with, rstrip_with. intros H.
  apply elem_of_lstrip_with.
  apply list_elem_of_In, in_rev, list_elem_of_In in H.
  apply elem_of_lstrip_with in H.
  by apply list_elem_of_In, in_rev, list_elem_of_In in H.
Qed.
End StripFacts.

Lemma strip_idem s : strip (strip s) = strip s.
Proof. apply strip_with_idem. Qed.

Lemma char_eqb_eq (a b : char) : char_eqb a b = true <-> a = b.
Proof. apply N.eqb_eq. Qed.

Lemma char_in_elem_of (c : char) (s : str) : char_in c s = true <-> c ∈ s.
Proof.
  induction s as [|d s IH]; simpl.
  - split; [done|]. by intros ?%elem_of_nil.
  - rewrite orb_true_iff, char_eqb_eq, IH, elem_of_cons. done.
Qed.

Lemma before_newline_no_newline s : newline ∉ before_newline s.
Proof.
  induction s as [|c s IH]; simpl; [by intros ?%elem_of_nil|].
  destruct (char_eqb c newline) eqn:E; [by intros ?%elem_of_nil|].
  intros [Hc|H]%elem_of_cons; [|done].
  symmetry in Hc. apply char_eqb_eq in Hc. congruence.
Qed.

Lemma cut_at_line_break_no_newline s : newline ∉ cut_at_line_break s.
Proof.
  unfold cut_at_line_break. destruct (char_in newline s) eqn:E.
  - intros H%elem_of_strip_with. by apply before_newline_no_newline in H.
  - intros H%char_in_elem_of. congruence.
Qed.

Lemma normalize_no_newline t raw : char_in newline (normalize t raw) = false.
Proof.
  destruct (char_in newline (normalize t raw)) eqn:E; [|done].
  apply char_in_elem_of in E. unfold normalize, strip_chars, strip in E.
  do 2 apply elem_of_strip_with in E.
  by apply cut_at_line_break_no_newline in E.
Qed.

Lemma normalize_blank t raw :
  forallb is_space raw = true -> normalize t raw = [].
Proof.
  intros H. unfold normalize, strip at 2, strip_with.
  rewrite (lstrip_with_all _ _ H). by destruct t.
Qed.

(** ** The normalizer: composition of the steps, idempotence *)

(** C7, as stated, fails: a label that follows another label survives
    the first pass and is removed by the second. *)
Lemma clean_common_name_not_idempotent :
  ~ (forall x language : str,
        clean_common_name (clean_common_name x language) language
        = clean_common_name x language).
Proof.
  intros H. specialize (H (u "Name: Name: Lion") (u "en")).
  vm_compute in H. discriminate H.
Qed.

(** Quote characters that the first pass uncovers go with the second. *)
Example clean_common_name_uncovers_quotes :
  clean_common_name ([dquote] ++ u " 'Lion' " ++ [dquote]) (u "en")
  = u "'Lion'"
  /\ clean_common_name (u "'Lion'") (u "en") = u "Lion".
Proof. split; vm_compute; reflexivity. Qed.

(** C7, amended.  For every string [x] and every language argument, if
    [normalize(x)] carries no leading label of the language and neither
    begins nor ends with a quote character of the language, then
    [normalize(normalize(x)) = normalize(x)]. *)
Theorem clean_common_name_idempotent_when_settled (x language : str) :
  let y := clean_common_name x language in
  remove_prefixes (target_of language) y = y ->
  strip_chars (quotes_of (target_of language)) y = y ->
  clean_common_name y language = y.
Proof.
  intros y Hprefix Hquotes.
  assert (Htrim : strip y = y).
  { unfold y. rewrite clean_common_name_steps. unfold normalize.
    apply strip_idem. }
  assert (Hnl : char_in newline y = false).
  { unfold y. rewrite clean_common_name_steps. apply normalize_no_newline. }
  rewrite (clean_common_name_steps y). unfold normalize.
  rewrite Htrim, Hprefix. unfold cut_at_line_break. rewrite Hnl.
  by rewrite Hquotes.
Qed.

Lemma clean_common_name_idempotent_when_settled_witness :
  let x := (u " Common Name: " ++ [dquote] ++ u "Lion " ++ [dquote; newline]
              ++ u "a large cat")%list in
  clean_common_name x (u "en") = u "Lion"
  /\ clean_common_name (clean_common_name x (u "en")) (u "en")
     = clean_common_name x (u "en").
Proof.
  intros x. split; [vm_compute; reflexivity|].
  apply (clean_common_name_idempotent_when_settled x (u "en"));
    vm_compute; reflexivity.
Defined.

(** ** The completion client *)

Example is_rate_limit_429 :
  is_rate_limit (u "Error code: 429 - Too Many Requests") = true.
Proof. vm_compute. reflexivity. Qed.

Example is_rate_limit_upper :
  is_rate_limit (u "RATE_LIMIT_EXCEEDED") = true.
Proof. vm_compute. reflexivity. Qed.

Example is_rate_limit_other :
  is_rate_limit (u "Connection error.") = false.
Proof. vm_compute. reflexivity. Qed.

Lemma clean_common_name_sentinel language :
  clean_common_name sentinel language = sentinel.
Proof.
  rewrite clean_common_name_steps.
  destruct (target_of language); vm_compute; reflexivity.
Qed.

Lemma calls_app l1 l2 : calls (l1 ++ l2) = (calls l1 + calls l2)%nat.
Proof.
  induction l1 as [|[]]; simpl; [done| |done]. by rewrite IHl1.
Qed.

Lemma calls_backoff r k : calls (backoff r k) = k.
Proof.
  unfold backoff, range. rewrite Nat2Z.id.
  generalize 0%nat. induction k as [|k IH]; intros a; simpl; [done|].
  by rewrite IH.
Qed.

Lemma backoff_S r k :
  backoff r (S k)
  = backoff r k ++ [Call r; Sleep (10 * (Z.of_nat k + 1))].
Proof.
  unfold backoff, range. rewrite !Nat2Z.id.
  rewrite seq_S, map_app, flat_map_app. done.
Qed.

Section Client.
Variable service : request -> nat -> reply.
Variables (r : request) (language : str) (max_retries : Z).

(** A run of rate-limited attempts that stops short of the last one only
    adds its calls and sleeps in front of what follows. *)
Lemma attempts_rate_limited_prefix n : forall a todo,
  (forall j, (a <= j < a + n)%nat -> rate_limited service r j) ->
  Z.of_nat (a + n) < max_retries ->
  attempts service r language max_retries
           (map Z.of_nat (seq a n) ++ todo)
  = let '(common_name, log) :=
      attempts service r language max_retries todo in
    (common_name,
     flat_map (fun attempt => [Call r; Sleep (10 * (attempt + 1))])
              (map Z.of_nat (seq a n)) ++ log).
Proof.
  induction n as [|n IH]; intros a todo Hrl Hlt.
  - simpl. by destruct (attempts _ _ _ _ todo).
  - simpl. rewrite Nat2Z.id.
    destruct (Hrl a ltac:(lia)) as (msg & -> & ->).
    destruct (Z.eqb_spec (Z.of_nat a) (max_retries - 1)); [lia|].
    rewrite IH; [|intros; apply Hrl; lia|lia].
    by destruct (attempts _ _ _ _ todo).
Qed.

Lemma attempts_split k :
  (Z.of_nat k < max_retries) ->
  (forall j, (j < k)%nat -> rate_limited service r j) ->
  attempts service r language max_retries (range max_retries)
  = let '(common_name, log) :=
      attempts service r language max_retries
               (map Z.of_nat (seq k (Z.to_nat max_retries - k))) in
    (common_name, backoff r k ++ log).
Proof.
  intros Hk Hrl. unfold backoff, range. rewrite Nat2Z.id.
  replace (seq 0 (Z.to_nat max_retries))
    with (seq 0 k ++ seq k (Z.to_nat max_retries - k)).
  2:{ rewrite <- seq_app. f_equal. lia. }
  rewrite map_app.
  apply attempts_rate_limited_prefix; [|lia].
  intros j Hj. apply Hrl. lia.
Qed.

Lemma attempts_head k :
  (Z.of_nat k < max_retries) ->
  map Z.of_nat (seq k (Z.to_nat max_retries - k))
  = Z.of_nat k
      :: map Z.of_nat (seq (S k) (Z.to_nat max_retries - S k)).
Proof.
  intros Hk.
  replace (Z.to_nat max_retries - k)%nat
    with (S (Z.to_nat max_retries - S k)) by lia.
  done.
Qed.
End Client.

Lemma get_common_name_attempts service species prompt_template model
      language max_retries :
  get_common_name service species prompt_template model language max_retries
  = attempts service (request_for species prompt_template model language)
             language max_retries (range max_retries).
Proof. reflexivity. Qed.

(** C4.  If the service answers every call of the invocation with a
    rate-limit error, [get_common_name] makes exactly [max_retries] calls
    (10 by default), sleeps ten times the attempt number after each of
    them, the last included, and returns the sentinel label. *)
Theorem get_common_name_backoff_bound
        (service : request -> nat -> reply)
        (species prompt_template model language : str) (max_retries : Z) :
  0 <= max_retries ->
  (forall k, (k < Z.to_nat max_retries)%nat ->
             rate_limited service
               (request_for species prompt_template model language) k) ->
  get_common_name service species prompt_template model language max_retries
  = (sentinel,
     backoff (request_for species prompt_template model language)
             (Z.to_nat max_retries))
  /\ Z.of_nat
       (calls (snd (get_common_name service species prompt_template model
                                    language max_retries)))
     = max_retries
  /\ default_max_retries = 10.
Proof.
  intros Hpos Hrl. rewrite get_common_name_attempts.
  set (r := request_for species prompt_template model language) in *.
  assert (Hrun : attempts service r language max_retries (range max_retries)
                 = (sentinel, backoff r (Z.to_nat max_retries))).
  { destruct (Z.to_nat max_retries) as [|k] eqn:Hn.
    - unfold range. by rewrite Hn.
    - rewrite (attempts_split service r language max_retries k);
        [|lia|intros; apply Hrl; lia].
      rewrite attempts_head by lia. simpl. rewrite Nat2Z.id.
      destruct (Hrl k ltac:(lia)) as (msg & -> & ->).
      destruct (Z.eqb_spec (Z.of_nat k) (max_retries - 1)); [|lia].
      by rewrite backoff_S. }
  rewrite Hrun. simpl. rewrite calls_backoff. repeat split. lia.
Qed.

Lemma get_common_name_backoff_bound_witness :
  let service : request -> nat -> reply :=
    fun _ _ => Raised (u "Error code: 429 - rate limit reached") in
  let r := request_for (u "Panthera leo") (u "Common name of [species]?")
                       default_model (u "en") in
  get_common_name service (u "Panthera leo") (u "Common name of [species]?")
                  default_model (u "en") 3
  = (sentinel, [Call r; Sleep 10; Call r; Sleep 20; Call r; Sleep 30]).
Proof.
  intros service r.
  apply (get_common_name_backoff_bound
           service (u "Panthera leo") (u "Common name of [species]?")
           default_model (u "en") 3).
  - lia.
  - intros k _. eexists. split; reflexivity.
Defined.

(** C5.  If the attempts before the [k]-th were rate-limited and the
    [k]-th call raises an error whose message holds neither "429" nor,
    lower-cased, "rate_limit", then [get_common_name] returns the sentinel
    label right after that call: no sleep and no further call follow,
    whatever [k] is. *)
Theorem get_common_name_other_error
        (service : request -> nat -> reply)
        (species prompt_template model language : str) (max_retries : Z)
        (k : nat) (error_message : str) :
  Z.of_nat k < max_retries ->
  (forall j, (j < k)%nat ->
             rate_limited service
               (request_for species prompt_template model language) j) ->
  service (request_for species prompt_template model language) k
  = Raised error_message ->
  contains (u "429") error_message = false ->
  contains (u "rate_limit") (lower error_message) = false ->
  get_common_name service species prompt_template model language max_retries
  = (sentinel,
     backoff (request_for species prompt_template model language) k
       ++ [Call (request_for species prompt_template model language)])
  /\ calls (snd (get_common_name service species prompt_template model
                                 language max_retries))
     = S k.
Proof.
  intros Hk Hrl Hreply H429 Hmark. rewrite get_common_name_attempts.
  set (r := request_for species prompt_template model language) in *.
  rewrite (attempts_split service r language max_retries k) by done.
  rewrite attempts_head by lia. simpl. rewrite Nat2Z.id, Hreply.
  unfold is_rate_limit. rewrite H429, Hmark. simpl.
  split; [done|]. rewrite calls_app, calls_backoff. simpl. lia.
Qed.

Lemma get_common_name_other_error_witness :
  let service : request -> nat -> reply :=
    fun _ k => if (k <? 2)%nat then Raised (u "Rate_Limit exceeded")
               else Raised (u "Connection error.") in
  let r := request_for (u "Canis lupus") (u "Name [species]")
                       default_model (u "ja") in
  get_common_name service (u "Canis lupus") (u "Name [species]")
                  default_model (u "ja") default_max_retries
  = (sentinel, [Call r; Sleep 10; Call r; Sleep 20; Call r])
  /\ calls (snd (get_common_name service (u "Canis lupus")
                                 (u "Name [species]") default_model (u "ja")
                                 default_max_retries))
     = 3%nat.
Proof.
  intros service r.
  apply (get_common_name_other_error
           service (u "Canis lupus") (u "Name [species]") default_model
           (u "ja") default_max_retries 2 (u "Connection error.")).
  - reflexivity.
  - intros j Hj. eexists. split.
    + unfold service. destruct j as [|[|j]]; [reflexivity|reflexivity|lia].
    + reflexivity.
  - reflexivity.
  - reflexivity.
  - reflexivity.
Defined.

(** C6.  If the attempts before the [k]-th were rate-limited and the
    [k]-th call succeeds, then no retry and no further call follow: when
    the response carries no parsed field the sentinel label is returned,
    and when it carries one the field is returned after it went through
    [clean_common_name]. *)
Theorem get_common_name_response
        (service : request -> nat -> reply)
        (species prompt_template model language : str) (max_retries : Z)
        (k : nat) :
  Z.of_nat k < max_retries ->
  (forall j, (j < k)%nat ->
             rate_limited service
               (request_for species prompt_template model language) j) ->
  (service (request_for species prompt_template model language) k
   = Unparsed ->
   get_common_name service species prompt_template model language max_retries
   = (sentinel,
      backoff (request_for species prompt_template model language) k
        ++ [Call (request_for species prompt_template model language)]))
  /\ (forall field,
         service (request_for species prompt_template model language) k
         = Parsed field ->
         get_common_name service species prompt_template model language
                         max_retries
         = (clean_common_name field language,
            backoff (request_for species prompt_template model language) k
              ++ [Call (request_for species prompt_template model
                                    language)])).
Proof.
  intros Hk Hrl. rewrite get_common_name_attempts.
  set (r := request_for species prompt_template model language) in *.
  rewrite (attempts_split service r language max_retries k) by done.
  rewrite attempts_head by lia. simpl. rewrite Nat2Z.id.
  split.
  - intros ->. by rewrite clean_common_name_sentinel.
  - by intros field ->.
Qed.

Lemma get_common_name_response_witness :
  let missing : request -> nat -> reply := fun _ _ => Unparsed in
  let lion : request -> nat -> reply :=
    fun _ k => if (k <? 1)%nat then Raised (u "429")
               else Parsed (u " Name: Lion ") in
  let r := request_for (u "Panthera leo") (u "Name [species]")
                       default_model (u "en") in
  get_common_name missing (u "Panthera leo") (u "Name [species]")
                  default_model (u "en") default_max_retries
  = (sentinel, [Call r])
  /\ get_common_name lion (u "Panthera leo") (u "Name [species]")
                     default_model (u "en") default_max_retries
     = (u "Lion", [Call r; Sleep 10; Call r]).
Proof.
  intros missing lion r. split.
  - apply (get_common_name_response
             missing (u "Panthera leo") (u "Name [species]") default_model
             (u "en") default_max_retries 0); [reflexivity|lia|reflexivity].
  - refine (proj2 (get_common_name_response
                     lion (u "Panthera leo") (u "Name [species]")
                     default_model (u "en") default_max_retries 1 _ _)
                  (u " Name: Lion ") _).
    + reflexivity.
    + intros j Hj. eexists. split.
      * unfold lion. destruct j; [reflexivity|lia].
      * reflexivity.
    + reflexivity.
Defined.

(** ** The scheduler: gathering and sorting one batch *)

Lemma gather_slots {A} (aws : list A) (finishing : list nat) :
  forall slots : list (option A),
  length slots = length aws ->
  length (foldl (fun slots i =>
                   match aws !! i with
                   | Some result => <[i := Some result]> slots
                   | None => slots
                   end) slots finishing) = length aws
  /\ forall j,
      foldl (fun slots i =>
               match aws !! i with
               | Some result => <[i := Some result]> slots
               | None => slots
               end) slots finishing !! j
      = if decide (j ∈ finishing /\ (j < length aws)%nat)
        then Some (aws !! j) else slots !! j.
Proof.
  induction finishing as [|i finishing IH]; intros slots Hlen.
  - split; [done|]. intros j. cbn [foldl].
    rewrite decide_False; [done|]. intros [H _]. by apply elem_of_nil in H.
  - cbn [foldl].
    set (slots1 := match aws !! i with
                   | Some result => <[i := Some result]> slots
                   | None => slots
                   end).
    assert (Hlen1 : length slots1 = length aws).
    { unfold slots1. destruct (aws !! i); [by rewrite length_insert|done]. }
    destruct (IH slots1 Hlen1) as [Hl Hj]. split; [done|].
    intros j. rewrite Hj.
    destruct (decide (j ∈ finishing /\ (j < length aws)%nat)) as [[H1 H2]|Hn].
    + rewrite decide_True; [done|]. split; [by right|done].
    + unfold slots1. destruct (decide (j = i)) as [->|Hne].
      * destruct (aws !! i) as [result|] eqn:E.
        -- apply lookup_lt_Some in E as Hlt.
           rewrite list_lookup_insert_eq by lia.
           rewrite decide_True; [done|]. split; [by left|done].
        -- apply lookup_ge_None in E.
           rewrite decide_False; [done|]. intros [_ ?]. lia.
      * assert (Hsame : match aws !! i with
                        | Some result => <[i := Some result]> slots
                        | None => slots
                        end !! j = slots !! j).
        { destruct (aws !! i); [by rewrite list_lookup_insert_ne|done]. }
        rewrite Hsame. rewrite decide_False; [done|].
        intros [[->|H]%elem_of_cons ?]; [done|]. apply Hn. done.
Qed.

(** Whatever the order in which the awaitables finish, [gather] returns
    their results in the order of the awaitables. *)
Lemma gather_all {A} (aws : list A) (finishing : list nat) :
  finishing ≡ₚ seq 0 (length aws) -> gather finishing aws = Some aws.
Proof.
  intros Hperm. unfold gather.
  destruct (gather_slots aws finishing (replicate (length aws) None))
    as [Hlen Hj]; [by rewrite length_replicate|].
  apply mapM_Some, Forall2_lookup. intros j.
  rewrite Hj. destruct (aws !! j) as [x|] eqn:E.
  - apply lookup_lt_Some in E as Hlt.
    rewrite decide_True; [by constructor|]. split; [|done].
    rewrite Hperm. apply elem_of_seq. lia.
  - apply lookup_ge_None in E.
    rewrite decide_False by (intros [_ ?]; lia).
    rewrite (proj1 (lookup_replicate_None _ _ _)) by lia. constructor.
Qed.

#[local] Instance number_le_total : Total number_le.
Proof. intros a b. unfold number_le. lia. Qed.

#[local] Instance number_le_trans : Transitive number_le.
Proof. intros a b c. unfold number_le. lia. Qed.

Lemma numbered_cons first r rows :
  numbered first (r :: rows) -> number r = first /\ numbered (first + 1) rows.
Proof.
  intros H. split.
  - rewrite (H 0%nat r eq_refl). lia.
  - intros x r' Hx. rewrite (H (S x) r' Hx). lia.
Qed.

Lemma numbered_Sorted rows : forall first,
  numbered first rows -> Sorted number_le rows.
Proof.
  induction rows as [|r rows IH]; intros first H; [constructor|].
  apply numbered_cons in H as [Hr Hrest]. constructor; [by eapply IH|].
  destruct rows as [|r' rows]; constructor.
  apply numbered_cons in Hrest as [Hr' _]. unfold number_le. lia.
Qed.

Lemma numbered_inj first rows r1 r2 :
  numbered first rows -> r1 ∈ rows -> r2 ∈ rows ->
  number r1 = number r2 -> r1 = r2.
Proof.
  intros H [x1 H1]%list_elem_of_lookup [x2 H2]%list_elem_of_lookup Heq.
  rewrite (H _ _ H1), (H _ _ H2) in Heq.
  assert (x1 = x2) as -> by lia. congruence.
Qed.

(** Sorting a batch by number leaves it as [gather] returned it. *)
Lemma merge_sort_numbered first rows :
  numbered first rows -> merge_sort number_le rows = rows.
Proof.
  intros H. apply (Sorted_unique_strong number_le).
  - intros r1 r2 H1 H2 Hle Hge.
    rewrite merge_sort_Permutation in H1.
    apply (numbered_inj first rows); [done..|]. unfold number_le in *. lia.
  - apply Sorted_merge_sort, _.
  - by eapply numbered_Sorted.
  - apply merge_sort_Permutation.
Qed.

Lemma numbered_drop first rows n :
  numbered first rows -> numbered (first + Z.of_nat n) (drop n rows).
Proof.
  intros H x r Hx. rewrite lookup_drop in Hx. rewrite (H _ _ Hx). lia.
Qed.

Lemma numbered_take first rows n :
  numbered first rows -> numbered first (take n rows).
Proof.
  intros H x r Hx. apply lookup_take_Some in Hx as [Hx _]. by apply H.
Qed.

(** ** The scheduler: the store under a sequence of actions *)

Section Store.
Variable spill : list csv_line -> nat.

Lemma run_app s acts1 acts2 :
  run spill s (acts1 ++ acts2) = run spill (run spill s acts1) acts2.
Proof. apply foldl_app. Qed.

(** Writing keeps the lines in order: what has reached the file,
    followed by what is buffered, grows by the lines written, wherever
    the file object draws the line between the two. *)
Lemma run_writes rows : forall s,
  (fun lines =>
     lines ++ buffered (run spill s
                            (map (fun r => WriteLine (RowLine r)) rows)))
    <$> on_disk (run spill s (map (fun r => WriteLine (RowLine r)) rows))
  = (fun lines => lines ++ buffered s ++ map RowLine rows) <$> on_disk s.
Proof.
  induction rows as [|r rows IH]; intros s.
  - simpl. by rewrite app_nil_r.
  - cbn [map]. change (run spill s (?a :: ?l))
      with (run spill (perform spill s a) l).
    rewrite IH. cbn [perform on_disk buffered].
    destruct (on_disk s) as [d|]; [|done]. cbn [fmap option_fmap option_map].
    f_equal. rewrite <- !app_assoc. f_equal.
    rewrite (app_assoc (take _ _)), take_drop. by rewrite <- app_assoc.
Qed.

(** At the flush all the lines written are in the file. *)
Lemma run_writes_flush rows s :
  run spill s (map (fun r => WriteLine (RowLine r)) rows ++ [Flush])
  = {| on_disk := (fun lines => lines ++ buffered s ++ map RowLine rows)
                    <$> on_disk s;
       buffered := [] |}.
Proof.
  rewrite run_app. cbn [run foldl perform]. f_equal. apply run_writes.
Qed.

Lemma run_dones (batch : list row) finished s :
  run spill s (omap (fun k => Done <$> batch !! k) finished) = s.
Proof.
  induction finished as [|k finished IH]; [done|]. simpl.
  destruct (batch !! k); simpl; done.
Qed.
End Store.

Lemma Forall_quiet_dones (batch : list row) finished :
  Forall quiet (omap (fun k => Done <$> batch !! k) finished).
Proof.
  apply Forall_forall. intros a [k [_ Hk]]%list_elem_of_omap.
  destruct (batch !! k); simplify_eq/=. done.
Qed.

Lemma Forall_quiet_writes rows :
  Forall quiet (map (fun r => WriteLine (RowLine r)) rows).
Proof. apply Forall_forall. intros a [r [-> _]]%list_elem_of_fmap. done. Qed.

Lemma app_eq_cons_cases {A} (l1 l2 p post : list A) (x : A) :
  l1 ++ l2 = p ++ x :: post ->
  (exists l, l1 = p ++ x :: l)
  \/ (exists p', p = l1 ++ p' /\ l2 = p' ++ x :: post).
Proof.
  revert p. induction l1 as [|y l1 IH]; intros p H.
  - right. by exists p.
  - destruct p as [|z p]; simpl in H; simplify_eq.
    + left. by exists l1.
    + destruct (IH p) as [[l ->]|(p' & -> & ->)]; [done| |].
      * left. by exists l.
      * right. by exists p'.
Qed.

(** ** The scheduler: one batch *)

Section Block.
Variables (finished : list nat) (batch : list row) (more : bool).

Lemma written_dones :
  written (omap (fun k => Done <$> batch !! k) finished) = [].
Proof.
  unfold written. induction finished as [|k l IH]; [done|]. simpl.
  destruct (batch !! k); simpl; auto.
Qed.

Lemma written_writes (rows : list row) :
  written (map (fun r => WriteLine (RowLine r)) rows) = rows.
Proof.
  unfold written. induction rows as [|r l IH]; [done|]. simpl.
  f_equal. apply IH.
Qed.

Lemma written_app acts1 acts2 :
  written (acts1 ++ acts2) = written acts1 ++ written acts2.
Proof. apply omap_app. Qed.

Lemma written_block : written (block finished batch more) = batch.
Proof.
  unfold block. rewrite !written_app, written_dones, written_writes.
  destruct more; simpl; by rewrite app_nil_r.
Qed.

Lemma run_block spill s :
  run spill s (block finished batch more)
  = {| on_disk := (fun lines => lines ++ buffered s ++ map RowLine batch)
                    <$> on_disk s;
       buffered := [] |}.
Proof.
  unfold block. rewrite run_app, run_dones.
  rewrite (app_assoc (map _ batch)), run_app, run_writes_flush.
  by destruct more.
Qed.
End Block.
(** ** The scheduler: the loop over the batches *)

(** Whatever the batches, the finishing orders and the file object, the
    loop leaves the rows it wrote in the file, after what was there, and
    nothing buffered. *)
Lemma batches_store spill finishing tasks batch_size offsets : forall s,
  buffered s = [] ->
  run spill s (fst (batches finishing tasks batch_size offsets))
  = {| on_disk :=
         (fun lines =>
            lines ++ map RowLine
                         (written (fst (batches finishing tasks batch_size
                                                offsets))))
           <$> on_disk s;
       buffered := [] |}.
Proof.
  induction offsets as [|i offsets IH]; intros s Hs.
  - simpl. destruct s as [[d|] ?]; simpl in *; subst; [|done].
    by rewrite app_nil_r.
  - cbn [batches].
    set (batch := map snd (slice tasks i (i + batch_size))).
    destruct (gather (finishing i) batch) as [batch_results|].
    + destruct (batches finishing tasks batch_size offsets) as [later out].
      cbn [fst] in *.
      rewrite run_app, run_dones, run_app, run_writes_flush.
      rewrite !written_app, written_dones, written_writes.
      set (pause := if i + batch_size <? Z.of_nat (length tasks)
                    then [Pause 2] else []).
      assert (Hp : forall s', run spill s' pause = s' /\ written pause = []).
      { intros s'. unfold pause. by destruct (_ <? _). }
      rewrite run_app.
      destruct (Hp {| on_disk :=
                        (fun lines =>
                           lines ++ buffered s
                           ++ map RowLine
                                (merge_sort number_le batch_results))
                          <$> on_disk s;
                      buffered := [] |}) as [-> ->].
      rewrite IH by done. simpl. rewrite Hs. simpl.
      destruct (on_disk s); simpl; [|done].
      by rewrite app_nil_r, map_app, <- app_assoc.
    + cbn [fst]. rewrite run_dones, written_dones. simpl.
      destruct s as [[d|] ?]; simpl in *; subst; [|done].
      by rewrite app_nil_r.
Qed.

Section Loop.
Variables (finishing : Z -> list nat) (tasks : list (Z * row)).
Variables (batch_size first : Z).
Hypothesis batch_size_pos : 0 < batch_size.
Hypothesis tasks_numbered : numbered first (map snd tasks).
Hypothesis tasks_finish :
  every_task_finishes finishing (Z.of_nat (length tasks)) batch_size.

Lemma slice_batch (a : nat) :
  map snd (slice tasks (Z.of_nat a * batch_size)
                 (Z.of_nat a * batch_size + batch_size))
  = take (Z.to_nat batch_size)
         (drop (a * Z.to_nat batch_size) (map snd tasks)).
Proof.
  unfold slice.
  replace (Z.to_nat (Z.of_nat a * batch_size + batch_size
                     - Z.of_nat a * batch_size))
    with (Z.to_nat batch_size) by lia.
  replace (Z.to_nat (Z.of_nat a * batch_size))
    with (a * Z.to_nat batch_size)%nat by lia.
  by rewrite <- fmap_drop, <- fmap_take.
Qed.

Lemma batches_cons (a : nat) offsets :
  (a * Z.to_nat batch_size < length tasks)%nat ->
  batches finishing tasks batch_size (Z.of_nat a * batch_size :: offsets)
  = let '(later, out) := batches finishing tasks batch_size offsets in
    (block (finishing (Z.of_nat a * batch_size))
           (take (Z.to_nat batch_size)
                 (drop (a * Z.to_nat batch_size) (map snd tasks)))
           (Z.of_nat a * batch_size + batch_size <? Z.of_nat (length tasks))
       ++ later, out).
Proof.
  intros Ha. cbn [batches]. rewrite slice_batch.
  set (batch := take _ _).
  rewrite gather_all.
  2:{ replace (length batch)
        with (Z.to_nat (Z.min batch_size
                              (Z.of_nat (length tasks)
                               - Z.of_nat a * batch_size))).
      - apply tasks_finish. lia.
      - unfold batch. rewrite length_take, length_drop, length_map. lia. }
  rewrite (merge_sort_numbered
             (first + Z.of_nat (a * Z.to_nat batch_size)) batch).
  2:{ unfold batch. by apply numbered_take, numbered_drop. }
  destruct (batches finishing tasks batch_size offsets) as [later out].
  unfold block. by rewrite <- !app_assoc.
Qed.

Lemma batches_shape m : forall a,
  (forall k, (a <= k < a + m)%nat ->
             (k * Z.to_nat batch_size < length tasks)%nat) ->
  snd (batches finishing tasks batch_size (offsets_from batch_size a m)) = Returned
  /\ written (fst (batches finishing tasks batch_size (offsets_from batch_size a m)))
     = take (m * Z.to_nat batch_size)
            (drop (a * Z.to_nat batch_size) (map snd tasks)).
Proof.
  induction m as [|m IH]; intros a Hvalid; [done|].
  unfold offsets_from in *. cbn [seq map].
  rewrite batches_cons by (apply Hvalid; lia).
  destruct (IH (S a)) as [Hout Hw]; [intros; apply Hvalid; lia|].
  destruct (batches finishing tasks batch_size _) as [later out].
  cbn [fst snd] in *. split; [done|].
  rewrite written_app, written_block, Hw.
  replace (S a * Z.to_nat batch_size)%nat
    with (a * Z.to_nat batch_size + Z.to_nat batch_size)%nat by lia.
  rewrite <- drop_drop, take_take_drop. f_equal.
Qed.

Lemma batch_index_mem (a : nat) (r : row) :
  r ∈ take (Z.to_nat batch_size)
           (drop (a * Z.to_nat batch_size) (map snd tasks))
  <-> r ∈ map snd tasks /\ batch_index first batch_size r = Z.of_nat a.
Proof.
  unfold batch_index. split.
  - intros [x Hx]%list_elem_of_lookup.
    apply lookup_take_Some in Hx as [Hx Hlt]. rewrite lookup_drop in Hx.
    split; [by eapply list_elem_of_lookup_2|].
    rewrite (tasks_numbered _ _ Hx).
    symmetry. apply (Z.div_unique_pos _ _ _ (Z.of_nat x)); lia.
  - intros [[y Hy]%list_elem_of_lookup Hidx].
    rewrite (tasks_numbered _ _ Hy) in Hidx.
    assert (Hy' : Z.of_nat a * batch_size <= Z.of_nat y
                  < Z.of_nat a * batch_size + batch_size).
    { replace (first + Z.of_nat y - first) with (Z.of_nat y) in Hidx by lia.
      pose proof (Z.mul_div_le (Z.of_nat y) batch_size batch_size_pos).
      pose proof (Z.mul_succ_div_gt (Z.of_nat y) batch_size batch_size_pos).
      rewrite Hidx in *. lia. }
    apply list_elem_of_lookup.
    exists (y - a * Z.to_nat batch_size)%nat.
    apply lookup_take_Some. split; [|lia].
    rewrite lookup_drop. rewrite <- Hy. f_equal. lia.
Qed.

End Loop.

(** ** The scheduler: building the tasks and the offsets *)

Lemma range3_offsets n batch_size :
  0 < batch_size -> 0 <= n ->
  let m := Z.to_nat ((n + batch_size - 1) / batch_size) in
  range3 n batch_size = Some (offsets_from batch_size 0 m)
  /\ (forall k, (k < m)%nat -> (k * Z.to_nat batch_size < Z.to_nat n)%nat)
  /\ (Z.to_nat n <= m * Z.to_nat batch_size)%nat.
Proof.
  intros Hb Hn m. unfold range3.
  destruct (Z.eqb_spec batch_size 0); [lia|].
  destruct (Z.ltb_spec batch_size 0); [lia|].
  split; [done|].
  assert (Hm : Z.of_nat m = (n + batch_size - 1) / batch_size).
  { unfold m. rewrite Z2Nat.id; [done|]. apply Z.div_pos; lia. }
  pose proof (Z.mul_div_le (n + batch_size - 1) batch_size Hb).
  pose proof (Z.mul_succ_div_gt (n + batch_size - 1) batch_size Hb).
  split.
  - intros k Hk. nia.
  - nia.
Qed.

Lemma mapM_cons {A B} (f : A -> option B) (x : A) (l : list A) :
  mapM f (x :: l) = y ← f x; k ← mapM f l; Some (y :: k).
Proof. reflexivity. Qed.

Lemma omap_cons {A B} (f : A -> option B) (x : A) (l : list A) :
  omap f (x :: l)
  = match f x with Some y => y :: omap f l | None => omap f l end.
Proof. reflexivity. Qed.

Section Tasks.
Variable service : request -> nat -> reply.
Variables (species_list : list str) (en_prompt_template ja_prompt_template : str).

Lemma index_nonneg {A} (l : list A) (k : nat) : index l (Z.of_nat k) = l !! k.
Proof.
  unfold index. destruct (Z.ltb_spec (Z.of_nat k) 0); [lia|].
  by rewrite Nat2Z.id.
Qed.

Lemma tasks_build n : forall a : nat,
  ((0 < n)%nat -> (a + n <= length species_list)%nat) ->
  exists tasks,
    mapM (fun i =>
            species ← index species_list i;
            let line_number := i + 1 in
            Some (line_number,
                  process_species service line_number species
                                  en_prompt_template ja_prompt_template))
         (map (fun k => Z.of_nat a + Z.of_nat k) (seq 0 n))
    = Some tasks
    /\ map snd tasks
       = omap (row_for service en_prompt_template ja_prompt_template
                       species_list)
              (map (fun k => Z.of_nat a + 1 + Z.of_nat k) (seq 0 n))
    /\ numbered (Z.of_nat a + 1) (map snd tasks)
    /\ length tasks = n.
Proof.
  induction n as [|n IH]; intros a Ha.
  - exists []. repeat split. intros x r Hx. done.
  - destruct (IH (S a)) as (tasks & Hbuild & Hrows & Hnum & Hlen); [lia|].
    destruct (species_list !! a) as [species|] eqn:Hsp.
    2:{ apply lookup_ge_None in Hsp. lia. }
    exists ((Z.of_nat a + 1,
             process_species service (Z.of_nat a + 1) species
                             en_prompt_template ja_prompt_template)
              :: tasks).
    cbn [seq map]. rewrite <- !seq_shift, !map_map.
    erewrite (map_ext (fun k => Z.of_nat a + Z.of_nat (S k))
                      (fun k => Z.of_nat (S a) + Z.of_nat k)) by (intros; lia).
    erewrite (map_ext (fun k => Z.of_nat a + 1 + Z.of_nat (S k))
                      (fun k => Z.of_nat (S a) + 1 + Z.of_nat k))
      by (intros; lia).
    repeat split.
    + rewrite mapM_cons.
      replace (Z.of_nat a + Z.of_nat 0) with (Z.of_nat a) by lia.
      rewrite index_nonneg, Hsp. cbv zeta in Hbuild. simpl.
      by rewrite Hbuild.
    + rewrite omap_cons, <- Hrows. unfold row_for at 1.
      replace (Z.to_nat (Z.of_nat a + 1 + Z.of_nat 0 - 1)) with a by lia.
      rewrite Hsp. simpl.
      replace (Z.of_nat a + 1 + Z.of_nat 0) with (Z.of_nat a + 1) by lia.
      done.
    + intros [|x] r Hx; simpl in Hx.
      * simplify_eq. simpl. lia.
      * rewrite (Hnum _ _ Hx). lia.
    + simpl. by rewrite Hlen.
Qed.

Lemma process_and_save_batch_valid finishing start_line end_line mode
      batch_size :
  1 <= start_line -> end_line <= Z.of_nat (length species_list) ->
  0 < batch_size ->
  every_task_finishes finishing (end_line - start_line + 1) batch_size ->
  exists tasks m,
    map snd tasks
    = rows_for service en_prompt_template ja_prompt_template species_list
               start_line end_line
    /\ numbered start_line (map snd tasks)
    /\ length tasks = Z.to_nat (end_line - start_line + 1)
    /\ every_task_finishes finishing (Z.of_nat (length tasks)) batch_size
    /\ (forall k, (0 <= k < 0 + m)%nat ->
                  (k * Z.to_nat batch_size < length tasks)%nat)
    /\ (length tasks <= m * Z.to_nat batch_size)%nat
    /\ process_and_save_batch service finishing species_list start_line
                              end_line en_prompt_template ja_prompt_template
                              mode batch_size
       = (Open mode
            :: header_of mode
            ++ fst (batches finishing tasks batch_size
                            (offsets_from batch_size 0 m))
            ++ [Close],
          Returned).
Proof.
  intros Hstart Hend Hb Hfin.
  set (n := Z.to_nat (end_line - (start_line - 1))).
  destruct (tasks_build n (Z.to_nat (start_line - 1)))
    as (tasks & Hbuild & Hrows & Hnum & Hlen); [unfold n; lia|].
  destruct (range3_offsets (Z.of_nat (length tasks)) batch_size)
    as (Hrange & Hvalid & Hcover); [lia..|].
  set (m := Z.to_nat ((Z.of_nat (length tasks) + batch_size - 1)
                      / batch_size)) in *.
  rewrite Nat2Z.id in Hvalid, Hcover.
  assert (Hfin' : every_task_finishes finishing (Z.of_nat (length tasks))
                                      batch_size).
  { intros k Hk.
    replace (Z.of_nat (length tasks)) with (end_line - start_line + 1)
      by (unfold n in *; lia).
    apply Hfin. unfold n in *. lia. }
  exists tasks, m. repeat split.
  - rewrite Hrows. unfold rows_for, ordinals, range2. f_equal.
    replace (Z.to_nat (end_line + 1 - start_line)) with n by (unfold n; lia).
    apply map_ext. intros. lia.
  - replace start_line with (Z.of_nat (Z.to_nat (start_line - 1)) + 1) at 1
      by lia.
    done.
  - unfold n in *. lia.
  - done.
  - intros k Hk. apply Hvalid. lia.
  - done.
  - unfold process_and_save_batch, range2. fold n.
    erewrite (map_ext (fun k => start_line - 1 + Z.of_nat k)) by
      (intros k; rewrite <- (Z2Nat.id (start_line - 1)) by lia; reflexivity).
    cbv zeta in Hbuild |- *. rewrite Hbuild, Hrange.
    destruct (batches_shape finishing tasks batch_size start_line Hb
                ltac:(replace start_line
                        with (Z.of_nat (Z.to_nat (start_line - 1)) + 1)
                        by lia; done)
                Hfin' m 0%nat) as [Hout _].
    { intros k Hk. apply Hvalid. lia. }
    destruct (batches finishing tasks batch_size _) as [acts out].
    simpl in Hout. subst out. by destruct mode.
Qed.
End Tasks.

(** ** The scheduler: the order of the rows *)

Lemma numbered_ordinals first rows :
  numbered first rows ->
  map number rows = ordinals first (first + Z.of_nat (length rows) - 1).
Proof.
  intros H. unfold ordinals, range2.
  replace (Z.to_nat (first + Z.of_nat (length rows) - 1 + 1 - first))
    with (length rows) by lia.
  apply list_eq. intros x. rewrite !list_lookup_fmap.
  destruct (rows !! x) as [r|] eqn:E; simpl.
  - apply lookup_lt_Some in E as Hlt.
    rewrite lookup_seq_lt by done. simpl. by rewrite (H _ _ E).
  - apply lookup_ge_None in E. by rewrite lookup_seq_ge.
Qed.

Lemma ordinals_increasing start_line end_line :
  StronglySorted Z.lt (ordinals start_line end_line).
Proof.
  unfold ordinals, range2. generalize (Z.to_nat (end_line + 1 - start_line)).
  intros n. generalize 0%nat.
  induction n as [|n IH]; intros a; simpl; constructor; [apply IH|].
  apply Forall_forall. intros z [k [-> Hk]]%list_elem_of_fmap.
  apply elem_of_seq in Hk. lia.
Qed.

Lemma written_header mode : written (header_of mode) = [].
Proof. by destruct mode. Qed.

(** C1.  For every range of ordinals within the identifier list and every
    positive batch size, whatever the order in which the tasks of each
    batch finish, the call returns and the rows it wrote, in the order of
    writing, carry exactly the ordinals [start_line], ..., [end_line],
    which increase strictly. *)
Theorem process_and_save_batch_ordering
        (service : request -> nat -> reply) (finishing : Z -> list nat)
        (species_list : list str) (start_line end_line : Z)
        (en_prompt_template ja_prompt_template : str)
        (mode : file_mode) (batch_size : Z) :
  1 <= start_line -> end_line <= Z.of_nat (length species_list) ->
  0 < batch_size ->
  every_task_finishes finishing (end_line - start_line + 1) batch_size ->
  snd (process_and_save_batch service finishing species_list start_line
                              end_line en_prompt_template ja_prompt_template
                              mode batch_size) = Returned
  /\ map number
         (written
            (fst (process_and_save_batch service finishing species_list
                    start_line end_line en_prompt_template
                    ja_prompt_template mode batch_size)))
     = ordinals start_line end_line
  /\ StronglySorted Z.lt
       (map number
            (written
               (fst (process_and_save_batch service finishing species_list
                       start_line end_line en_prompt_template
                       ja_prompt_template mode batch_size)))).
Proof.
  intros Hstart Hend Hb Hfin.
  destruct (process_and_save_batch_valid
              service species_list en_prompt_template ja_prompt_template
              finishing start_line end_line mode batch_size)
    as (tasks & m & Hrows & Hnum & Hlen & Hfin' & Hvalid & Hcover & ->);
    [done..|].
  cbn [fst snd]. split; [done|].
  assert (Hw : map number
                   (written (Open mode :: header_of mode
                               ++ fst (batches finishing tasks batch_size
                                         (offsets_from batch_size 0 m))
                               ++ [Close]))
               = ordinals start_line end_line).
  { change (Open mode :: ?l) with ([Open mode] ++ l).
    rewrite !written_app, written_header.
    destruct (batches_shape finishing tasks batch_size start_line Hb Hnum
                            Hfin' m 0%nat Hvalid) as [_ ->].
    simpl. rewrite app_nil_r, drop_0, take_ge by (rewrite length_map; lia).
    rewrite (numbered_ordinals start_line) by done.
    rewrite length_map, Hlen. unfold ordinals, range2.
    do 2 f_equal. lia. }
  rewrite Hw. split; [done|apply ordinals_increasing].
Qed.

Lemma second_first_finishes (n : Z) :
  (n mod 2 = 0) -> every_task_finishes second_first n 2.
Proof.
  intros Hn k Hk. pose proof (Z.div_mod n 2 ltac:(lia)).
  replace (Z.to_nat (Z.min 2 (n - Z.of_nat k * 2))) with 2%nat by lia.
  apply perm_swap.
Qed.

Lemma process_and_save_batch_ordering_witness :
  map number
      (written
         (fst (process_and_save_batch echo_service second_first five_species
                 2 5 (u "en [species]") (u "ja [species]") ModeA 2)))
  = [2; 3; 4; 5].
Proof.
  refine (proj1 (proj2 (process_and_save_batch_ordering
                          echo_service second_first five_species 2 5
                          (u "en [species]") (u "ja [species]") ModeA 2
                          _ _ _ _))).
  - lia.
  - simpl. lia.
  - lia.
  - apply second_first_finishes. reflexivity.
Defined.

(** ** The scheduler: the file after a run *)

Lemma run_open_header spill mode old :
  run spill (closed old) (Open mode :: header_of mode)
  = closed (Some (opened mode old)).
Proof.
  destruct mode; [|done]. unfold closed. simpl. by rewrite take_drop.
Qed.

Lemma run_close spill d :
  run spill (closed (Some d)) [Close] = closed (Some d).
Proof. unfold closed. simpl. by rewrite app_nil_r. Qed.

Section Runs.
Variable service : request -> nat -> reply.
Variables (species_list : list str) (en_prompt_template ja_prompt_template : str).

Lemma process_and_save_batch_store spill finishing start_line end_line
      mode batch_size old :
  1 <= start_line -> end_line <= Z.of_nat (length species_list) ->
  0 < batch_size ->
  every_task_finishes finishing (end_line - start_line + 1) batch_size ->
  run spill (closed old)
      (fst (process_and_save_batch service finishing species_list start_line
              end_line en_prompt_template ja_prompt_template mode
              batch_size))
  = closed (Some (opened mode old
                    ++ map RowLine
                         (rows_for service en_prompt_template
                                   ja_prompt_template species_list
                                   start_line end_line))).
Proof.
  intros Hstart Hend Hb Hfin.
  destruct (process_and_save_batch_valid
              service species_list en_prompt_template ja_prompt_template
              finishing start_line end_line mode batch_size)
    as (tasks & m & Hrows & Hnum & Hlen & Hfin' & Hvalid & Hcover & ->);
    [done..|].
  cbn [fst]. change (Open mode :: ?l) with ([Open mode] ++ l).
  rewrite app_assoc, run_app. simpl app. rewrite run_open_header.
  rewrite run_app, batches_store by done.
  destruct (batches_shape finishing tasks batch_size start_line Hb Hnum
                          Hfin' m 0%nat Hvalid) as [_ ->].
  simpl. rewrite drop_0, take_ge by (rewrite length_map; lia).
  by rewrite Hrows, app_nil_r.
Qed.

Lemma rows_for_length start_line end_line :
  1 <= start_line -> end_line <= Z.of_nat (length species_list) ->
  length (rows_for service en_prompt_template ja_prompt_template
                   species_list start_line end_line)
  = Z.to_nat (end_line - start_line + 1).
Proof.
  intros Hstart Hend.
  destruct (process_and_save_batch_valid
              service species_list en_prompt_template ja_prompt_template
              one_by_one start_line end_line ModeA 1)
    as (tasks & m & Hrows & _ & Hlen & _); [done|done|lia| |].
  - intros k Hk.
    replace (Z.to_nat (Z.min 1 (end_line - start_line + 1 - Z.of_nat k * 1)))
      with 1%nat by lia.
    done.
  - by rewrite <- Hrows, length_map.
Qed.

Lemma rows_for_app start_line mid_line end_line :
  start_line <= mid_line + 1 -> mid_line <= end_line ->
  rows_for service en_prompt_template ja_prompt_template species_list
           start_line mid_line
  ++ rows_for service en_prompt_template ja_prompt_template species_list
              (mid_line + 1) end_line
  = rows_for service en_prompt_template ja_prompt_template species_list
             start_line end_line.
Proof.
  intros H1 H2. unfold rows_for. rewrite <- omap_app. f_equal.
  unfold ordinals, range2.
  replace (Z.to_nat (end_line + 1 - start_line))
    with (Z.to_nat (mid_line + 1 - start_line)
          + Z.to_nat (end_line + 1 - (mid_line + 1)))%nat by lia.
  rewrite seq_app, map_app. f_equal.
  replace (seq (0 + Z.to_nat (mid_line + 1 - start_line))
               (Z.to_nat (end_line + 1 - (mid_line + 1))))
    with (Nat.add (Z.to_nat (mid_line + 1 - start_line))
            <$> seq 0 (Z.to_nat (end_line + 1 - (mid_line + 1))))
    by (rewrite fmap_add_seq; f_equal; lia).
  rewrite map_map. apply map_ext. intros k. simpl. lia.
Qed.
End Runs.

(** C3.  On a list of at least ten identifiers, a run over [1,5] that
    creates the file followed by a run over [6,10] that appends to it
    leaves the file that a single creating run over [1,10] leaves: the
    header and the same ten rows in the same order.  The service answers
    a request in the same way in all three runs; batch sizes, finishing
    orders and the buffering of the file objects are arbitrary. *)
Theorem resume_matches_single_run
        (service : request -> nat -> reply)
        (spill1 spill2 spill : list csv_line -> nat)
        (finishing1 finishing2 finishing : Z -> list nat)
        (species_list : list str)
        (en_prompt_template ja_prompt_template : str)
        (batch_size1 batch_size2 batch_size : Z)
        (old : option (list csv_line)) :
  10 <= Z.of_nat (length species_list) ->
  0 < batch_size1 -> 0 < batch_size2 -> 0 < batch_size ->
  every_task_finishes finishing1 5 batch_size1 ->
  every_task_finishes finishing2 5 batch_size2 ->
  every_task_finishes finishing 10 batch_size ->
  run spill2
      (run spill1 (closed old)
           (fst (process_and_save_batch service finishing1 species_list 1 5
                   en_prompt_template ja_prompt_template ModeW batch_size1)))
      (fst (process_and_save_batch service finishing2 species_list 6 10
              en_prompt_template ja_prompt_template ModeA batch_size2))
  = run spill (closed old)
        (fst (process_and_save_batch service finishing species_list 1 10
                en_prompt_template ja_prompt_template ModeW batch_size))
  /\ run spill (closed old)
         (fst (process_and_save_batch service finishing species_list 1 10
                 en_prompt_template ja_prompt_template ModeW batch_size))
     = closed (Some (HeaderLine fieldnames
                       :: map RowLine
                            (rows_for service en_prompt_template
                                      ja_prompt_template species_list 1 10)))
  /\ length (rows_for service en_prompt_template ja_prompt_template
                      species_list 1 10) = 10%nat.
Proof.
  intros Hlen Hb1 Hb2 Hb Hf1 Hf2 Hf.
  rewrite !process_and_save_batch_store by (done || lia).
  repeat split.
  - simpl opened. rewrite <- (rows_for_app _ _ _ _ 1 5 10) by lia.
    by rewrite map_app.
  - by rewrite rows_for_length by lia.
Qed.

Lemma one_by_one_finishes n : every_task_finishes one_by_one n 1.
Proof.
  intros k Hk.
  replace (Z.to_nat (Z.min 1 (n - Z.of_nat k * 1))) with 1%nat by lia.
  done.
Qed.

Lemma resume_matches_single_run_witness :
  run passes_all
      (run keeps_all (closed None)
           (fst (process_and_save_batch echo_service one_by_one ten_species
                   1 5 (u "en [species]") (u "ja [species]") ModeW 1)))
      (fst (process_and_save_batch echo_service one_by_one ten_species 6 10
              (u "en [species]") (u "ja [species]") ModeA 1))
  = run holds_one (closed None)
        (fst (process_and_save_batch echo_service second_first ten_species
                1 10 (u "en [species]") (u "ja [species]") ModeW 2)).
Proof.
  refine (proj1 (resume_matches_single_run
                   echo_service keeps_all passes_all holds_one
                   one_by_one one_by_one second_first
                   ten_species (u "en [species]") (u "ja [species]")
                   1 1 2 None _ _ _ _ _ _ _)).
  - simpl. lia.
  - lia.
  - lia.
  - lia.
  - apply one_by_one_finishes.
  - apply one_by_one_finishes.
  - apply second_first_finishes. reflexivity.
Defined.

(** The scenario of the specification: two identifiers, batches of one. *)
Example scenario_two_species :
  run holds_one (closed None)
      (fst (process_and_save_batch scenario_service one_by_one
              [u "Panthera leo"; u "Canis lupus"] 1 2
              (u "EN [species]") (u "JA [species]") ModeW 1))
  = closed
      (Some [ HeaderLine fieldnames;
              RowLine {| number := 1;
                         scientific_name := u "Panthera leo";
                         english_common_name := u "Lion";
                         japanese_common_name :=
                           [0x30E9; 0x30A4; 0x30AA; 0x30F3]%N |};
              RowLine {| number := 2;
                         scientific_name := u "Canis lupus";
                         english_common_name := u "Wolf";
                         japanese_common_name := sentinel |} ]).
Proof. vm_compute. reflexivity. Qed.

(** ** The grouping utilities *)

Lemma str_eqb_eq (a b : str) : str_eqb a b = true <-> a = b.
Proof.
  revert b. induction a as [|x a IH]; intros [|y b]; simpl; try done.
  rewrite andb_true_iff, char_eqb_eq, IH. split; [by intros [-> ->]|].
  intros ?; by simplify_eq.
Qed.

Lemma str_eqb_refl (a : str) : str_eqb a a = true.
Proof. by apply str_eqb_eq. Qed.

Lemma str_eqb_neq (a b : str) : str_eqb a b = false <-> a <> b.
Proof.
  rewrite <- str_eqb_eq. destruct (str_eqb a b); split; congruence.
Qed.

Lemma str_eqb_sym (a b : str) : str_eqb a b = str_eqb b a.
Proof.
  destruct (str_eqb a b) eqn:E1, (str_eqb b a) eqn:E2; try done.
  - apply str_eqb_eq in E1 as ->. by rewrite str_eqb_refl in E2.
  - apply str_eqb_eq in E2 as ->. by rewrite str_eqb_refl in E1.
Qed.

Lemma str_ltb_cons x a y b :
  str_ltb (x :: a) (y :: b)
  = if (x <? y)%N then true else if (x =? y)%N then str_ltb a b else false.
Proof. reflexivity. Qed.

Lemma str_ltb_asym (a b : str) : str_ltb a b = true -> str_ltb b a = false.
Proof.
  revert b. induction a as [|x a IH]; intros [|y b]; try done.
  rewrite !str_ltb_cons.
  destruct (N.lt_trichotomy x y) as [H|[H|H]].
  - rewrite (proj2 (N.ltb_ge y x)), (proj2 (N.eqb_neq y x)) by lia. done.
  - subst. rewrite N.ltb_irrefl, N.eqb_refl. apply IH.
  - rewrite (proj2 (N.ltb_ge x y)), (proj2 (N.eqb_neq x y)) by lia. done.
Qed.

Lemma str_ltb_total (a b : str) :
  a <> b -> str_ltb b a = false -> str_ltb a b = true.
Proof.
  revert b. induction a as [|x a IH]; intros [|y b]; try done.
  rewrite !str_ltb_cons. intros Hne.
  destruct (N.lt_trichotomy x y) as [H|[H|H]].
  - by rewrite (proj2 (N.ltb_lt x y)) by lia.
  - subst. rewrite N.ltb_irrefl, N.eqb_refl. apply IH. congruence.
  - by rewrite (proj2 (N.ltb_lt y x)) by lia.
Qed.

Lemma strs_ltb_asym (a b : list str) :
  strs_ltb a b = true -> strs_ltb b a = false.
Proof.
  revert b. induction a as [|x a IH]; intros [|y b]; simpl; try done.
  rewrite (str_eqb_sym y x). destruct (str_eqb x y); [apply IH|].
  apply str_ltb_asym.
Qed.

#[local] Instance item_le_total : Total item_le.
Proof.
  intros [k1 v1] [k2 v2]. unfold item_le, item_ltb. simpl.
  rewrite (str_eqb_sym k2 k1).
  destruct (str_eqb k1 k2).
  - destruct (strs_ltb v1 v2) eqn:E; [|by right].
    left. by apply strs_ltb_asym.
  - destruct (str_ltb k1 k2) eqn:E; [|by right].
    left. by apply str_ltb_asym.
Qed.

(** *** The dictionary *)

Lemma dict_get_append d k v k' :
  dict_get (dict_append d k v) k'
  = if str_eqb k k' then Some (default [] (dict_get d k) ++ [v])
    else dict_get d k'.
Proof.
  induction d as [|[k0 vs] d IH]; simpl.
  - by destruct (str_eqb k k').
  - destruct (str_eqb k0 k) eqn:E0; simpl.
    + apply str_eqb_eq in E0 as ->. by destruct (str_eqb k k').
    + destruct (str_eqb k0 k') eqn:E1; [|done].
      apply str_eqb_eq in E1 as ->.
      by rewrite str_eqb_sym, E0.
Qed.

Lemma dict_append_keys d k v :
  map fst (dict_append d k v)
  = if bool_decide (k ∈ map fst d) then map fst d else map fst d ++ [k].
Proof.
  induction d as [|[k0 vs] d IH]; simpl; [done|].
  destruct (str_eqb k0 k) eqn:E0; simpl.
  - apply str_eqb_eq in E0 as ->.
    rewrite bool_decide_eq_true_2; [done|by left].
  - rewrite IH. apply str_eqb_neq in E0.
    destruct (bool_decide (k ∈ map fst d)) eqn:E.
    + apply bool_decide_eq_true in E.
      rewrite bool_decide_eq_true_2; [done|by right].
    + apply bool_decide_eq_false in E.
      rewrite bool_decide_eq_false_2; [done|].
      intros [?|?]%elem_of_cons; [congruence|done].
Qed.

Lemma dict_append_NoDup d k v :
  NoDup (map fst d) -> NoDup (map fst (dict_append d k v)).
Proof.
  intros H. rewrite dict_append_keys.
  destruct (bool_decide (k ∈ map fst d)) eqn:E; [done|].
  apply bool_decide_eq_false in E.
  apply NoDup_app. repeat split; [done| |apply NoDup_singleton].
  intros x Hx ->%list_elem_of_singleton. done.
Qed.

Lemma dict_get_elem_of d k vs :
  NoDup (map fst d) -> (k, vs) ∈ d <-> dict_get d k = Some vs.
Proof.
  induction d as [|[k0 vs0] d IH]; simpl; intros Hnd.
  - split; [by intros ?%elem_of_nil|done].
  - apply NoDup_cons in Hnd as [Hk0 Hnd].
    destruct (str_eqb k0 k) eqn:E.
    + apply str_eqb_eq in E as ->. split.
      * intros [?|Hin]%elem_of_cons; [by simplify_eq|].
        exfalso. apply Hk0. apply list_elem_of_fmap. by exists (k, vs).
      * intros ?; simplify_eq. by left.
    + apply str_eqb_neq in E. rewrite <- IH by done. split.
      * intros [?|?]%elem_of_cons; [by simplify_eq|done].
      * intros ?. by right.
Qed.

Lemma carrying_snoc label rows r :
  carrying label (rows ++ [r])
  = carrying label rows
    ++ (if str_eqb (row_common_name r) label then [row_scientific_name r]
        else []).
Proof.
  unfold carrying. rewrite List.filter_app, map_app. simpl.
  by destruct (str_eqb (row_common_name r) label).
Qed.

Lemma name_to_scientific_names_snoc rows r :
  name_to_scientific_names (rows ++ [r])
  = dict_append (name_to_scientific_names rows) (row_common_name r)
                (row_scientific_name r).
Proof. unfold name_to_scientific_names. by rewrite foldl_app. Qed.

Lemma name_to_scientific_names_spec rows :
  NoDup (map fst (name_to_scientific_names rows))
  /\ forall label,
      dict_get (name_to_scientific_names rows) label
      = match carrying label rows with
        | [] => None
        | names => Some names
        end.
Proof.
  induction rows as [|r rows [Hnd Hget]] using rev_ind.
  - split; [constructor|done].
  - rewrite name_to_scientific_names_snoc. split.
    + by apply dict_append_NoDup.
    + intros label. rewrite dict_get_append, carrying_snoc.
      destruct (str_eqb (row_common_name r) label) eqn:E.
      * apply str_eqb_eq in E as <-. rewrite Hget.
        destruct (carrying (row_common_name r) rows); done.
      * rewrite Hget, app_nil_r. done.
Qed.

(** *** Sorting the items *)

Lemma sorted_items_keys d :
  NoDup (map fst d) -> Sorted str_lt (map fst (sorted_items d)).
Proof.
  intros Hnd. unfold sorted_items.
  assert (Hnd' : NoDup (map fst (merge_sort item_le d))).
  { by rewrite merge_sort_Permutation. }
  pose proof (Sorted_merge_sort item_le d) as Hs.
  induction Hs as [|[k vs] l Hs IH Hhd]; [constructor|].
  simpl in *. apply NoDup_cons in Hnd' as [Hk Hnd'].
  constructor; [by apply IH|].
  destruct Hhd as [|[k' vs'] l Hle]; constructor.
  unfold item_le, item_ltb in Hle. simpl in *.
  assert (Hne : k <> k') by (intros ->; apply Hk; by left).
  rewrite (proj2 (str_eqb_neq k' k)) in Hle by done.
  by apply str_ltb_total.
Qed.

(** *** One line per object *)

Lemma char_in_app c (a b : str) : char_in c (a ++ b) = char_in c a || char_in c b.
Proof.
  induction a as [|x a IH]; simpl; [done|]. by rewrite IH, orb_assoc.
Qed.

Lemma hex_digit_not_newline n : char_eqb newline (hex_digit n) = false.
Proof.
  apply N.eqb_neq. unfold hex_digit, newline.
  destruct (N.ltb_spec n 10); lia.
Qed.

Lemma json_escape_no_newline c : char_in newline (json_escape c) = false.
Proof.
  unfold json_escape.
  destruct (c =? 34)%N; [done|]. destruct (c =? 92)%N; [done|].
  destruct (N.eqb_spec c 10) as [|Hc]; [done|].
  destruct (c =? 13)%N; [done|]. destruct (c =? 9)%N; [done|].
  destruct (c =? 8)%N; [done|]. destruct (c =? 12)%N; [done|].
  destruct (c <? 32)%N.
  - change (backslash :: u "u00" ++ ?l) with ((backslash :: u "u00") ++ l).
    rewrite char_in_app. cbn [char_in].
    by rewrite !hex_digit_not_newline.
  - cbn [char_in]. rewrite orb_false_r. apply N.eqb_neq.
    unfold newline. congruence.
Qed.

Lemma json_string_no_newline s : char_in newline (json_string s) = false.
Proof.
  unfold json_string. rewrite !char_in_app. cbn [char_in app].
  replace (char_eqb newline dquote) with false by done. simpl.
  rewrite orb_false_r.
  induction s as [|c s IH]; simpl; [done|].
  by rewrite char_in_app, json_escape_no_newline, IH.
Qed.

Lemma json_array_no_newline items : char_in newline (json_array items) = false.
Proof.
  unfold json_array. rewrite !char_in_app.
  replace (char_in newline (u "[")) with false by done.
  replace (char_in newline (u "]")) with false by done.
  rewrite orb_false_r. simpl.
  induction items as [|s items IH]; [done|].
  cbn [map join]. destruct (map json_string items) eqn:E.
  - apply json_string_no_newline.
  - rewrite !char_in_app, json_string_no_newline, IH. done.
Qed.

Lemma json_dumps_no_newline label_key item :
  char_in newline (json_dumps label_key item) = false.
Proof.
  unfold json_dumps.
  rewrite !char_in_app, !json_string_no_newline, json_array_no_newline.
  done.
Qed.

Lemma split_line (l rest : str) :
  char_in newline l = false ->
  split newline (l ++ newline :: rest) = l :: split newline rest.
Proof.
  induction l as [|c l IH]; cbn [char_in app split].
  - intros _. unfold char_eqb. by rewrite N.eqb_refl.
  - intros [Hc Hl]%orb_false_elim. rewrite IH by done.
    unfold char_eqb in *. rewrite N.eqb_sym in Hc. by rewrite Hc.
Qed.

Lemma split_lines (lines : list str) :
  Forall (fun l => char_in newline l = false) lines ->
  split newline (concat (map (fun l => l ++ [newline]) lines))
  = lines ++ [[]].
Proof.
  induction 1 as [|l lines Hl _ IH]; [done|].
  simpl. rewrite <- app_assoc. simpl. by rewrite split_line, IH.
Qed.


Example load_species_list_example :
  load_species_list (u "Panthera leo" ++ [carriage_return; newline]
                       ++ [newline] ++ u "  Canis lupus  " ++ [newline]
                       ++ u "   " ++ [carriage_return] ++ u "Lynx lynx")
  = [u "Panthera leo"; u "Canis lupus"; u "Lynx lynx"].
Proof. vm_compute. reflexivity. Qed.

(** ** More on the normalizer *)

Lemma part_of_refl a : part_of a a.
Proof. exists [], []. by rewrite app_nil_r. Qed.

Lemma part_of_trans a b c : part_of a b -> part_of b c -> part_of a c.
Proof.
  intros (l1 & r1 & ->) (l2 & r2 & ->).
  exists (l2 ++ l1), (r1 ++ r2). by rewrite <- !app_assoc.
Qed.

Lemma part_of_suffix a b : a `suffix_of` b -> part_of a b.
Proof. intros [k ->]. exists k, []. by rewrite app_nil_r. Qed.

Lemma part_of_prefix a b : a `prefix_of` b -> part_of a b.
Proof. intros [k ->]. by exists [], k. Qed.

Lemma part_of_length a b : part_of a b -> (length a <= length b)%nat.
Proof. intros (l & r & ->). rewrite !length_app. lia. Qed.

Lemma part_of_same_length a b :
  part_of a b -> length a = length b -> a = b.
Proof.
  intros (l & r & ->). rewrite !length_app. intros H.
  destruct l; [|simpl in H; lia]. destruct r; [|simpl in H; lia].
  by rewrite app_nil_r.
Qed.

Lemma lstrip_with_suffix p s : lstrip_with p s `suffix_of` s.
Proof.
  induction s as [|c s IH]; simpl; [done|].
  destruct (p c); [by apply suffix_cons_r|done].
Qed.

Lemma rstrip_with_prefix p s : rstrip_with p s `prefix_of` s.
Proof.
  unfold rstrip_with. destruct (lstrip_with_suffix p (rev s)) as [k Hk].
  exists (rev k). apply (f_equal (@rev _)) in Hk.
  by rewrite rev_involutive, rev_app_distr in Hk.
Qed.

Lemma strip_with_part_of p s : part_of (strip_with p s) s.
Proof.
  unfold strip_with.
  eapply part_of_trans; [apply part_of_prefix, rstrip_with_prefix|].
  apply part_of_suffix, lstrip_with_suffix.
Qed.

Lemma after_prefix_suffix fold w : forall s rest,
  after_prefix fold w s = Some rest -> rest `suffix_of` s.
Proof.
  induction w as [|d w IH]; intros s rest; simpl.
  - by intros [= ->].
  - destruct s as [|c s]; [done|].
    destruct (char_eqb (fold c) (fold d)); [|done].
    intros H. by apply suffix_cons_r, IH.
Qed.

Lemma drop_en_label_suffix label s : drop_en_label label s `suffix_of` s.
Proof.
  unfold drop_en_label.
  destruct (after_prefix sre_lower label s) as [rest|] eqn:E; [|done].
  etransitivity; [apply lstrip_with_suffix|by eapply after_prefix_suffix].
Qed.

Lemma drop_ja_label_suffix label s : drop_ja_label label s `suffix_of` s.
Proof.
  unfold drop_ja_label.
  destruct (after_prefix (fun c => c) label s) as [[|c rest]|] eqn:E;
    [done| |done].
  destruct (char_in c colons); [|done].
  etransitivity; [apply lstrip_with_suffix|].
  apply after_prefix_suffix in E. etransitivity; [|exact E].
  by apply suffix_cons_r.
Qed.

Lemma remove_prefixes_suffix t s : remove_prefixes t s `suffix_of` s.
Proof.
  destruct t; simpl.
  - etransitivity; apply drop_en_label_suffix.
  - etransitivity; apply drop_ja_label_suffix.
Qed.

Lemma before_newline_prefix s : before_newline s `prefix_of` s.
Proof.
  induction s as [|c s IH]; simpl; [done|].
  destruct (char_eqb c newline); [apply prefix_nil|by apply prefix_cons].
Qed.

Lemma cut_at_line_break_part_of s : part_of (cut_at_line_break s) s.
Proof.
  unfold cut_at_line_break. destruct (char_in newline s).
  - eapply part_of_trans; [apply strip_with_part_of|].
    apply part_of_prefix, before_newline_prefix.
  - apply part_of_refl.
Qed.

Lemma normalize_part_of t raw : part_of (normalize t raw) raw.
Proof.
  unfold normalize, strip_chars, strip.
  eapply part_of_trans; [apply strip_with_part_of|].
  eapply part_of_trans; [apply strip_with_part_of|].
  eapply part_of_trans; [apply cut_at_line_break_part_of|].
  eapply part_of_trans; [apply part_of_suffix, remove_prefixes_suffix|].
  apply strip_with_part_of.
Qed.

(** Only the line feed U+000A ends the line that [clean_common_name]
    keeps: a carriage return inside the text stays where it is. *)
Example clean_common_name_keeps_carriage_return :
  clean_common_name (u "Lion" ++ [carriage_return] ++ u "Panthera leo") (u "en")
  = u "Lion" ++ [carriage_return] ++ u "Panthera leo".
Proof. vm_compute. reflexivity. Qed.

(** X1.  Whatever the input and the language argument, the label that
    [clean_common_name] returns has no white space at either end and no
    line feed (U+000A) inside.  Other line separators are not looked
    for: a carriage return inside the text may remain. *)
Theorem clean_common_name_one_trimmed_line (common_name language : str) :
  strip (clean_common_name common_name language)
  = clean_common_name common_name language
  /\ char_in newline (clean_common_name common_name language) = false.
Proof.
  rewrite clean_common_name_steps. split.
  - unfold normalize. apply strip_idem.
  - apply normalize_no_newline.
Qed.

(** X2.  [clean_common_name] only removes: its result occurs in the input
    as one contiguous piece, so it is never longer than the input and
    holds no character that the input lacks. *)
Theorem clean_common_name_only_removes (common_name language : str) :
  part_of (clean_common_name common_name language) common_name
  /\ (length (clean_common_name common_name language)
      <= length common_name)%nat
  /\ forall c, c ∈ clean_common_name common_name language ->
               c ∈ common_name.
Proof.
  rewrite clean_common_name_steps.
  pose proof (normalize_part_of (target_of language) common_name) as H.
  split; [done|]. split; [by apply part_of_length|].
  intros c Hc. destruct H as (l & r & Heq). rewrite Heq.
  apply elem_of_app. right. apply elem_of_app. by left.
Qed.

(** X3.  The strings that [clean_common_name] leaves unchanged are
    exactly those with no white space at either end, no line feed
    (U+000A) anywhere, no leading label of the language and no quote
    character of the language at either end.  A carriage return inside
    such a string does not matter. *)
Theorem clean_common_name_fixed_points (y language : str) :
  clean_common_name y language = y
  <-> strip y = y
      /\ char_in newline y = false
      /\ remove_prefixes (target_of language) y = y
      /\ strip_chars (quotes_of (target_of language)) y = y.
Proof.
  rewrite clean_common_name_steps. set (t := target_of language). split.
  - intros Hfix.
    assert (Htrim : strip y = y).
    { rewrite <- Hfix at 1. unfold normalize. rewrite strip_idem.
      exact Hfix. }
    assert (Hnl : char_in newline y = false).
    { rewrite <- Hfix. apply normalize_no_newline. }
    unfold normalize in Hfix. rewrite Htrim in Hfix.
    assert (Hrp : remove_prefixes t y = y).
    { apply part_of_same_length;
        [apply part_of_suffix, remove_prefixes_suffix|].
      apply Nat.le_antisymm;
        [apply part_of_length, part_of_suffix, remove_prefixes_suffix|].
      rewrite <- Hfix at 1.
      etransitivity; [apply part_of_length, strip_with_part_of|].
      etransitivity; [apply part_of_length, strip_with_part_of|].
      apply part_of_length, cut_at_line_break_part_of. }
    rewrite Hrp in Hfix. unfold cut_at_line_break in Hfix.
    rewrite Hnl in Hfix.
    repeat split; try done.
    apply part_of_same_length; [apply strip_with_part_of|].
    apply Nat.le_antisymm; [apply part_of_length, strip_with_part_of|].
    rewrite <- Hfix at 1. apply part_of_length, strip_with_part_of.
  - intros (Htrim & Hnl & Hrp & Hq). unfold normalize.
    rewrite Htrim, Hrp. unfold cut_at_line_break. rewrite Hnl.
    by rewrite Hq.
Qed.

(** ** Loading the identifiers *)

Lemma translate_from_no_cr s : forall after_cr,
  char_in carriage_return (translate_from after_cr s) = false.
Proof.
  induction s as [|c s IH]; intros after_cr; [done|].
  cbn [translate_from].
  destruct (char_eqb c carriage_return) eqn:Ecr; [cbn [char_in]; by rewrite IH|].
  destruct (char_eqb c newline); [destruct after_cr|];
    cbn [char_in]; rewrite ?IH; try done.
  unfold char_eqb in *. by rewrite N.eqb_sym, Ecr.
Qed.

Lemma translate_from_id s :
  char_in carriage_return s = false -> translate_from false s = s.
Proof.
  induction s as [|c s IH]; [done|]. cbn [char_in translate_from].
  intros [Hc Hs]%orb_false_elim.
  unfold char_eqb in *. rewrite N.eqb_sym in Hc. rewrite Hc.
  destruct (N.eqb_spec c newline) as [->|]; by rewrite IH.
Qed.

Lemma file_lines_cons c s :
  file_lines (c :: s)
  = if char_eqb c newline then [newline] :: file_lines s
    else match file_lines s with
         | [] => [[c]]
         | l :: ls => (c :: l) :: ls
         end.
Proof. reflexivity. Qed.

(** A line is a body without line break, followed or not by one. *)
Lemma file_lines_shape s : forall line,
  line ∈ file_lines s ->
  exists body,
    char_in newline body = false
    /\ (line = body \/ line = body ++ [newline])
    /\ forall c, c ∈ line -> c ∈ s.
Proof.
  induction s as [|c s IH]; intros line Hline.
  { by apply elem_of_nil in Hline. }
  rewrite file_lines_cons in Hline.
  destruct (char_eqb c newline) eqn:Ec.
  - apply char_eqb_eq in Ec as ->.
    apply elem_of_cons in Hline as [->|Hline].
    + exists []. repeat split; [by right|].
      intros d Hd. apply list_elem_of_singleton in Hd as ->. by left.
    + destruct (IH line Hline) as (body & Hb & Hshape & Hsub).
      exists body. repeat split; [done..|]. intros c Hc. right. by apply Hsub.
  - destruct (file_lines s) as [|l ls] eqn:El.
    + apply list_elem_of_singleton in Hline as ->.
      exists [c]. repeat split; [|by left|].
      * cbn [char_in]. unfold char_eqb in *. by rewrite N.eqb_sym, Ec.
      * intros d Hd. apply list_elem_of_singleton in Hd as ->. by left.
    + apply elem_of_cons in Hline as [->|Hline].
      * destruct (IH l ltac:(by left)) as (body & Hb & Hshape & Hsub).
        exists (c :: body). repeat split.
        -- cbn [char_in]. unfold char_eqb in *.
           by rewrite N.eqb_sym, Ec, Hb.
        -- destruct Hshape as [->| ->]; [by left|by right].
        -- intros d [->|Hd]%elem_of_cons; [by left|]. right. by apply Hsub.
      * destruct (IH line ltac:(by right)) as (body & Hb & Hshape & Hsub).
        exists body. repeat split; [done..|].
        intros d Hd. right. by apply Hsub.
Qed.

Lemma lstrip_with_app_nonempty p s t :
  lstrip_with p s <> [] -> lstrip_with p (s ++ t) = lstrip_with p s ++ t.
Proof.
  induction s as [|c s IH]; simpl; [done|]. destruct (p c); [apply IH|done].
Qed.

Lemma lstrip_with_app_empty p s t :
  lstrip_with p s = [] -> lstrip_with p (s ++ t) = lstrip_with p t.
Proof.
  induction s as [|c s IH]; simpl; [done|]. destruct (p c); [apply IH|done].
Qed.

Lemma rstrip_with_snoc p s c :
  p c = true -> rstrip_with p (s ++ [c]) = rstrip_with p s.
Proof.
  intros Hc. unfold rstrip_with. rewrite rev_app_distr. simpl.
  by rewrite Hc.
Qed.

Lemma strip_with_snoc p s c :
  p c = true -> strip_with p (s ++ [c]) = strip_with p s.
Proof.
  intros Hc. unfold strip_with.
  destruct (lstrip_with p s) as [|d r] eqn:E.
  - rewrite lstrip_with_app_empty by done. simpl. by rewrite Hc.
  - rewrite lstrip_with_app_nonempty by (by rewrite E).
    rewrite E. by apply rstrip_with_snoc.
Qed.

Lemma strip_line body : strip (body ++ [newline]) = strip body.
Proof. by apply strip_with_snoc. Qed.

Lemma char_in_false_not_elem (c : char) (s : str) :
  char_in c s = false <-> c ∉ s.
Proof.
  rewrite <- char_in_elem_of. destruct (char_in c s); split; congruence.
Qed.

(** X4.  Every identifier that [load_species_list] returns is non-empty,
    has no white space at either end, and holds no line break: blank
    lines and the white space around a name never reach the list. *)
Theorem load_species_list_identifiers (content : str) :
  Forall identifier (load_species_list content).
Proof.
  apply Forall_forall. intros name Hname. unfold load_species_list in Hname.
  apply list_elem_of_fmap in Hname as (line & -> & Hline).
  apply list_elem_of_In, filter_In in Hline as [Hline Htruthy].
  apply list_elem_of_In in Hline.
  destruct (file_lines_shape _ _ Hline) as (body & Hbody & Hshape & Hsub).
  repeat split.
  - intros E. by rewrite E in Htruthy.
  - apply strip_idem.
  - apply char_in_false_not_elem. intros Hc.
    apply char_in_false_not_elem in Hbody. apply Hbody.
    destruct Hshape as [->| ->]; [|rewrite strip_line in Hc];
      by apply elem_of_strip_with in Hc.
  - apply char_in_false_not_elem. intros Hc.
    apply elem_of_strip_with, Hsub in Hc.
    apply char_in_elem_of in Hc.
    unfold universal_newlines in Hc. by rewrite translate_from_no_cr in Hc.
Qed.

Lemma file_lines_line body rest :
  char_in newline body = false ->
  file_lines (body ++ newline :: rest) = (body ++ [newline]) :: file_lines rest.
Proof.
  induction body as [|c body IH]; cbn [char_in app].
  - intros _. rewrite file_lines_cons. unfold char_eqb.
    by rewrite N.eqb_refl.
  - intros [Hc Hb]%orb_false_elim. rewrite file_lines_cons, IH by done.
    unfold char_eqb in *. rewrite N.eqb_sym in Hc. by rewrite Hc.
Qed.

Lemma file_lines_last body :
  body <> [] -> char_in newline body = false -> file_lines body = [body].
Proof.
  induction body as [|c body IH]; [done|]. intros _. cbn [char_in].
  intros [Hc Hb]%orb_false_elim. rewrite file_lines_cons.
  unfold char_eqb in *. rewrite N.eqb_sym in Hc. rewrite Hc.
  destruct body as [|d body]; [done|]. by rewrite IH.
Qed.

Lemma join_no_cr names :
  Forall identifier names ->
  char_in carriage_return (join [newline] names) = false.
Proof.
  induction 1 as [|n names (_ & _ & _ & Hcr) _ IH]; [done|].
  cbn [join]. destruct names as [|n' names]; [done|].
  rewrite !char_in_app, Hcr, IH. done.
Qed.

(** X5.  Written one per line, a list of identifiers loads back as
    itself: [load_species_list] loses nothing of a well-formed list and
    adds nothing to it. *)
Theorem load_species_list_round_trip (names : list str) :
  Forall identifier names ->
  load_species_list (join [newline] names) = names.
Proof.
  intros Hnames. unfold load_species_list, universal_newlines.
  rewrite translate_from_id by (by apply join_no_cr).
  induction Hnames as [|n names (Hne & Htrim & Hnl & Hcr) Hnames IH]; [done|].
  assert (Htruthy : truthy n = true) by (by destruct n).
  cbn [join]. destruct names as [|n' names].
  - rewrite file_lines_last by done.
    cbn [List.filter map]. rewrite Htrim, Htruthy. cbn [map].
    by rewrite Htrim.
  - cbn [app]. rewrite file_lines_line by done.
    cbn [List.filter map]. rewrite strip_line, Htrim, Htruthy.
    cbn [map]. rewrite strip_line, Htrim. f_equal. apply IH.
Qed.

Lemma load_species_list_round_trip_witness :
  load_species_list
    (join [newline] [u "Panthera leo"; u "Canis lupus familiaris"])
  = [u "Panthera leo"; u "Canis lupus familiaris"].
Proof.
  apply load_species_list_round_trip.
  repeat constructor; vm_compute; congruence.
Defined.

(** ** More on the completion client *)

Section ClientBounds.
Variable service : request -> nat -> reply.
Variables (r : request) (language : str) (max_retries : Z).

Lemma attempts_bounds n : forall a : nat,
  (calls (snd (attempts service r language max_retries
                        (map Z.of_nat (seq a n)))) <= n)%nat
  /\ ((0 < n)%nat ->
      (1 <= calls (snd (attempts service r language max_retries
                                 (map Z.of_nat (seq a n)))))%nat)
  /\ 0 <= slept (snd (attempts service r language max_retries
                               (map Z.of_nat (seq a n))))
     <= 5 * ((Z.of_nat a + Z.of_nat n) * (Z.of_nat a + Z.of_nat n + 1)
             - Z.of_nat a * (Z.of_nat a + 1)).
Proof.
  induction n as [|n IH]; intros a; [simpl; lia|].
  cbn [seq map attempts].
  destruct (service r (Z.to_nat (Z.of_nat a))) as [field| |msg];
    [simpl; nia..|].
  destruct (is_rate_limit msg); [|simpl; nia].
  destruct (Z.of_nat a =? max_retries - 1); [simpl; nia|].
  destruct (IH (S a)) as (Hc & _ & Hs).
  destruct (attempts service r language max_retries _) as [res log].
  simpl in *. nia.
Qed.

Lemma attempts_provenance todo :
  (fst (attempts service r language max_retries todo) = sentinel
   \/ exists attempt field,
       attempt ∈ todo
       /\ service r (Z.to_nat attempt) = Parsed field
       /\ fst (attempts service r language max_retries todo)
          = clean_common_name field language)
  /\ Forall (fun e => forall r', e = Call r' -> r' = r)
            (snd (attempts service r language max_retries todo)).
Proof.
  induction todo as [|attempt todo [IHres IHlog]]; [by split; [left|]|].
  cbn [attempts].
  destruct (service r (Z.to_nat attempt)) as [field| |msg] eqn:E.
  - split; [|repeat constructor; congruence].
    right. exists attempt, field. repeat split; [by left|done].
  - split; [|repeat constructor; congruence].
    left. apply clean_common_name_sentinel.
  - destruct (is_rate_limit msg); [|split; [by left|repeat constructor; congruence]].
    destruct (attempt =? max_retries - 1);
      [split; [by left|repeat constructor; congruence]|].
    destruct (attempts service r language max_retries todo) as [res log].
    simpl in *. split.
    + destruct IHres as [->|(k & field & Hk & Hreply & ->)]; [by left|].
      right. exists k, field. repeat split; [by right|done].
    + repeat constructor; [congruence..|done].
Qed.
End ClientBounds.

(** X6.  Whatever the service answers, [get_common_name] calls it at most
    [max_retries] times and sleeps at most [5 * max_retries *
    (max_retries + 1)] seconds in all; with a positive [max_retries] it
    calls at least once, and with [max_retries] zero or negative it
    returns the sentinel without any call. *)
Theorem get_common_name_bounded
        (service : request -> nat -> reply)
        (species prompt_template model language : str) (max_retries : Z) :
  Z.of_nat (calls (snd (get_common_name service species prompt_template
                                        model language max_retries)))
  <= Z.max 0 max_retries
  /\ 0 <= slept (snd (get_common_name service species prompt_template
                                      model language max_retries))
     <= 5 * Z.max 0 max_retries * (Z.max 0 max_retries + 1)
  /\ (0 < max_retries ->
      (1 <= calls (snd (get_common_name service species prompt_template
                                        model language max_retries)))%nat)
  /\ (max_retries <= 0 ->
      get_common_name service species prompt_template model language
                      max_retries
      = (sentinel, [])).
Proof.
  rewrite get_common_name_attempts. unfold range.
  destruct (attempts_bounds
              service
              (request_for species prompt_template model language)
              language max_retries (Z.to_nat max_retries) 0)
    as (Hc & Hone & Hs).
  split; [lia|]. split.
  - destruct (Z.le_gt_cases 0 max_retries).
    + rewrite Z.max_r by done. rewrite Z2Nat.id in Hs by done.
      split; [lia|]. etransitivity; [apply Hs|]. apply Z.eq_le_incl. ring.
    + rewrite Z.max_l by lia.
      replace (Z.to_nat max_retries) with 0%nat by lia.
      simpl. lia.
  - split.
    + intros H. apply Hone. lia.
    + intros H. by replace (Z.to_nat max_retries) with 0%nat by lia.
Qed.

Lemma get_common_name_bounded_witness :
  (1 <= calls (snd (get_common_name echo_service (u "Lynx lynx")
                                    (u "[species]?") default_model (u "en")
                                    default_max_retries)))%nat
  /\ get_common_name echo_service (u "Lynx lynx") (u "[species]?")
                     default_model (u "en") 0
     = (sentinel, []).
Proof.
  split.
  - apply (get_common_name_bounded echo_service (u "Lynx lynx")
             (u "[species]?") default_model (u "en") default_max_retries).
    reflexivity.
  - apply (get_common_name_bounded echo_service (u "Lynx lynx")
             (u "[species]?") default_model (u "en") 0).
    lia.
Defined.

(** X7.  The label that [get_common_name] returns is the sentinel or the
    normalized form of a field that the service returned on one of the
    attempts; it has no white space at either end and no line feed
    (U+000A) inside, while a carriage return inside it may remain; and
    every call of the invocation carries the same request. *)
Theorem get_common_name_label
        (service : request -> nat -> reply)
        (species prompt_template model language : str) (max_retries : Z) :
  (fst (get_common_name service species prompt_template model language
                        max_retries) = sentinel
   \/ exists (k : nat) field,
       Z.of_nat k < max_retries
       /\ service (request_for species prompt_template model language) k
          = Parsed field
       /\ fst (get_common_name service species prompt_template model
                               language max_retries)
          = clean_common_name field language)
  /\ strip (fst (get_common_name service species prompt_template model
                                 language max_retries))
     = fst (get_common_name service species prompt_template model language
                            max_retries)
  /\ char_in newline
             (fst (get_common_name service species prompt_template model
                                   language max_retries)) = false
  /\ Forall (fun e =>
               forall r', e = Call r' ->
                          r' = request_for species prompt_template model
                                           language)
            (snd (get_common_name service species prompt_template model
                                  language max_retries)).
Proof.
  rewrite get_common_name_attempts.
  destruct (attempts_provenance
              service
              (request_for species prompt_template model language)
              language max_retries (range max_retries))
    as [Hres Hlog].
  assert (Hfrom :
            fst (attempts service
                          (request_for species prompt_template model
                                       language)
                          language max_retries (range max_retries))
            = sentinel
            \/ exists (k : nat) field,
                Z.of_nat k < max_retries
                /\ service (request_for species prompt_template model
                                        language) k = Parsed field
                /\ fst (attempts service
                                 (request_for species prompt_template model
                                              language)
                                 language max_retries (range max_retries))
                   = clean_common_name field language).
  { destruct Hres as [?|(attempt & field & Hin & Hreply & Heq)]; [by left|].
    right. unfold range in Hin.
    apply list_elem_of_fmap in Hin as (k & -> & Hk).
    apply elem_of_seq in Hk. rewrite Nat2Z.id in Hreply.
    exists k, field. repeat split; [lia|done..]. }
  repeat split; [done| | |done].
  - destruct Hfrom as [->|(k & field & _ & _ & ->)]; [done|].
    rewrite clean_common_name_steps. unfold normalize. apply strip_idem.
  - destruct Hfrom as [->|(k & field & _ & _ & ->)]; [done|].
    rewrite clean_common_name_steps. apply normalize_no_newline.
Qed.

(** ** The prompt and the classification of errors *)

Lemma replace_from_absent old new s :
  contains old s = false -> replace_from old new s 0 = s.
Proof.
  induction s as [|c s IH]; [done|].
  cbn [contains replace_from]. intros [Hhere Hlater]%orb_false_elim.
  rewrite Hhere. f_equal. by apply IH.
Qed.

Lemma replace_from_skip old new w : forall s,
  replace_from old new (w ++ s) (length w) = replace_from old new s 0.
Proof. induction w as [|c w IH]; intros s; [done|]. simpl. apply IH. Qed.

Lemma starts_with_app w s : starts_with w (w ++ s) = true.
Proof.
  induction w as [|c w IH]; [done|]. simpl. unfold char_eqb.
  by rewrite N.eqb_refl.
Qed.

Lemma replace_first o old new a b :
  char_in o a = false ->
  replace (o :: old) new (a ++ (o :: old) ++ b)
  = a ++ new ++ replace (o :: old) new b.
Proof.
  unfold replace. induction a as [|c a IH]; cbn [char_in app].
  - intros _. cbn [replace_from].
    change (o :: old ++ b) with ((o :: old) ++ b).
    rewrite starts_with_app.
    replace (length (o :: old) - 1)%nat with (length old) by (simpl; lia).
    by rewrite replace_from_skip.
  - intros [Hc Ha]%orb_false_elim. cbn [replace_from starts_with].
    unfold char_eqb in *. rewrite N.eqb_sym in Hc. rewrite Hc. simpl.
    f_equal. by apply IH.
Qed.

(** X8.  A template without the placeholder [[species]] is sent as it
    is: the request, and with it the whole result of [get_common_name],
    is the same for every species. *)
Theorem get_common_name_without_placeholder
        (service : request -> nat -> reply)
        (species1 species2 prompt_template model language : str)
        (max_retries : Z) :
  contains (u "[species]") prompt_template = false ->
  req_prompt (request_for species1 prompt_template model language)
  = prompt_template
  /\ get_common_name service species1 prompt_template model language
                     max_retries
     = get_common_name service species2 prompt_template model language
                       max_retries.
Proof.
  intros H. rewrite !get_common_name_attempts. unfold request_for, replace.
  by rewrite !replace_from_absent.
Qed.

Lemma get_common_name_without_placeholder_witness :
  get_common_name echo_service (u "Panthera leo") (u "Name this animal.")
                  default_model (u "en") default_max_retries
  = get_common_name echo_service (u "Canis lupus") (u "Name this animal.")
                    default_model (u "en") default_max_retries.
Proof.
  apply (get_common_name_without_placeholder
           echo_service (u "Panthera leo") (u "Canis lupus")
           (u "Name this animal.") default_model (u "en")
           default_max_retries).
  reflexivity.
Defined.

(** X9.  In the prompt the first placeholder of the template gives way to
    the species, the text before it is kept, and the substitution goes on
    in the text after it only: the species itself is not searched for
    placeholders. *)
Theorem prompt_substitutes_placeholder
        (species before after model language : str) :
  char_in 0x5B%N before = false ->
  req_prompt (request_for species (before ++ u "[species]" ++ after)
                          model language)
  = before ++ species
      ++ req_prompt (request_for species after model language).
Proof. intros H. cbn [request_for req_prompt]. by apply replace_first. Qed.

Lemma prompt_substitutes_placeholder_witness :
  req_prompt (request_for (u "the [species]")
                          (u "Name " ++ u "[species]" ++ u " and [species].")
                          default_model (u "en"))
  = u "Name the [species] and the [species].".
Proof.
  apply (prompt_substitutes_placeholder
           (u "the [species]") (u "Name ") (u " and [species].")
           default_model (u "en")).
  reflexivity.
Defined.

Lemma contains_app sub a b : contains sub (a ++ sub ++ b) = true.
Proof.
  induction a as [|c a IH].
  - simpl app. destruct (sub ++ b) eqn:E; simpl;
      rewrite <- E, starts_with_app; done.
  - cbn [app contains]. rewrite IH. apply orb_true_r.
Qed.

Lemma lower_app a b : lower (a ++ b) = lower a ++ lower b.
Proof. unfold lower. by rewrite map_app, concat_app. Qed.

(** X10.  An error message is classified as rate-limit as soon as [429]
    occurs anywhere in it, also inside a longer number or word, or
    [rate_limit] occurs anywhere in it in any mix of upper and lower
    case. *)
Theorem is_rate_limit_anywhere (before marker after : str) :
  marker = u "429" \/ lower marker = u "rate_limit" ->
  is_rate_limit (before ++ marker ++ after) = true.
Proof.
  unfold is_rate_limit. intros [->|H].
  - by rewrite contains_app.
  - rewrite !lower_app, H, contains_app. apply orb_true_r.
Qed.

Lemma is_rate_limit_anywhere_witness :
  is_rate_limit (u "request id 14290 failed") = true
  /\ is_rate_limit (u "code: Rate_Limit_Exceeded") = true.
Proof.
  split.
  - apply (is_rate_limit_anywhere (u "request id 1") (u "429")
                                  (u "0 failed")).
    by left.
  - apply (is_rate_limit_anywhere (u "code: ") (u "Rate_Limit")
                                  (u "_Exceeded")).
    by right.
Defined.

(** ** The scheduler under arbitrary finishing orders *)

(** When [gather] returns, it returns the results in the order of the
    awaitables, whatever the order of finishing. *)
Lemma gather_Some {A} (finishing : list nat) (aws results : list A) :
  gather finishing aws = Some results -> results = aws.
Proof.
  unfold gather. intros H.
  destruct (gather_slots aws finishing (replicate (length aws) None))
    as [Hlen Hj]; [by rewrite length_replicate|].
  apply mapM_Some in H.
  apply list_eq. intros j.
  destruct (aws !! j) as [x|] eqn:E.
  - apply lookup_lt_Some in E as Hlt.
    destruct (lookup_lt_is_Some_2
                (foldl (fun slots i =>
                          match aws !! i with
                          | Some result => <[i := Some result]> slots
                          | None => slots
                          end)
                       (replicate (length aws) None) finishing) j)
      as [slot Hslot]; [lia|].
    destruct (Forall2_lookup_l _ _ _ j slot H Hslot) as (y & Hy & Hsy).
    rewrite Hj in Hslot. rewrite Hy.
    destruct (decide _) in Hslot.
    + rewrite E in Hslot. by simplify_eq.
    + rewrite lookup_replicate_2 in Hslot by done. by simplify_eq.
  - apply lookup_ge_None in E. apply lookup_ge_None.
    apply Forall2_length in H. lia.
Qed.

(** The awaiting call does not return when a task never finishes. *)
Lemma gather_None {A} (finishing : list nat) (aws : list A) (k : nat) :
  (k < length aws)%nat -> k ∉ finishing -> gather finishing aws = None.
Proof.
  intros Hk Hnot. unfold gather.
  destruct (gather_slots aws finishing (replicate (length aws) None))
    as [Hlen Hj]; [by rewrite length_replicate|].
  apply mapM_None, Exists_exists. exists None. split; [|done].
  apply list_elem_of_lookup. exists k. rewrite Hj.
  rewrite decide_False by (by intros [? _]).
  by apply lookup_replicate_2.
Qed.

Section AnyFinishing.
Variables (finishing : Z -> list nat) (tasks : list (Z * row)).
Variables (batch_size first : Z).
Hypothesis batch_size_pos : 0 < batch_size.
Hypothesis tasks_numbered : numbered first (map snd tasks).

Lemma batches_any m : forall a,
  (forall k, (a <= k < a + m)%nat ->
             (k * Z.to_nat batch_size < length tasks)%nat) ->
  (snd (batches finishing tasks batch_size (offsets_from batch_size a m))
   = Returned
   /\ written (fst (batches finishing tasks batch_size
                            (offsets_from batch_size a m)))
      = take (m * Z.to_nat batch_size)
             (drop (a * Z.to_nat batch_size) (map snd tasks)))
  \/ (snd (batches finishing tasks batch_size (offsets_from batch_size a m))
      = Pending
      /\ exists j, (j < m)%nat
         /\ written (fst (batches finishing tasks batch_size
                                  (offsets_from batch_size a m)))
            = take (j * Z.to_nat batch_size)
                   (drop (a * Z.to_nat batch_size) (map snd tasks))).
Proof.
  induction m as [|m IH]; intros a Hvalid; [by left|].
  unfold offsets_from in *. cbn [seq map batches].
  rewrite slice_batch by done.
  set (batch := take (Z.to_nat batch_size)
                     (drop (a * Z.to_nat batch_size) (map snd tasks))).
  assert (Hstep : forall n,
             batch ++ take (n * Z.to_nat batch_size)
                           (drop (S a * Z.to_nat batch_size)
                                 (map snd tasks))
             = take (S n * Z.to_nat batch_size)
                    (drop (a * Z.to_nat batch_size) (map snd tasks))).
  { intros n. unfold batch.
    replace (S a * Z.to_nat batch_size)%nat
      with (a * Z.to_nat batch_size + Z.to_nat batch_size)%nat by lia.
    rewrite <- drop_drop, take_take_drop. f_equal. }
  destruct (gather (finishing (Z.of_nat a * batch_size)) batch)
    as [batch_results|] eqn:E.
  - apply gather_Some in E as ->.
    rewrite (merge_sort_numbered
               (first + Z.of_nat (a * Z.to_nat batch_size)) batch)
      by (by apply numbered_take, numbered_drop).
    specialize (IH (S a) ltac:(intros; apply Hvalid; lia)).
    destruct (batches finishing tasks batch_size _) as [later out].
    cbn [fst snd] in *.
    assert (Hw : written
                   (omap (fun k => Done <$> batch !! k)
                         (finishing (Z.of_nat a * batch_size))
                    ++ (map (fun r => WriteLine (RowLine r)) batch
                          ++ [Flush])
                    ++ (if Z.of_nat a * batch_size + batch_size
                           <? Z.of_nat (length tasks)
                        then [Pause 2] else [])
                    ++ later)
                 = batch ++ written later).
    { rewrite !written_app, written_dones, written_writes.
      destruct (_ <? _); simpl; by rewrite app_nil_r. }
    rewrite Hw.
    destruct IH as [[-> ->]|(-> & j & Hj & ->)].
    + left. by rewrite Hstep.
    + right. split; [done|]. exists (S j). split; [lia|apply Hstep].
  - right. cbn [fst snd]. split; [done|]. exists 0%nat.
    split; [lia|]. by rewrite written_dones.
Qed.
End AnyFinishing.

Lemma batches_outcome finishing tasks batch_size offsets :
  snd (batches finishing tasks batch_size offsets) = Returned
  \/ snd (batches finishing tasks batch_size offsets) = Pending.
Proof.
  induction offsets as [|i offsets IH]; [by left|]. cbn [batches].
  destruct (gather _ _); [|by right].
  by destruct (batches finishing tasks batch_size offsets).
Qed.

Section AnyRun.
Variable service : request -> nat -> reply.
Variables (species_list : list str) (en_prompt_template ja_prompt_template : str).

Lemma process_and_save_batch_unfold finishing start_line end_line mode
      batch_size :
  1 <= start_line -> end_line <= Z.of_nat (length species_list) ->
  0 < batch_size ->
  exists tasks m,
    map snd tasks
    = rows_for service en_prompt_template ja_prompt_template species_list
               start_line end_line
    /\ numbered start_line (map snd tasks)
    /\ (forall k, (0 <= k < 0 + m)%nat ->
                  (k * Z.to_nat batch_size < length tasks)%nat)
    /\ (length tasks <= m * Z.to_nat batch_size)%nat
    /\ process_and_save_batch service finishing species_list start_line
                              end_line en_prompt_template ja_prompt_template
                              mode batch_size
       = let '(acts, out) :=
           batches finishing tasks batch_size (offsets_from batch_size 0 m)
         in
         match out with
         | Pending => (Open mode :: header_of mode ++ acts, Pending)
         | _ => (Open mode :: header_of mode ++ acts ++ [Close], out)
         end.
Proof.
  intros Hstart Hend Hb.
  set (n := Z.to_nat (end_line - (start_line - 1))).
  destruct (tasks_build service species_list en_prompt_template
                        ja_prompt_template n (Z.to_nat (start_line - 1)))
    as (tasks & Hbuild & Hrows & Hnum & Hlen); [unfold n; lia|].
  destruct (range3_offsets (Z.of_nat (length tasks)) batch_size)
    as (Hrange & Hvalid & Hcover); [lia..|].
  set (m := Z.to_nat ((Z.of_nat (length tasks) + batch_size - 1)
                      / batch_size)) in *.
  rewrite Nat2Z.id in Hvalid, Hcover.
  exists tasks, m. repeat split.
  - rewrite Hrows. unfold rows_for, ordinals, range2. f_equal.
    replace (Z.to_nat (end_line + 1 - start_line)) with n by (unfold n; lia).
    apply map_ext. intros. lia.
  - replace start_line with (Z.of_nat (Z.to_nat (start_line - 1)) + 1) at 1
      by lia.
    done.
  - intros k Hk. apply Hvalid. lia.
  - done.
  - unfold process_and_save_batch, range2. fold n.
    erewrite (map_ext (fun k => start_line - 1 + Z.of_nat k)) by
      (intros k; rewrite <- (Z2Nat.id (start_line - 1)) by lia; reflexivity).
    cbv zeta in Hbuild |- *. rewrite Hbuild, Hrange.
    destruct (batches finishing tasks batch_size _) as [acts out].
    by destruct out, mode.
Qed.
End AnyRun.

(** X11.  Whatever the positive batch size and the order in which tasks
    finish or fail to finish, a run over a range within the identifier
    list that returns has written the rows of the whole range, and a run
    left waiting has written the rows of a whole number of batches from
    the start of the range, and not all of them. *)
Theorem process_and_save_batch_writes_whole_batches
        (service : request -> nat -> reply) (finishing : Z -> list nat)
        (species_list : list str) (start_line end_line : Z)
        (en_prompt_template ja_prompt_template : str)
        (mode : file_mode) (batch_size : Z) :
  1 <= start_line -> end_line <= Z.of_nat (length species_list) ->
  0 < batch_size ->
  (snd (process_and_save_batch service finishing species_list start_line
          end_line en_prompt_template ja_prompt_template mode batch_size)
   = Returned
   /\ written
        (fst (process_and_save_batch service finishing species_list
                start_line end_line en_prompt_template ja_prompt_template
                mode batch_size))
      = rows_for service en_prompt_template ja_prompt_template species_list
                 start_line end_line)
  \/ (snd (process_and_save_batch service finishing species_list start_line
             end_line en_prompt_template ja_prompt_template mode batch_size)
      = Pending
      /\ exists j : nat,
          (j * Z.to_nat batch_size
           < length (rows_for service en_prompt_template ja_prompt_template
                              species_list start_line end_line))%nat
          /\ written
               (fst (process_and_save_batch service finishing species_list
                       start_line end_line en_prompt_template
                       ja_prompt_template mode batch_size))
             = take (j * Z.to_nat batch_size)
                    (rows_for service en_prompt_template ja_prompt_template
                              species_list start_line end_line)).
Proof.
  intros Hstart Hend Hb.
  destruct (process_and_save_batch_unfold
              service species_list en_prompt_template ja_prompt_template
              finishing start_line end_line mode batch_size)
    as (tasks & m & Hrows & Hnum & Hvalid & Hcover & ->); [done..|].
  rewrite <- Hrows.
  destruct (batches_any finishing tasks batch_size start_line Hb Hnum m
                        0%nat Hvalid) as [[Hout Hw]|(Hout & j & Hj & Hw)];
    destruct (batches finishing tasks batch_size _) as [acts out];
    cbn [fst snd] in *; subst out.
  - left. split; [done|]. cbn [fst].
    change (Open mode :: ?l) with ([Open mode] ++ l).
    rewrite !written_app, written_header, Hw. simpl.
    rewrite app_nil_r, drop_0, take_ge; [done|]. rewrite length_map. lia.
  - right. split; [done|]. exists j. cbn [fst]. split.
    + rewrite length_map. specialize (Hvalid j). lia.
    + change (Open mode :: ?l) with ([Open mode] ++ l).
      rewrite !written_app, written_header, Hw. simpl. by rewrite drop_0.
Qed.

Lemma process_and_save_batch_writes_whole_batches_witness :
  snd (process_and_save_batch echo_service
         (fun i => if i =? 0 then [1; 0]%nat else [0%nat]) five_species 1 5
         (u "en [species]") (u "ja [species]") ModeW 2) = Pending
  /\ map number
         (written
            (fst (process_and_save_batch echo_service
                    (fun i => if i =? 0 then [1; 0]%nat else [0%nat])
                    five_species 1 5 (u "en [species]") (u "ja [species]")
                    ModeW 2)))
     = [1; 2].
Proof.
  destruct (process_and_save_batch_writes_whole_batches
              echo_service
              (fun i => if i =? 0 then [1; 0]%nat else [0%nat])
              five_species 1 5 (u "en [species]") (u "ja [species]")
              ModeW 2)
    as [[Hout _]|(Hout & j & _ & Hw)]; [lia|simpl; lia|lia| |].
  - vm_compute in Hout. discriminate Hout.
  - split; [exact Hout|]. vm_compute. reflexivity.
Defined.

(** X12.  Whatever its arguments, [process_and_save_batch] either raises
    [IndexError] before it opens the file, which it then leaves as it
    was, or ends, or is left waiting, with every line that it wrote on
    disk and none buffered: the file then holds the header or, when
    appending, what it held before, followed by the rows written. *)
Theorem process_and_save_batch_leaves_nothing_buffered
        (service : request -> nat -> reply)
        (spill : list csv_line -> nat) (finishing : Z -> list nat)
        (species_list : list str) (start_line end_line : Z)
        (en_prompt_template ja_prompt_template : str)
        (mode : file_mode) (batch_size : Z)
        (old : option (list csv_line)) :
  process_and_save_batch service finishing species_list start_line end_line
                         en_prompt_template ja_prompt_template mode
                         batch_size
  = ([], IndexError)
  \/ (snd (process_and_save_batch service finishing species_list start_line
             end_line en_prompt_template ja_prompt_template mode batch_size)
      <> IndexError
      /\ run spill (closed old)
             (fst (process_and_save_batch service finishing species_list
                     start_line end_line en_prompt_template
                     ja_prompt_template mode batch_size))
         = closed
             (Some (opened mode old
                      ++ map RowLine
                           (written
                              (fst (process_and_save_batch
                                      service finishing species_list
                                      start_line end_line en_prompt_template
                                      ja_prompt_template mode
                                      batch_size)))))).
Proof.
  unfold process_and_save_batch.
  destruct (mapM _ _) as [tasks|]; [right|by left].
  fold (header_of mode).
  destruct (range3 _ _) as [offsets|].
  2:{ split; [done|]. cbn [fst].
      change (Open mode :: header_of mode ++ [Close])
        with ((Open mode :: header_of mode) ++ [Close]).
      rewrite run_app, run_open_header, run_close.
      by destruct mode; simpl; rewrite ?app_nil_r. }
  pose proof (batches_store spill finishing tasks batch_size offsets
                (closed (Some (opened mode old))) eq_refl) as Hrun.
  pose proof (batches_outcome finishing tasks batch_size offsets) as Hout.
  destruct (batches finishing tasks batch_size offsets) as [acts out].
  cbn [fst snd] in Hrun, Hout.
  assert (Hw : forall tail,
             written tail = [] ->
             written (Open mode :: header_of mode ++ acts ++ tail)
             = written acts).
  { intros tail Htail. change (Open mode :: ?l) with ([Open mode] ++ l).
    rewrite !written_app, written_header, Htail. simpl.
    by rewrite app_nil_r. }
  assert (Hr : forall tail,
             tail = [] \/ tail = [Close] ->
             run spill (closed old) (Open mode :: header_of mode ++ acts ++ tail)
             = closed (Some (opened mode old ++ map RowLine (written acts)))).
  { intros tail Htail.
    change (Open mode :: header_of mode ++ acts ++ tail)
      with ((Open mode :: header_of mode) ++ acts ++ tail).
    rewrite run_app, run_open_header, run_app, Hrun.
    destruct Htail as [->| ->]; simpl; [done|].
    unfold closed. by rewrite app_nil_r. }
  destruct Hout as [-> | ->]; cbn [fst snd]; (split; [done|]).
  - by rewrite (Hw [Close]), (Hr [Close]) by (done || by right).
  - pose proof (Hw [] eq_refl) as Hw0.
    pose proof (Hr [] (or_introl eq_refl)) as Hr0.
    rewrite app_nil_r in Hw0, Hr0. by rewrite Hw0, Hr0.
Qed.

(** ** The pauses between the batches *)

Lemma pauses_app acts1 acts2 :
  pauses (acts1 ++ acts2) = pauses acts1 ++ pauses acts2.
Proof. apply omap_app. Qed.

Lemma pauses_block finished batch more :
  pauses (block finished batch more) = if more then [2] else [].
Proof.
  unfold block. rewrite !pauses_app.
  assert (H1 : pauses (omap (fun k => Done <$> batch !! k) finished) = []).
  { unfold pauses. induction finished as [|k l IH]; [done|]. simpl.
    destruct (batch !! k); simpl; auto. }
  assert (H2 : forall rows : list row,
             pauses (map (fun r => WriteLine (RowLine r)) rows) = []).
  { unfold pauses. induction rows as [|r l IH]; [done|]. apply IH. }
  rewrite H1, H2. by destruct more.
Qed.

Lemma batches_pauses finishing tasks batch_size first :
  0 < batch_size ->
  numbered first (map snd tasks) ->
  every_task_finishes finishing (Z.of_nat (length tasks)) batch_size ->
  forall m a,
    (forall k, (a <= k < a + m)%nat ->
               (k * Z.to_nat batch_size < length tasks)%nat) ->
    (length tasks <= (a + m) * Z.to_nat batch_size)%nat ->
    pauses (fst (batches finishing tasks batch_size
                         (offsets_from batch_size a m)))
    = replicate (m - 1) 2.
Proof.
  intros Hb Hnum Hfin. induction m as [|m IH]; intros a Hvalid Hcover.
  { done. }
  unfold offsets_from in *. cbn [seq map].
  rewrite (batches_cons finishing tasks batch_size first) by
    (done || (apply Hvalid; lia)).
  specialize (IH (S a) ltac:(intros; apply Hvalid; lia) ltac:(lia)).
  destruct (batches finishing tasks batch_size _) as [later out].
  cbn [fst] in *. rewrite pauses_app, pauses_block, IH.
  destruct m as [|m].
  - destruct (Z.ltb_spec (Z.of_nat a * batch_size + batch_size)
                         (Z.of_nat (length tasks))); [lia|done].
  - pose proof (Hvalid (S a) ltac:(lia)).
    destruct (Z.ltb_spec (Z.of_nat a * batch_size + batch_size)
                         (Z.of_nat (length tasks))); [|lia].
    simpl. by rewrite Nat.sub_0_r.
Qed.

Lemma batch_count (n m : nat) (batch_size : Z) :
  0 < batch_size ->
  (forall k, (0 <= k < 0 + m)%nat -> (k * Z.to_nat batch_size < n)%nat) ->
  (n <= m * Z.to_nat batch_size)%nat ->
  Z.of_nat m = (Z.of_nat n + batch_size - 1) / batch_size.
Proof.
  intros Hb Hvalid Hcover.
  apply (Z.div_unique _ _ _
           (Z.of_nat n + batch_size - 1 - batch_size * Z.of_nat m)); [|lia].
  left. destruct m as [|m]; [nia|].
  specialize (Hvalid m ltac:(lia)). nia.
Qed.


Lemma steps_app acts1 acts2 : steps (acts1 ++ acts2) = steps acts1 ++ steps acts2.
Proof. apply List.filter_app. Qed.

Lemma steps_block finished batch more :
  steps (block finished batch more)
  = map (fun r => WriteLine (RowLine r)) batch ++ [Flush]
    ++ (if more then [Pause 2] else []).
Proof.
  unfold block. rewrite !steps_app.
  assert (H1 : steps (omap (fun k => Done <$> batch !! k) finished) = []).
  { unfold steps. induction finished as [|k l IH]; [done|]. simpl.
    destruct (batch !! k); simpl; auto. }
  assert (H2 : forall rows : list row,
             steps (map (fun r => WriteLine (RowLine r)) rows)
             = map (fun r => WriteLine (RowLine r)) rows).
  { unfold steps. induction rows as [|r l IH]; [done|]. simpl. by rewrite IH. }
  rewrite H1, H2. by destruct more.
Qed.

Lemma batches_steps finishing tasks batch_size first :
  0 < batch_size ->
  numbered first (map snd tasks) ->
  every_task_finishes finishing (Z.of_nat (length tasks)) batch_size ->
  forall m a,
    (forall k, (a <= k < a + m)%nat ->
               (k * Z.to_nat batch_size < length tasks)%nat) ->
    steps (fst (batches finishing tasks batch_size
                        (offsets_from batch_size a m)))
    = batch_steps (map snd tasks) (Z.to_nat batch_size) a m.
Proof.
  intros Hb Hnum Hfin. induction m as [|m IH]; intros a Hvalid.
  { done. }
  unfold offsets_from in *. cbn [seq map batch_steps].
  rewrite (batches_cons finishing tasks batch_size first) by
    (done || (apply Hvalid; lia)).
  specialize (IH (S a) ltac:(intros; apply Hvalid; lia)).
  destruct (batches finishing tasks batch_size _) as [later out].
  cbn [fst] in *. rewrite steps_app, steps_block, IH.
  rewrite <- !app_assoc. do 3 f_equal.
  rewrite length_map.
  destruct (Z.ltb_spec (Z.of_nat a * batch_size + batch_size)
                       (Z.of_nat (length tasks))).
  - rewrite bool_decide_eq_true_2 by lia. done.
  - rewrite bool_decide_eq_false_2 by lia. done.
Qed.

(** X13.  In a run over a range within the identifier list, with a
    positive batch size and every task finishing, the scheduler pauses 2
    seconds between two batches and at no other time.  Leaving the
    completions of the tasks aside, what it does is, in this order: open
    the file; write and flush the header when creating; then for each
    batch write its rows, flush, and pause 2 seconds exactly when rows
    remain for a later batch; and close the file.  So every pause stands
    right after the flush of a batch and before the first row of the
    next, there is one pause less than there are batches, and none after
    the last batch. *)
Theorem process_and_save_batch_pauses
        (service : request -> nat -> reply) (finishing : Z -> list nat)
        (species_list : list str) (start_line end_line : Z)
        (en_prompt_template ja_prompt_template : str)
        (mode : file_mode) (batch_size : Z) :
  1 <= start_line -> end_line <= Z.of_nat (length species_list) ->
  0 < batch_size ->
  every_task_finishes finishing (end_line - start_line + 1) batch_size ->
  steps (fst (process_and_save_batch service finishing species_list
                start_line end_line en_prompt_template ja_prompt_template
                mode batch_size))
  = Open mode
      :: header_of mode
      ++ batch_steps
           (rows_for service en_prompt_template ja_prompt_template
                     species_list start_line end_line)
           (Z.to_nat batch_size) 0
           (Z.to_nat ((Z.max 0 (end_line - start_line + 1) + batch_size - 1)
                      / batch_size))
      ++ [Close]
  /\ pauses (fst (process_and_save_batch service finishing species_list
                    start_line end_line en_prompt_template
                    ja_prompt_template mode batch_size))
     = replicate
         (Z.to_nat ((Z.max 0 (end_line - start_line + 1) + batch_size - 1)
                    / batch_size) - 1)
         2.
Proof.
  intros Hstart Hend Hb Hfin.
  destruct (process_and_save_batch_valid
              service species_list en_prompt_template ja_prompt_template
              finishing start_line end_line mode batch_size)
    as (tasks & m & Hrows & Hnum & Hlen & Hfin' & Hvalid & Hcover & ->);
    [done..|].
  cbn [fst].
  pose proof (batch_count (length tasks) m batch_size Hb Hvalid Hcover) as Hm.
  replace (Z.max 0 (end_line - start_line + 1))
    with (Z.of_nat (length tasks)) by lia.
  rewrite <- Hm, Nat2Z.id, <- Hrows. split.
  - change (Open mode :: ?l) with ([Open mode] ++ l).
    rewrite !steps_app.
    rewrite (batches_steps finishing tasks batch_size start_line)
      by (done || lia).
    by destruct mode.
  - change (Open mode :: ?l) with ([Open mode] ++ l).
    rewrite !pauses_app.
    rewrite (batches_pauses finishing tasks batch_size start_line)
      by (done || lia).
    destruct mode; simpl; by rewrite app_nil_r.
Qed.

Lemma process_and_save_batch_pauses_witness :
  steps (fst (process_and_save_batch echo_service second_first five_species
                2 5 (u "en [species]") (u "ja [species]") ModeW 2))
  = [Open ModeW; WriteLine (HeaderLine fieldnames); Flush]
    ++ batch_steps
         (rows_for echo_service (u "en [species]") (u "ja [species]")
                   five_species 2 5)
         2 0 2
    ++ [Close]
  /\ pauses (fst (process_and_save_batch echo_service second_first
                    five_species 2 5 (u "en [species]") (u "ja [species]")
                    ModeW 2))
     = [2].
Proof.
  apply (process_and_save_batch_pauses
           echo_service second_first five_species 2 5
           (u "en [species]") (u "ja [species]") ModeW 2).
  - lia.
  - simpl. lia.
  - lia.
  - apply second_first_finishes. reflexivity.
Defined.

(** ** Runs of [main_async] *)

Section MainRuns.
Variable service : request -> nat -> reply.
Variables (en_prompt_template ja_prompt_template : str).
Variable species_list : list str.

Lemma rows_for_single k species :
  species_list !! Z.to_nat (k - 1) = Some species ->
  rows_for service en_prompt_template ja_prompt_template species_list k k
  = [process_species service k species en_prompt_template
                     ja_prompt_template].
Proof.
  intros H. unfold rows_for, ordinals, range2.
  replace (Z.to_nat (k + 1 - k)) with 1%nat by lia. cbn [seq map].
  replace (k + Z.of_nat 0) with k by lia.
  rewrite omap_cons. unfold row_for. by rewrite H.
Qed.

Lemma index_out_of_range (i : Z) :
  Z.of_nat (length species_list) <= i
  \/ i < - Z.of_nat (length species_list) ->
  index species_list i = None.
Proof.
  intros H. unfold index.
  destruct (Z.ltb_spec i 0).
  - destruct (Z.ltb_spec (i + Z.of_nat (length species_list)) 0); [done|lia].
  - apply lookup_ge_None. lia.
Qed.

Lemma process_and_save_batch_index_error finishing start_line end_line mode
      batch_size :
  start_line <= end_line ->
  Z.of_nat (length species_list) < end_line
  \/ start_line - 1 < - Z.of_nat (length species_list) ->
  process_and_save_batch service finishing species_list start_line end_line
                         en_prompt_template ja_prompt_template mode
                         batch_size
  = ([], IndexError).
Proof.
  intros Hle Hout. unfold process_and_save_batch.
  assert (Hex : exists i, i ∈ range2 (start_line - 1) end_line
                          /\ index species_list i = None).
  { destruct Hout as [H|H].
    - exists (end_line - 1). split; [|apply index_out_of_range; lia].
      unfold range2. apply list_elem_of_fmap.
      exists (Z.to_nat (end_line - start_line)). split; [lia|].
      apply elem_of_seq. lia.
    - exists (start_line - 1). split; [|apply index_out_of_range; lia].
      unfold range2. apply list_elem_of_fmap.
      exists 0%nat. split; [lia|]. apply elem_of_seq. lia. }
  destruct Hex as (i & Hi & Hnone).
  rewrite (proj2 (mapM_None _ _)); [done|].
  apply Exists_exists. exists i. split; [done|]. by rewrite Hnone.
Qed.
End MainRuns.

(** X14.  With [--line k] for an ordinal [k] of the list, a positive
    batch size and a task that finishes, [main_async] appends the one
    row of that ordinal to what the file held, writes no header, and
    returns, whatever [--start] says.  A zero batch size raises
    [ValueError] instead, and with a negative one nothing is appended. *)
Theorem main_async_single_line
        (service : request -> nat -> reply)
        (spill : list csv_line -> nat) (finishing : Z -> list nat)
        (args : arguments) (en_prompt_template ja_prompt_template : str)
        (species_list : list str) (output : option (list csv_line))
        (k : Z) :
  arg_line args = Some k ->
  1 <= k <= Z.of_nat (length species_list) ->
  0 < arg_batch_size args ->
  every_task_finishes finishing 1 (arg_batch_size args) ->
  exists species,
    species_list !! Z.to_nat (k - 1) = Some species
    /\ snd (main_async service finishing args en_prompt_template
                       ja_prompt_template species_list output) = Returned
    /\ run spill (closed output)
           (fst (main_async service finishing args en_prompt_template
                            ja_prompt_template species_list output))
       = closed
           (Some (default [] output
                    ++ [RowLine (process_species service k species
                                                 en_prompt_template
                                                 ja_prompt_template)])).
Proof.
  intros Hline Hk Hb Hfin.
  destruct (species_list !! Z.to_nat (k - 1)) as [species|] eqn:Hsp.
  2:{ apply lookup_ge_None in Hsp. lia. }
  exists species. split; [done|].
  unfold main_async, plan. rewrite Hline.
  assert (Hfin' : every_task_finishes finishing (k - k + 1)
                                      (arg_batch_size args)).
  { by replace (k - k + 1) with 1 by lia. }
  split.
  - destruct (process_and_save_batch_valid
                service species_list en_prompt_template ja_prompt_template
                finishing k k ModeA (arg_batch_size args))
      as (tasks & m & _ & _ & _ & _ & _ & _ & ->); (done || lia).
  - rewrite process_and_save_batch_store by (done || lia).
    by rewrite (rows_for_single _ _ _ _ _ _ Hsp).
Qed.

Lemma main_async_single_line_witness :
  exists species,
    five_species !! Z.to_nat (3 - 1) = Some species
    /\ snd (main_async echo_service one_by_one
                       {| arg_start := 1; arg_line := Some 3;
                          arg_batch_size := 1 |}
                       (u "en [species]") (u "ja [species]") five_species
                       (Some [HeaderLine fieldnames])) = Returned
    /\ run holds_one (closed (Some [HeaderLine fieldnames]))
           (fst (main_async echo_service one_by_one
                            {| arg_start := 1; arg_line := Some 3;
                               arg_batch_size := 1 |}
                            (u "en [species]") (u "ja [species]")
                            five_species (Some [HeaderLine fieldnames])))
       = closed
           (Some (default [] (Some [HeaderLine fieldnames])
                    ++ [RowLine (process_species echo_service 3 species
                                                 (u "en [species]")
                                                 (u "ja [species]"))])).
Proof.
  apply (main_async_single_line
           echo_service holds_one one_by_one
           {| arg_start := 1; arg_line := Some 3; arg_batch_size := 1 |}
           (u "en [species]") (u "ja [species]") five_species
           (Some [HeaderLine fieldnames]) 3).
  - reflexivity.
  - simpl. lia.
  - simpl. lia.
  - apply one_by_one_finishes.
Defined.

(** X15.  When the range reaches an index outside the identifier list,
    beyond its end or before the start of its negative indices,
    [process_and_save_batch] raises [IndexError] before it opens the
    file, which stays as it was; [main_async] does so for [--line k]
    with [k] above the length of the list. *)
Theorem process_and_save_batch_out_of_range
        (service : request -> nat -> reply)
        (spill : list csv_line -> nat) (finishing : Z -> list nat)
        (species_list : list str) (en_prompt_template ja_prompt_template : str)
        (batch_size : Z) :
  (forall start_line end_line mode,
      start_line <= end_line ->
      Z.of_nat (length species_list) < end_line
      \/ start_line - 1 < - Z.of_nat (length species_list) ->
      process_and_save_batch service finishing species_list start_line
                             end_line en_prompt_template ja_prompt_template
                             mode batch_size
      = ([], IndexError))
  /\ (forall args output k,
         arg_line args = Some k ->
         Z.of_nat (length species_list) < k ->
         main_async service finishing args en_prompt_template
                    ja_prompt_template species_list output
         = ([], IndexError)
         /\ run spill (closed output)
                (fst (main_async service finishing args en_prompt_template
                                 ja_prompt_template species_list output))
            = closed output).
Proof.
  split.
  - intros. by apply process_and_save_batch_index_error.
  - intros args output k Hline Hk. unfold main_async, plan. rewrite Hline.
    rewrite process_and_save_batch_index_error by (lia || by left). done.
Qed.

Lemma process_and_save_batch_out_of_range_witness :
  process_and_save_batch echo_service one_by_one five_species 4 6
                         (u "en [species]") (u "ja [species]") ModeW 1
  = ([], IndexError).
Proof.
  apply (proj1 (process_and_save_batch_out_of_range
                  echo_service passes_all one_by_one five_species
                  (u "en [species]") (u "ja [species]") 1)).
  - lia.
  - left. simpl. lia.
Defined.

Section FromTasks.
Variable service : request -> nat -> reply.
Variables (en_prompt_template ja_prompt_template : str).
Variable species_list : list str.

(** A run whose tasks could all be built, from any start. *)
Lemma process_and_save_batch_from_tasks spill finishing start_line end_line mode
      batch_size tasks first old :
  mapM (fun i =>
          species ← index species_list i;
          Some (i + 1,
                process_species service (i + 1) species
                                en_prompt_template ja_prompt_template))
       (range2 (start_line - 1) end_line)
  = Some tasks ->
  numbered first (map snd tasks) ->
  0 < batch_size ->
  every_task_finishes finishing (Z.of_nat (length tasks)) batch_size ->
  snd (process_and_save_batch service finishing species_list start_line
         end_line en_prompt_template ja_prompt_template mode batch_size)
  = Returned
  /\ run spill (closed old)
         (fst (process_and_save_batch service finishing species_list
                 start_line end_line en_prompt_template ja_prompt_template
                 mode batch_size))
     = closed (Some (opened mode old ++ map RowLine (map snd tasks))).
Proof.
  intros Hbuild Hnum Hb Hfin.
  destruct (range3_offsets (Z.of_nat (length tasks)) batch_size)
    as (Hrange & Hvalid & Hcover); [lia..|].
  set (m := Z.to_nat ((Z.of_nat (length tasks) + batch_size - 1)
                      / batch_size)) in *.
  rewrite Nat2Z.id in Hvalid, Hcover.
  unfold process_and_save_batch. cbv zeta. rewrite Hbuild, Hrange.
  fold (header_of mode).
  destruct (batches_shape finishing tasks batch_size first Hb Hnum Hfin m
                          0%nat ltac:(intros; apply Hvalid; lia))
    as [Hout Hw].
  pose proof (batches_store spill finishing tasks batch_size
                (offsets_from batch_size 0 m)
                (closed (Some (opened mode old))) eq_refl) as Hrun.
  destruct (batches finishing tasks batch_size _) as [acts out].
  cbn [fst snd] in *. subst out. split; [done|]. cbn [fst].
  change (Open mode :: header_of mode ++ acts ++ [Close])
    with ((Open mode :: header_of mode) ++ acts ++ [Close]).
  rewrite run_app, run_open_header, run_app, Hrun, Hw.
  rewrite drop_0, take_ge by (rewrite length_map; lia).
  unfold closed. simpl. by rewrite app_nil_r.
Qed.

Lemma index_negative (i : Z) :
  - Z.of_nat (length species_list) <= i < 0 ->
  index species_list i
  = species_list !! Z.to_nat (i + Z.of_nat (length species_list)).
Proof.
  intros H. unfold index.
  destruct (Z.ltb_spec i 0); [|lia].
  destruct (Z.ltb_spec (i + Z.of_nat (length species_list)) 0); [lia|done].
Qed.
End FromTasks.

(** X16.  With a positive batch size and a task that finishes,
    [--line k] with [k] zero or negative, down to one minus the length
    of the list, raises no [IndexError] and returns: the index wraps
    around, and the row appended carries the number [k] and the species
    that stands [1 - k] places before the end of the list, so that
    [--line 0] appends a row numbered 0 for the last species. *)
Theorem main_async_line_wraps_around
        (service : request -> nat -> reply)
        (spill : list csv_line -> nat) (finishing : Z -> list nat)
        (args : arguments) (en_prompt_template ja_prompt_template : str)
        (species_list : list str) (output : option (list csv_line))
        (k : Z) :
  arg_line args = Some k ->
  1 - Z.of_nat (length species_list) <= k <= 0 ->
  0 < arg_batch_size args ->
  every_task_finishes finishing 1 (arg_batch_size args) ->
  exists species,
    species_list !! Z.to_nat (Z.of_nat (length species_list) + k - 1)
    = Some species
    /\ snd (main_async service finishing args en_prompt_template
                       ja_prompt_template species_list output) = Returned
    /\ run spill (closed output)
           (fst (main_async service finishing args en_prompt_template
                            ja_prompt_template species_list output))
       = closed
           (Some (default [] output
                    ++ [RowLine (process_species service k species
                                                 en_prompt_template
                                                 ja_prompt_template)])).
Proof.
  intros Hline Hk Hb Hfin.
  destruct (species_list
              !! Z.to_nat (Z.of_nat (length species_list) + k - 1))
    as [species|] eqn:Hsp.
  2:{ apply lookup_ge_None in Hsp. lia. }
  exists species. split; [done|].
  unfold main_async, plan. rewrite Hline.
  apply (process_and_save_batch_from_tasks
           service en_prompt_template ja_prompt_template species_list
           spill finishing k k ModeA (arg_batch_size args)
           [(k, process_species service k species en_prompt_template
                                ja_prompt_template)] k output).
  - unfold range2. replace (Z.to_nat (k - (k - 1))) with 1%nat by lia.
    cbn [seq map]. replace (k - 1 + Z.of_nat 0) with (k - 1) by lia.
    rewrite mapM_cons, index_negative by lia.
    replace (Z.to_nat (k - 1 + Z.of_nat (length species_list)))
      with (Z.to_nat (Z.of_nat (length species_list) + k - 1)) by lia.
    rewrite Hsp. simpl. by replace (k - 1 + 1) with k by lia.
  - intros [|x] r Hx; simplify_eq/=. lia.
  - done.
  - done.
Qed.

Lemma main_async_line_wraps_around_witness :
  exists species,
    five_species !! Z.to_nat (Z.of_nat (length five_species) + 0 - 1)
    = Some species
    /\ snd (main_async echo_service one_by_one
                       {| arg_start := 1; arg_line := Some 0;
                          arg_batch_size := 1 |}
                       (u "en [species]") (u "ja [species]") five_species
                       None) = Returned
    /\ run passes_all (closed None)
           (fst (main_async echo_service one_by_one
                            {| arg_start := 1; arg_line := Some 0;
                               arg_batch_size := 1 |}
                            (u "en [species]") (u "ja [species]")
                            five_species None))
       = closed
           (Some (default [] None
                    ++ [RowLine (process_species echo_service 0 species
                                                 (u "en [species]")
                                                 (u "ja [species]"))])).
Proof.
  apply (main_async_line_wraps_around
           echo_service passes_all one_by_one
           {| arg_start := 1; arg_line := Some 0; arg_batch_size := 1 |}
           (u "en [species]") (u "ja [species]") five_species None 0).
  - reflexivity.
  - simpl. lia.
  - simpl. lia.
  - apply one_by_one_finishes.
Defined.

Example line_zero_is_the_last_species :
  rows_on_disk
    (run keeps_all (closed None)
         (fst (main_async scenario_service one_by_one
                          {| arg_start := 1; arg_line := Some 0;
                             arg_batch_size := 10 |}
                          (u "EN [species]") (u "JA [species]")
                          [u "Panthera leo"; u "Canis lupus"] None)))
  = [{| number := 0;
        scientific_name := u "Canis lupus";
        english_common_name := u "Wolf";
        japanese_common_name := sentinel |}].
Proof. vm_compute. reflexivity. Qed.

(** X17.  With a batch size of zero or less no row is written, whatever
    the range within the list: the file is opened all the same, so that
    in write mode its former content is replaced by the header alone;
    then a zero batch size raises [ValueError] and a negative one lets
    the call return as if the work were done. *)
Theorem process_and_save_batch_no_batches
        (service : request -> nat -> reply)
        (spill : list csv_line -> nat) (finishing : Z -> list nat)
        (species_list : list str) (start_line end_line : Z)
        (en_prompt_template ja_prompt_template : str)
        (mode : file_mode) (batch_size : Z)
        (old : option (list csv_line)) :
  1 <= start_line -> end_line <= Z.of_nat (length species_list) ->
  batch_size <= 0 ->
  process_and_save_batch service finishing species_list start_line end_line
                         en_prompt_template ja_prompt_template mode
                         batch_size
  = (Open mode :: header_of mode ++ [Close],
     if batch_size =? 0 then ValueError else Returned)
  /\ run spill (closed old)
         (fst (process_and_save_batch service finishing species_list
                 start_line end_line en_prompt_template ja_prompt_template
                 mode batch_size))
     = closed (Some (opened mode old)).
Proof.
  intros Hstart Hend Hb.
  destruct (tasks_build service species_list en_prompt_template
                        ja_prompt_template
                        (Z.to_nat (end_line - (start_line - 1)))
                        (Z.to_nat (start_line - 1)))
    as (tasks & Hbuild & _); [lia|].
  assert (Hcall :
            process_and_save_batch service finishing species_list start_line
                                   end_line en_prompt_template
                                   ja_prompt_template mode batch_size
            = (Open mode :: header_of mode ++ [Close],
               if batch_size =? 0 then ValueError else Returned)).
  { unfold process_and_save_batch, range2.
    erewrite (map_ext (fun k => start_line - 1 + Z.of_nat k)) by
      (intros k; rewrite <- (Z2Nat.id (start_line - 1)) by lia; reflexivity).
    cbv zeta in Hbuild |- *. rewrite Hbuild. unfold range3.
    fold (header_of mode).
    destruct (Z.eqb_spec batch_size 0); [done|].
    destruct (Z.ltb_spec batch_size 0); [|lia]. done. }
  rewrite Hcall. split; [done|]. cbn [fst].
  change (Open mode :: header_of mode ++ [Close])
    with ((Open mode :: header_of mode) ++ [Close]).
  by rewrite run_app, run_open_header, run_close.
Qed.

Lemma process_and_save_batch_no_batches_witness :
  run holds_one (closed (Some [HeaderLine fieldnames;
                     RowLine {| number := 1;
                                scientific_name := u "Panthera leo";
                                english_common_name := u "Lion";
                                japanese_common_name := sentinel |}]))
      (fst (process_and_save_batch echo_service one_by_one five_species 1 5
              (u "en [species]") (u "ja [species]") ModeW 0))
  = closed (Some [HeaderLine fieldnames]).
Proof.
  apply (process_and_save_batch_no_batches
           echo_service holds_one one_by_one five_species 1 5
           (u "en [species]") (u "ja [species]") ModeW 0).
  - lia.
  - simpl. lia.
  - lia.
Defined.

(** X18.  A resumed run, with [--start] above 1 and an output file in
    place, keeps every line of the file as it is, writes no header, and
    appends the rows of the ordinals from the start to the end of the
    list; with a start beyond the end of the list it appends nothing. *)
Theorem main_async_resume_appends
        (service : request -> nat -> reply)
        (spill : list csv_line -> nat) (finishing : Z -> list nat)
        (args : arguments) (en_prompt_template ja_prompt_template : str)
        (species_list : list str) (old : list csv_line) :
  arg_line args = None ->
  1 < arg_start args ->
  0 < arg_batch_size args ->
  every_task_finishes finishing
                      (Z.of_nat (length species_list) - arg_start args + 1)
                      (arg_batch_size args) ->
  snd (main_async service finishing args en_prompt_template
                  ja_prompt_template species_list (Some old)) = Returned
  /\ run spill (closed (Some old))
         (fst (main_async service finishing args en_prompt_template
                          ja_prompt_template species_list (Some old)))
     = closed
         (Some (old ++ map RowLine
                         (rows_for service en_prompt_template
                                   ja_prompt_template species_list
                                   (arg_start args)
                                   (Z.of_nat (length species_list)))))
  /\ (Z.of_nat (length species_list) < arg_start args ->
      rows_for service en_prompt_template ja_prompt_template species_list
               (arg_start args) (Z.of_nat (length species_list)) = []).
Proof.
  intros Hline Hstart Hb Hfin. unfold main_async, plan. rewrite Hline.
  destruct (Z.ltb_spec 1 (arg_start args)); [|lia].
  rewrite bool_decide_eq_true_2 by done. cbn [andb].
  repeat split.
  - destruct (process_and_save_batch_valid
                service species_list en_prompt_template ja_prompt_template
                finishing (arg_start args)
                (Z.of_nat (length species_list)) ModeA
                (arg_batch_size args))
      as (tasks & m & _ & _ & _ & _ & _ & _ & ->); (done || lia).
  - by rewrite process_and_save_batch_store by (done || lia).
  - intros Hbeyond. unfold rows_for, ordinals, range2.
    by replace (Z.to_nat (Z.of_nat (length species_list) + 1
                          - arg_start args)) with 0%nat by lia.
Qed.

Lemma main_async_resume_appends_witness :
  run passes_all (closed (Some [HeaderLine fieldnames]))
      (fst (main_async echo_service one_by_one
                       {| arg_start := 4; arg_line := None;
                          arg_batch_size := 1 |}
                       (u "en [species]") (u "ja [species]") five_species
                       (Some [HeaderLine fieldnames])))
  = closed
      (Some ([HeaderLine fieldnames]
               ++ map RowLine
                    (rows_for echo_service (u "en [species]")
                              (u "ja [species]") five_species 4
                              (Z.of_nat (length five_species))))).
Proof.
  apply (main_async_resume_appends
           echo_service passes_all one_by_one
           {| arg_start := 4; arg_line := None; arg_batch_size := 1 |}
           (u "en [species]") (u "ja [species]") five_species
           [HeaderLine fieldnames]).
  - reflexivity.
  - simpl. lia.
  - simpl. lia.
  - apply one_by_one_finishes.
Defined.

(** ** More on the grouping utilities *)

Lemma concat_Permutation {A} (l k : list (list A)) :
  l ≡ₚ k -> concat l ≡ₚ concat k.
Proof.
  induction 1 as [|x l k _ IH|x y l|l k m _ IH1 _ IH2]; simpl.
  - done.
  - by rewrite IH.
  - rewrite !app_assoc. f_equiv. apply Permutation_app_comm.
  - by etransitivity.
Qed.

Lemma dict_append_names d k v :
  concat (map snd (dict_append d k v)) ≡ₚ v :: concat (map snd d).
Proof.
  induction d as [|[k0 vs] d IH]; simpl; [done|].
  destruct (str_eqb k0 k); simpl.
  - rewrite <- app_assoc. simpl.
    by rewrite <- Permutation_middle.
  - rewrite IH. by rewrite <- Permutation_middle.
Qed.

Lemma name_to_scientific_names_names rows :
  concat (map snd (name_to_scientific_names rows))
  ≡ₚ map row_scientific_name rows.
Proof.
  induction rows as [|r rows IH] using rev_ind; [done|].
  rewrite name_to_scientific_names_snoc, dict_append_names, IH, map_app.
  simpl. by rewrite <- Permutation_cons_append.
Qed.

Lemma name_to_scientific_names_labels rows label :
  label ∈ map fst (name_to_scientific_names rows)
  <-> label ∈ map row_common_name rows.
Proof.
  induction rows as [|r rows IH] using rev_ind; [done|].
  rewrite name_to_scientific_names_snoc, dict_append_keys, map_app.
  rewrite elem_of_app, <- IH. simpl.
  destruct (bool_decide _) eqn:E.
  - apply bool_decide_eq_true in E. split; [by left|].
    intros [?|Hl]; [done|]. by apply list_elem_of_singleton in Hl as ->.
  - rewrite elem_of_app, list_elem_of_singleton. done.
Qed.

(** X19.  The grouping loses and repeats nothing: taken together, the
    lists of the items written hold the scientific names of the rows of
    the table, each as often as the table has it, so that as many names
    are written as the table has rows. *)
Theorem grouping_keeps_every_name (rows : list table_row) :
  concat (map snd (sorted_items (name_to_scientific_names rows)))
  ≡ₚ map row_scientific_name rows
  /\ length (concat (map snd (sorted_items (name_to_scientific_names rows))))
     = length rows.
Proof.
  assert (H : concat (map snd (sorted_items (name_to_scientific_names rows)))
              ≡ₚ map row_scientific_name rows).
  { unfold sorted_items.
    rewrite (concat_Permutation _ (map snd (name_to_scientific_names rows)))
      by (by rewrite merge_sort_Permutation).
    apply name_to_scientific_names_names. }
  split; [done|]. by rewrite H, length_map.
Qed.

(** X20.  Each utility writes as many lines as the table has distinct
    labels: the items written are one for each label, whatever the number
    of rows that carry it. *)
Theorem csv_to_jsonl_one_line_per_label
        (label_key : str) (rows : list table_row) :
  map fst (sorted_items (name_to_scientific_names rows))
  ≡ₚ remove_dups (map row_common_name rows)
  /\ split newline (csv_to_jsonl label_key rows)
     = map (json_dumps label_key)
           (sorted_items (name_to_scientific_names rows)) ++ [[]]
  /\ length (split newline (csv_to_jsonl label_key rows))
     = S (length (remove_dups (map row_common_name rows))).
Proof.
  destruct (name_to_scientific_names_spec rows) as [Hnd _].
  assert (Hlabels : map fst (sorted_items (name_to_scientific_names rows))
                    ≡ₚ remove_dups (map row_common_name rows)).
  { unfold sorted_items. rewrite merge_sort_Permutation.
    apply NoDup_Permutation; [done|apply NoDup_remove_dups|].
    intros label. rewrite elem_of_remove_dups.
    apply name_to_scientific_names_labels. }
  assert (Hlines : split newline (csv_to_jsonl label_key rows)
                   = map (json_dumps label_key)
                         (sorted_items (name_to_scientific_names rows))
                       ++ [[]]).
  { unfold csv_to_jsonl.
    rewrite <- (map_map (json_dumps label_key) (fun l => l ++ [newline])).
    apply split_lines, Forall_forall.
    intros l [item [-> _]]%list_elem_of_fmap. apply json_dumps_no_newline. }
  repeat split; [done..|].
  rewrite Hlines, length_app, length_map. simpl.
  rewrite <- Hlabels, length_map. lia.
Qed.

Lemma json_escape_printable c : forallb printable (json_escape c) = true.
Proof.
  unfold json_escape.
  destruct (c =? 34)%N; [done|]. destruct (c =? 92)%N; [done|].
  destruct (c =? 10)%N; [done|].
  destruct (c =? 13)%N; [done|]. destruct (c =? 9)%N; [done|].
  destruct (c =? 8)%N; [done|]. destruct (c =? 12)%N; [done|].
  destruct (N.ltb_spec c 32).
  - change (backslash :: u "u00" ++ ?l) with ((backslash :: u "u00") ++ l).
    rewrite forallb_app. cbn [forallb]. unfold printable, hex_digit.
    destruct (N.ltb_spec (c / 16) 10), (N.ltb_spec (c mod 16) 10);
      rewrite !andb_true_iff; repeat split; try done; apply N.leb_le;
      first [ apply (N.le_trans _ 48); [lia|apply N.le_add_r]
            | apply (N.le_trans _ 97); [lia|apply N.le_add_r] ].
  - cbn [forallb]. rewrite andb_true_r. by apply N.leb_le.
Qed.

Lemma json_string_printable s : forallb printable (json_string s) = true.
Proof.
  unfold json_string. rewrite !forallb_app. cbn [forallb].
  replace (printable dquote) with true by done. simpl.
  rewrite andb_true_r.
  induction s as [|c s IH]; simpl; [done|].
  by rewrite forallb_app, json_escape_printable, IH.
Qed.

Lemma json_array_printable items : forallb printable (json_array items) = true.
Proof.
  unfold json_array. rewrite !forallb_app.
  replace (forallb printable (u "[")) with true by done.
  replace (forallb printable (u "]")) with true by done.
  rewrite andb_true_r. simpl.
  induction items as [|s items IH]; [done|].
  cbn [map join]. destruct (map json_string items) eqn:E.
  - apply json_string_printable.
  - rewrite !forallb_app, json_string_printable, IH. done.
Qed.

Lemma json_dumps_printable label_key item :
  forallb printable (json_dumps label_key item) = true.
Proof.
  unfold json_dumps.
  rewrite !forallb_app, !json_string_printable, json_array_printable.
  done.
Qed.

Lemma forallb_weaken (p q : char -> bool) (l : str) :
  (forall c, p c = true -> q c = true) ->
  forallb p l = true -> forallb q l = true.
Proof.
  intros Hpq. rewrite !forallb_forall. intros H c Hc. by apply Hpq, H.
Qed.

(** X21.  The only control characters in the output of a utility are the
    line breaks that end its lines: whatever the labels and names hold,
    tabs, carriage returns and line breaks included, they reach the file
    escaped. *)
Theorem csv_to_jsonl_escapes_control_characters
        (label_key : str) (rows : list table_row) :
  forallb (fun c => char_eqb c newline || printable c)
          (csv_to_jsonl label_key rows) = true
  /\ Forall (fun line => forallb printable line = true)
            (split newline (csv_to_jsonl label_key rows)).
Proof.
  split.
  - unfold csv_to_jsonl.
    induction (sorted_items (name_to_scientific_names rows))
      as [|item items IH]; [done|].
    cbn [map concat]. rewrite !forallb_app, IH.
    rewrite (forallb_weaken printable _ (json_dumps label_key item));
      [done|by intros c ->; apply orb_true_r|apply json_dumps_printable].
  - unfold csv_to_jsonl.
    rewrite <- (map_map (json_dumps label_key) (fun l => l ++ [newline])).
    rewrite split_lines.
    + apply Forall_app. split; [|by repeat constructor].
      apply Forall_forall. intros l [item [-> _]]%list_elem_of_fmap.
      apply json_dumps_printable.
    + apply Forall_forall. intros l [item [-> _]]%list_elem_of_fmap.
      apply json_dumps_no_newline.
Qed.

(** X22.  In a run over a range within the identifier list, with a
    positive batch size and every task finishing, each row written pairs
    its ordinal with the identifier at that position of the list, and its
    two labels are those that [get_common_name] returns for that
    identifier with the English and the Japanese template. *)
Theorem process_and_save_batch_rows_match_species
        (service : request -> nat -> reply) (finishing : Z -> list nat)
        (species_list : list str) (start_line end_line : Z)
        (en_prompt_template ja_prompt_template : str)
        (mode : file_mode) (batch_size : Z) :
  1 <= start_line -> end_line <= Z.of_nat (length species_list) ->
  0 < batch_size ->
  every_task_finishes finishing (end_line - start_line + 1) batch_size ->
  Forall (fun r =>
            species_list !! Z.to_nat (number r - 1)
            = Some (scientific_name r)
            /\ english_common_name r
               = fst (get_common_name service (scientific_name r)
                                      en_prompt_template default_model
                                      (u "en") default_max_retries)
            /\ japanese_common_name r
               = fst (get_common_name service (scientific_name r)
                                      ja_prompt_template default_model
                                      (u "ja") default_max_retries))
         (written
            (fst (process_and_save_batch service finishing species_list
                    start_line end_line en_prompt_template
                    ja_prompt_template mode batch_size))).
Proof.
  intros Hstart Hend Hb Hfin.
  destruct (process_and_save_batch_valid
              service species_list en_prompt_template ja_prompt_template
              finishing start_line end_line mode batch_size)
    as (tasks & m & Hrows & Hnum & Hlen & Hfin' & Hvalid & Hcover & ->);
    [done..|].
  cbn [fst]. change (Open mode :: ?l) with ([Open mode] ++ l).
  rewrite !written_app, written_header.
  destruct (batches_shape finishing tasks batch_size start_line Hb Hnum
                          Hfin' m 0%nat Hvalid) as [_ ->].
  simpl. rewrite app_nil_r, drop_0, take_ge by (rewrite length_map; lia).
  rewrite Hrows. apply Forall_forall. intros r Hr.
  unfold rows_for in Hr.
  apply list_elem_of_omap in Hr as (ordinal & _ & Hrow).
  unfold row_for in Hrow.
  destruct (species_list !! Z.to_nat (ordinal - 1)) as [species|] eqn:E;
    simplify_eq/=.
  by rewrite E.
Qed.

Lemma process_and_save_batch_rows_match_species_witness :
  Forall (fun r =>
            five_species !! Z.to_nat (number r - 1)
            = Some (scientific_name r)
            /\ english_common_name r
               = fst (get_common_name echo_service (scientific_name r)
                                      (u "en [species]") default_model
                                      (u "en") default_max_retries)
            /\ japanese_common_name r
               = fst (get_common_name echo_service (scientific_name r)
                                      (u "ja [species]") default_model
                                      (u "ja") default_max_retries))
         (written
            (fst (process_and_save_batch echo_service one_by_one
                    five_species 2 4 (u "en [species]") (u "ja [species]")
                    ModeW 1))).
Proof.
  apply (process_and_save_batch_rows_match_species
           echo_service one_by_one five_species 2 4
           (u "en [species]") (u "ja [species]") ModeW 1).
  - lia.
  - simpl. lia.
  - lia.
  - apply one_by_one_finishes.
Defined.
(** ** Batch atomicity, whatever the order in which tasks finish *)

(** [gather] returns as soon as every awaitable has finished, whatever
    else the finishing order lists. *)
Lemma gather_covering {A} (aws : list A) (finishing : list nat) :
  (forall k, (k < length aws)%nat -> k ∈ finishing) ->
  gather finishing aws = Some aws.
Proof.
  intros Hall. unfold gather.
  destruct (gather_slots aws finishing (replicate (length aws) None))
    as [Hlen Hj]; [by rewrite length_replicate|].
  apply mapM_Some, Forall2_lookup. intros j.
  rewrite Hj. destruct (aws !! j) as [x|] eqn:E.
  - apply lookup_lt_Some in E as Hlt.
    rewrite decide_True; [by constructor|]. split; [|done].
    by apply Hall.
  - apply lookup_ge_None in E.
    rewrite decide_False by (intros [_ ?]; lia).
    rewrite (proj1 (lookup_replicate_None _ _ _)) by lia. constructor.
Qed.

Section BlockAny.
Variables (finished : list nat) (batch : list row) (more : bool).

(** The one flush of a batch comes after all its rows. *)
Lemma block_flush_split pre post :
  block finished batch more = pre ++ Flush :: post ->
  written pre = batch.
Proof.
  unfold block. rewrite app_assoc.
  assert (Hq : Forall quiet
                 (omap (fun k => Done <$> batch !! k) finished
                  ++ map (fun r => WriteLine (RowLine r)) batch)).
  { apply Forall_app. split;
      [apply Forall_quiet_dones|apply Forall_quiet_writes]. }
  intros [[l Hl]|(p' & -> & Hrest)]%app_eq_cons_cases.
  - rewrite Hl in Hq. apply Forall_app in Hq as [_ Hq].
    by inversion Hq.
  - destruct p' as [|a p'].
    + by rewrite app_nil_r, written_app, written_dones, written_writes.
    + simpl in Hrest. injection Hrest as <- Hrest.
      destruct more.
      * destruct p' as [|b p']; [done|]. simpl in Hrest.
        injection Hrest as _ Hrest. by destruct p'.
      * by destruct p'.
Qed.

(** A row of the batch is written only after every task of the batch has
    finished. *)
Lemma block_done_before_write p r post :
  (forall k, (k < length batch)%nat -> k ∈ finished) ->
  block finished batch more = p ++ WriteLine (RowLine r) :: post ->
  r ∈ batch /\ forall r', r' ∈ batch -> Done r' ∈ p.
Proof.
  intros Hall. unfold block.
  intros [[l Hl]|(p' & -> & Hrest)]%app_eq_cons_cases.
  - assert (H : WriteLine (RowLine r)
                ∈ omap (fun k => Done <$> batch !! k) finished).
    { rewrite Hl. apply elem_of_app. right. by left. }
    apply list_elem_of_omap in H as (k & _ & Hk).
    destruct (batch !! k); simplify_eq/=.
  - assert (Hdone : forall r', r' ∈ batch ->
              Done r' ∈ omap (fun k => Done <$> batch !! k) finished ++ p').
    { intros r' [k Hk]%list_elem_of_lookup. apply elem_of_app. left.
      apply list_elem_of_omap. exists k. split; [|by rewrite Hk].
      apply Hall. by apply lookup_lt_Some in Hk. }
    split; [|done].
    assert (H : WriteLine (RowLine r)
                ∈ map (fun r => WriteLine (RowLine r)) batch
                  ++ [Flush] ++ (if more then [Pause 2] else [])).
    { rewrite Hrest. apply elem_of_app. right. by left. }
    apply elem_of_app in H as [H|H].
    + apply list_elem_of_fmap in H as (r0 & H0 & Hr0). by simplify_eq.
    + destruct more; repeat (apply elem_of_cons in H as [H|H]; [done|]);
        by apply elem_of_nil in H.
Qed.
End BlockAny.

Section LoopAny.
Variables (finishing : Z -> list nat) (tasks : list (Z * row)).
Variables (batch_size first : Z).
Hypothesis batch_size_pos : 0 < batch_size.
Hypothesis tasks_numbered : numbered first (map snd tasks).

(** One turn of the loop: the call is left waiting when a task of the
    batch never finishes; otherwise every task of the batch has finished
    and the batch contributes its block. *)
Lemma batches_cons_any (a : nat) offsets :
  (~ batch_finished finishing (map snd tasks) batch_size a
   /\ batches finishing tasks batch_size
              (Z.of_nat a * batch_size :: offsets)
      = (omap (fun k =>
                 Done <$> take (Z.to_nat batch_size)
                               (drop (a * Z.to_nat batch_size)
                                     (map snd tasks))
                          !! k)
              (finishing (Z.of_nat a * batch_size)),
         Pending))
  \/ (batch_finished finishing (map snd tasks) batch_size a
      /\ batches finishing tasks batch_size
                 (Z.of_nat a * batch_size :: offsets)
         = (block (finishing (Z.of_nat a * batch_size))
                  (take (Z.to_nat batch_size)
                        (drop (a * Z.to_nat batch_size) (map snd tasks)))
                  (Z.of_nat a * batch_size + batch_size
                   <? Z.of_nat (length tasks))
              ++ fst (batches finishing tasks batch_size offsets),
            snd (batches finishing tasks batch_size offsets))).
Proof.
  unfold batch_finished. cbn [batches]. rewrite slice_batch by done.
  set (batch := take _ _). set (i := Z.of_nat a * batch_size).
  destruct (gather (finishing i) batch) as [batch_results|] eqn:E;
    [right|left].
  - split.
    + intros k Hk. destruct (decide (k ∈ finishing i)) as [|Hnot]; [done|].
      by rewrite (gather_None _ _ k Hk Hnot) in E.
    + apply gather_Some in E as ->.
      rewrite (merge_sort_numbered
                 (first + Z.of_nat (a * Z.to_nat batch_size)) batch)
        by (by apply numbered_take, numbered_drop).
      destruct (batches finishing tasks batch_size offsets) as [later out].
      unfold block. by rewrite <- !app_assoc.
  - split; [|done]. intros Hall.
    by rewrite (gather_covering _ _ Hall) in E.
Qed.

Lemma written_take_step (a n : nat) :
  take (Z.to_nat batch_size)
       (drop (a * Z.to_nat batch_size) (map snd tasks))
  ++ take (n * Z.to_nat batch_size)
          (drop (S a * Z.to_nat batch_size) (map snd tasks))
  = take (S n * Z.to_nat batch_size)
         (drop (a * Z.to_nat batch_size) (map snd tasks)).
Proof.
  replace (S a * Z.to_nat batch_size)%nat
    with (a * Z.to_nat batch_size + Z.to_nat batch_size)%nat by lia.
  rewrite <- drop_drop, take_take_drop. f_equal.
Qed.

(** At every flush of the loop the rows written so far are those of a
    whole number of batches. *)
Lemma batches_flush_whole m : forall a pre post,
  fst (batches finishing tasks batch_size (offsets_from batch_size a m))
  = pre ++ Flush :: post ->
  exists j : nat,
    (0 < j)%nat
    /\ written pre
       = take (j * Z.to_nat batch_size)
              (drop (a * Z.to_nat batch_size) (map snd tasks)).
Proof.
  induction m as [|m IH]; intros a pre post Hsplit.
  { by destruct pre. }
  unfold offsets_from in *. cbn [seq map] in Hsplit.
  destruct (batches_cons_any a (map (fun k => Z.of_nat k * batch_size)
                                    (seq (S a) m)))
    as [[_ Hwait]|[_ Hgo]].
  - rewrite Hwait in Hsplit. cbn [fst] in Hsplit.
    pose proof (Forall_quiet_dones
                  (take (Z.to_nat batch_size)
                        (drop (a * Z.to_nat batch_size) (map snd tasks)))
                  (finishing (Z.of_nat a * batch_size))) as Hq.
    rewrite Hsplit in Hq. apply Forall_app in Hq as [_ Hq].
    by inversion Hq.
  - rewrite Hgo in Hsplit. cbn [fst] in Hsplit.
    apply app_eq_cons_cases in Hsplit as [[l Hl]|(p' & -> & Hlater)].
    + exists 1%nat. split; [lia|].
      rewrite (block_flush_split _ _ _ _ _ Hl).
      f_equal. lia.
    + destruct (IH (S a) p' post Hlater) as (j & Hj & Hw).
      exists (S j). split; [lia|].
      by rewrite written_app, written_block, Hw, written_take_step.
Qed.

(** A row is written only after every task of its batch has finished. *)
Lemma batches_done_before_write m : forall a p r post,
  fst (batches finishing tasks batch_size (offsets_from batch_size a m))
  = p ++ WriteLine (RowLine r) :: post ->
  forall r', r' ∈ map snd tasks ->
             batch_index first batch_size r'
             = batch_index first batch_size r ->
             Done r' ∈ p.
Proof.
  induction m as [|m IH]; intros a p r post Hsplit r' Hr' Hidx.
  { by destruct p. }
  unfold offsets_from in *. cbn [seq map] in Hsplit.
  destruct (batches_cons_any a (map (fun k => Z.of_nat k * batch_size)
                                    (seq (S a) m)))
    as [[_ Hwait]|[Hall Hgo]].
  - rewrite Hwait in Hsplit. cbn [fst] in Hsplit.
    pose proof (written_dones
                  (finishing (Z.of_nat a * batch_size))
                  (take (Z.to_nat batch_size)
                        (drop (a * Z.to_nat batch_size) (map snd tasks))))
      as Hw.
    rewrite Hsplit, written_app in Hw. simpl in Hw.
    by destruct (written p).
  - rewrite Hgo in Hsplit. cbn [fst] in Hsplit.
    apply app_eq_cons_cases in Hsplit as [[l Hl]|(p' & -> & Hlater)].
    + apply block_done_before_write in Hl as [Hr Hdone]; [|done].
      apply Hdone.
      apply (batch_index_mem tasks batch_size first batch_size_pos
                             tasks_numbered).
      split; [done|].
      apply (batch_index_mem tasks batch_size first batch_size_pos
                             tasks_numbered) in Hr as [_ Hr].
      congruence.
    + apply elem_of_app. right. by apply (IH (S a) p' r post).
Qed.
(** The rows written are those of the batches before the first one with
    a task that never finishes. *)
Lemma batches_progress m : forall a,
  exists j : nat,
    (j <= m)%nat
    /\ written (fst (batches finishing tasks batch_size
                            (offsets_from batch_size a m)))
       = take (j * Z.to_nat batch_size)
              (drop (a * Z.to_nat batch_size) (map snd tasks))
    /\ (forall i, (a <= i < a + j)%nat ->
                  batch_finished finishing (map snd tasks) batch_size i)
    /\ ((j < m)%nat ->
        ~ batch_finished finishing (map snd tasks) batch_size (a + j)).
Proof.
  induction m as [|m IH]; intros a.
  { exists 0%nat. repeat split; [done|intros; lia|lia]. }
  unfold offsets_from in *. cbn [seq map].
  destruct (batches_cons_any a (map (fun k => Z.of_nat k * batch_size)
                                    (seq (S a) m)))
    as [[Hnot Hwait]|[Hall Hgo]].
  - exists 0%nat. rewrite Hwait. cbn [fst]. rewrite written_dones.
    split; [lia|]. split; [done|]. split; [intros; lia|].
    intros _. by rewrite Nat.add_0_r.
  - destruct (IH (S a)) as (j & Hj & Hw & Hbefore & Hstop).
    exists (S j). rewrite Hgo. cbn [fst].
    rewrite written_app, written_block, Hw, written_take_step.
    split; [lia|]. split; [done|]. split.
    + intros i Hi. destruct (decide (i = a)) as [->|Hne]; [done|].
      apply Hbefore. lia.
    + intros Hlt. replace (a + S j)%nat with (S a + j)%nat by lia.
      apply Hstop. lia.
Qed.
End LoopAny.

(** C2.  In a run over a range within the identifier list, with a
    positive batch size, and whatever the tasks do, finishing in any
    order or never finishing: the rows that the run writes are those of
    the batches before the first one with a task that never finishes, so
    that of every batch all the rows are written or none, and none only
    when a task of the batch or of an earlier batch never finishes; a row
    is written only after every task of its batch has finished; and at
    every flush of the scheduler the rows written so far are those of a
    whole number of batches, so that it never flushes part of a batch. *)
Theorem process_and_save_batch_atomicity
        (service : request -> nat -> reply) (finishing : Z -> list nat)
        (species_list : list str) (start_line end_line : Z)
        (en_prompt_template ja_prompt_template : str)
        (mode : file_mode) (batch_size : Z) :
  1 <= start_line -> end_line <= Z.of_nat (length species_list) ->
  0 < batch_size ->
  (exists j : nat,
      written
        (fst (process_and_save_batch service finishing species_list
                start_line end_line en_prompt_template ja_prompt_template
                mode batch_size))
      = take (j * Z.to_nat batch_size)
             (rows_for service en_prompt_template ja_prompt_template
                       species_list start_line end_line)
      /\ (forall a, (a < j)%nat ->
                    batch_finished
                      finishing
                      (rows_for service en_prompt_template
                                ja_prompt_template species_list start_line
                                end_line)
                      batch_size a)
      /\ ((j * Z.to_nat batch_size
           < length (rows_for service en_prompt_template ja_prompt_template
                              species_list start_line end_line))%nat ->
          ~ batch_finished
              finishing
              (rows_for service en_prompt_template ja_prompt_template
                        species_list start_line end_line)
              batch_size j))
  /\ (forall pre r post,
         fst (process_and_save_batch service finishing species_list
                start_line end_line en_prompt_template ja_prompt_template
                mode batch_size)
         = pre ++ WriteLine (RowLine r) :: post ->
         forall r',
           r' ∈ rows_for service en_prompt_template ja_prompt_template
                         species_list start_line end_line ->
           batch_index start_line batch_size r'
           = batch_index start_line batch_size r ->
           Done r' ∈ pre)
  /\ (forall pre post,
         fst (process_and_save_batch service finishing species_list
                start_line end_line en_prompt_template ja_prompt_template
                mode batch_size)
         = pre ++ Flush :: post ->
         exists j : nat,
           written pre
           = take (j * Z.to_nat batch_size)
                  (rows_for service en_prompt_template ja_prompt_template
                            species_list start_line end_line)).
Proof.
  intros Hstart Hend Hb.
  destruct (process_and_save_batch_unfold
              service species_list en_prompt_template ja_prompt_template
              finishing start_line end_line mode batch_size)
    as (tasks & m & Hrows & Hnum & Hvalid & Hcover & ->); [done..|].
  rewrite <- Hrows.
  pose proof (batches_progress finishing tasks batch_size start_line Hb
                               Hnum m 0%nat) as Hany.
  pose proof (batches_flush_whole finishing tasks batch_size start_line Hb
                                  Hnum m 0%nat) as Hflush.
  pose proof (batches_done_before_write
                finishing tasks batch_size start_line Hb Hnum m 0%nat)
    as Hdone.
  destruct (batches finishing tasks batch_size _) as [acts out].
  cbn [fst snd] in Hany, Hflush, Hdone. rewrite drop_0 in Hany.
  destruct Hany as (j & Hj & Hw & Hbefore & Hstop).
  assert (Htrace : exists tail,
             (tail = [] \/ tail = [Close])
             /\ fst (match out with
                     | Pending => (Open mode :: header_of mode ++ acts, Pending)
                     | _ => (Open mode :: header_of mode ++ acts ++ [Close],
                             out)
                     end)
                = (Open mode :: header_of mode) ++ acts ++ tail).
  { destruct out; cbn [fst];
      try (exists [Close]; split; [by right|done]).
    exists []. split; [by left|]. by rewrite app_nil_r. }
  destruct Htrace as (tail & Htail & ->).
  assert (Hhead : written (Open mode :: header_of mode) = [])
    by (by destruct mode).
  assert (Hwt : written tail = []) by (by destruct Htail as [->| ->]).
  split; [|split].
  - exists j. split; [|split].
    + by rewrite !written_app, Hhead, Hwt, app_nil_r.
    + intros a Ha. apply Hbefore. lia.
    + rewrite length_map. intros Hlt. apply Hstop.
      destruct (decide (j < m)%nat) as [|Hge]; [done|].
      assert (j = m) as -> by lia. lia.
  - intros pre r post Hsplit r' Hr' Hidx.
    apply app_eq_cons_cases in Hsplit as [[l Hl]|(p' & -> & Hrest)].
    { assert (H : WriteLine (RowLine r) ∈ Open mode :: header_of mode).
      { rewrite Hl. apply elem_of_app. right. by left. }
      destruct mode; simpl in H;
        repeat (apply elem_of_cons in H as [H|H]; [done|]);
        by apply elem_of_nil in H. }
    apply elem_of_app. right.
    apply app_eq_cons_cases in Hrest as [[l Hl]|(p'' & -> & Hclose)].
    + by apply (Hdone p' r l Hl r').
    + destruct Htail as [->| ->]; destruct p'' as [|a p'']; simplify_eq/=.
      by destruct p''.
  - intros pre post Hsplit.
    apply app_eq_cons_cases in Hsplit as [[l Hl]|(p' & -> & Hrest)].
    { exists 0%nat. simpl.
      assert (Hpre : written (pre ++ Flush :: l) = []) by (by rewrite <- Hl).
      rewrite written_app in Hpre. by apply app_eq_nil in Hpre as [-> _]. }
    rewrite written_app, Hhead. simpl.
    apply app_eq_cons_cases in Hrest as [[l Hl]|(p'' & -> & Hclose)].
    + destruct (Hflush p' l Hl) as (j' & _ & Hj'). exists j'.
      by rewrite Hj', drop_0.
    + destruct Htail as [->| ->]; destruct p'' as [|a p'']; simplify_eq/=.
      by destruct p''.
Qed.

Lemma process_and_save_batch_atomicity_witness :
  (exists j : nat,
      written
        (fst (process_and_save_batch
                echo_service
                (fun i => if i =? 0 then [1; 0]%nat else [0%nat])
                five_species 1 5 (u "en [species]") (u "ja [species]")
                ModeW 2))
      = take (j * Z.to_nat 2)
             (rows_for echo_service (u "en [species]") (u "ja [species]")
                       five_species 1 5)
      /\ (forall a, (a < j)%nat ->
                    batch_finished
                      (fun i => if i =? 0 then [1; 0]%nat else [0%nat])
                      (rows_for echo_service (u "en [species]")
                                (u "ja [species]") five_species 1 5)
                      2 a)
      /\ ((j * Z.to_nat 2
           < length (rows_for echo_service (u "en [species]")
                              (u "ja [species]") five_species 1 5))%nat ->
          ~ batch_finished
              (fun i => if i =? 0 then [1; 0]%nat else [0%nat])
              (rows_for echo_service (u "en [species]") (u "ja [species]")
                        five_species 1 5)
              2 j))
  /\ forall pre post,
      fst (process_and_save_batch
             echo_service
             (fun i => if i =? 0 then [1; 0]%nat else [0%nat])
             five_species 1 5 (u "en [species]") (u "ja [species]")
             ModeW 2)
      = pre ++ Flush :: post ->
      exists j : nat,
        written pre
        = take (j * Z.to_nat 2)
               (rows_for echo_service (u "en [species]") (u "ja [species]")
                         five_species 1 5).
Proof.
  destruct (process_and_save_batch_atomicity
              echo_service
              (fun i => if i =? 0 then [1; 0]%nat else [0%nat])
              five_species 1 5 (u "en [species]") (u "ja [species]")
              ModeW 2)
    as (Hall & _ & Hflush); [lia|simpl; lia|lia|].
  split; [exact Hall|exact Hflush].
Defined.

(** A late task that never finishes: the first batch of two is written
    and flushed, of the second batch nothing is. *)
Example late_task_leaves_no_partial_batch :
  map number
      (written
         (fst (process_and_save_batch
                 echo_service
                 (fun i => if i =? 0 then [1; 0]%nat else [0%nat])
                 five_species 1 5 (u "en [species]") (u "ja [species]")
                 ModeW 2)))
  = [1; 2]
  /\ snd (process_and_save_batch
            echo_service
            (fun i => if i =? 0 then [1; 0]%nat else [0%nat])
            five_species 1 5 (u "en [species]") (u "ja [species]")
            ModeW 2)
     = Pending.
Proof. vm_compute. done. Qed.

(** What has reached the file between two flushes depends on the file
    object: with one that passes every line on at once, the first row of
    a batch of two is in the file before the second is written; with one
    that keeps its lines until the flush, neither is.  Batch atomicity
    is a property of what the scheduler writes and flushes, not of what
    the file holds at every moment. *)
Example buffer_may_spill_part_of_a_batch :
  map number
      (rows_on_disk
         (run passes_all (closed None)
              (take 6 (fst (process_and_save_batch
                              echo_service second_first five_species 1 4
                              (u "en [species]") (u "ja [species]")
                              ModeW 2)))))
  = [1]
  /\ map number
         (rows_on_disk
            (run keeps_all (closed None)
                 (take 6 (fst (process_and_save_batch
                                 echo_service second_first five_species 1 4
                                 (u "en [species]") (u "ja [species]")
                                 ModeW 2)))))
     = []
  /\ map number
         (rows_on_disk
            (run keeps_all (closed None)
                 (take 8 (fst (process_and_save_batch
                                 echo_service second_first five_species 1 4
                                 (u "en [species]") (u "ja [species]")
                                 ModeW 2)))))
     = [1; 2].
Proof. vm_compute. done. Qed.
(** ** The file mode of a run *)

Lemma elem_of_range2 (i a b : Z) : i ∈ range2 a b <-> a <= i < b.
Proof.
  unfold range2. rewrite list_elem_of_fmap. split.
  - intros (k & -> & Hk%elem_of_seq). lia.
  - intros H. exists (Z.to_nat (i - a)). split; [lia|].
    apply elem_of_seq. lia.
Qed.

Section FileMode.
Variable service : request -> nat -> reply.
Variables (en_prompt_template ja_prompt_template : str).
Variable species_list : list str.

(** Either an index of the range lies outside the list, and the call
    raises [IndexError] before it opens the file; or the call opens the
    file in the given mode, first of all, and when it ends or is left
    waiting the file holds the header or, when appending, what it held
    before, followed by the rows written. *)
Lemma process_and_save_batch_opens spill finishing start_line end_line mode
      batch_size old :
  (out_of_list species_list start_line end_line
   /\ process_and_save_batch service finishing species_list start_line
                             end_line en_prompt_template ja_prompt_template
                             mode batch_size
      = ([], IndexError))
  \/ (~ out_of_list species_list start_line end_line
      /\ snd (process_and_save_batch service finishing species_list
                start_line end_line en_prompt_template ja_prompt_template
                mode batch_size) <> IndexError
      /\ (exists rest,
             fst (process_and_save_batch service finishing species_list
                    start_line end_line en_prompt_template
                    ja_prompt_template mode batch_size)
             = Open mode :: rest
             /\ forall m, Open m ∉ rest)
      /\ run spill (closed old)
             (fst (process_and_save_batch service finishing species_list
                     start_line end_line en_prompt_template
                     ja_prompt_template mode batch_size))
         = closed
             (Some (opened mode old
                      ++ map RowLine
                           (written
                              (fst (process_and_save_batch
                                      service finishing species_list
                                      start_line end_line en_prompt_template
                                      ja_prompt_template mode
                                      batch_size)))))).
Proof.
  unfold process_and_save_batch.
  destruct (mapM _ _) as [tasks|] eqn:Hbuild.
  2:{ left. split; [|done].
      apply mapM_None, Exists_exists in Hbuild as (i & Hi & Hnone).
      exists i. split; [by apply elem_of_range2|].
      by destruct (index species_list i). }
  right. split.
  { intros (i & Hi & Hnone).
    assert (Hex : mapM (fun i =>
                          species ← index species_list i;
                          Some (i + 1,
                                process_species service (i + 1) species
                                                en_prompt_template
                                                ja_prompt_template))
                       (range2 (start_line - 1) end_line) = None).
    { apply mapM_None, Exists_exists. exists i.
      split; [by apply elem_of_range2|]. by rewrite Hnone. }
    cbv zeta in Hbuild. by rewrite Hex in Hbuild. }
  fold (header_of mode).
  assert (Hno : forall acts : list action,
             (forall m, Open m ∉ acts) ->
             forall m, Open m ∉ header_of mode ++ acts).
  { intros acts Hacts m [H|H]%elem_of_app; [|by apply (Hacts m)].
    destruct mode; simpl in H;
      repeat (apply elem_of_cons in H as [H|H]; [done|]);
      by apply elem_of_nil in H. }
  destruct (range3 _ _) as [offsets|].
  2:{ split; [done|]. cbn [fst]. split.
      - eexists. split; [done|]. apply Hno.
        intros m H. apply elem_of_cons in H as [H|H]; [done|].
        by apply elem_of_nil in H.
      - change (Open mode :: header_of mode ++ [Close])
          with ((Open mode :: header_of mode) ++ [Close]).
        rewrite run_app, run_open_header, run_close.
        by destruct mode; simpl; rewrite ?app_nil_r. }
  pose proof (batches_store spill finishing tasks batch_size offsets
                (closed (Some (opened mode old))) eq_refl) as Hrun.
  pose proof (batches_outcome finishing tasks batch_size offsets) as Hout.
  assert (Hopen : forall m,
             Open m ∉ fst (batches finishing tasks batch_size offsets)).
  { clear. induction offsets as [|i offsets IH]; intros m.
    - apply not_elem_of_nil.
    - cbn [batches].
      assert (Hd : forall (batch : list row) (l : list nat),
                 Open m ∉ omap (fun k => Done <$> batch !! k) l).
      { intros batch l [k [_ Hk]]%list_elem_of_omap.
        destruct (batch !! k); simplify_eq/=. }
      destruct (gather _ _) as [results|]; [|apply Hd].
      specialize (IH m).
      destruct (batches finishing tasks batch_size offsets) as [later out].
      cbn [fst] in *.
      intros [H|[H|[H|H]%elem_of_app]%elem_of_app]%elem_of_app.
      + by apply Hd in H.
      + apply elem_of_app in H as [H|H].
        * apply list_elem_of_fmap in H as (r & Hr & _). done.
        * apply elem_of_cons in H as [H|H]; [done|].
          by apply elem_of_nil in H.
      + destruct (_ <? _).
        * apply elem_of_cons in H as [H|H]; [done|].
          by apply elem_of_nil in H.
        * by apply elem_of_nil in H.
      + done. }
  destruct (batches finishing tasks batch_size offsets) as [acts out].
  cbn [fst snd] in Hrun, Hout, Hopen.
  assert (Hw : forall tail,
             written tail = [] ->
             written (Open mode :: header_of mode ++ acts ++ tail)
             = written acts).
  { intros tail Htail. change (Open mode :: ?l) with ([Open mode] ++ l).
    rewrite !written_app, written_header, Htail. simpl.
    by rewrite app_nil_r. }
  assert (Hr : forall tail,
             tail = [] \/ tail = [Close] ->
             run spill (closed old) (Open mode :: header_of mode ++ acts ++ tail)
             = closed (Some (opened mode old ++ map RowLine (written acts)))).
  { intros tail Htail.
    change (Open mode :: header_of mode ++ acts ++ tail)
      with ((Open mode :: header_of mode) ++ acts ++ tail).
    rewrite run_app, run_open_header, run_app, Hrun.
    destruct Htail as [->| ->]; simpl; [done|].
    unfold closed. by rewrite app_nil_r. }
  destruct Hout as [-> | ->]; cbn [fst snd]; (split; [done|]).
  - split.
    + eexists. split; [done|]. apply Hno.
      intros m [H|H]%elem_of_app; [by apply (Hopen m)|].
      apply elem_of_cons in H as [H|H]; [done|]. by apply elem_of_nil in H.
    + by rewrite (Hw [Close]), (Hr [Close]) by (done || by right).
  - split.
    + eexists. split; [done|]. by apply Hno.
    + pose proof (Hw [] eq_refl) as Hw0.
      pose proof (Hr [] (or_introl eq_refl)) as Hr0.
      rewrite app_nil_r in Hw0, Hr0. by rewrite Hw0, Hr0.
Qed.

(** How a call ends does not depend on the file mode. *)
Lemma process_and_save_batch_outcome_mode finishing start_line end_line
      mode1 mode2 batch_size :
  snd (process_and_save_batch service finishing species_list start_line
         end_line en_prompt_template ja_prompt_template mode1 batch_size)
  = snd (process_and_save_batch service finishing species_list start_line
           end_line en_prompt_template ja_prompt_template mode2 batch_size).
Proof.
  unfold process_and_save_batch.
  destruct (mapM _ _) as [tasks|]; [|done].
  destruct (range3 _ _) as [offsets|]; [|done].
  destruct (batches finishing tasks batch_size offsets) as [acts out].
  by destruct out.
Qed.

(** From the first ordinal or a later one, up to the end of the list, no
    index lies outside the list. *)
Lemma within_list start_line :
  1 <= start_line ->
  ~ out_of_list species_list start_line (Z.of_nat (length species_list)).
Proof.
  intros Hstart (i & Hi & Hnone). unfold index in Hnone.
  destruct (Z.ltb_spec i 0); [lia|].
  apply lookup_ge_None in Hnone. lia.
Qed.
End FileMode.

(** C9, as stated, fails for a run whose task list cannot be built:
    [--start -10] over five species asks for no appending, yet the file
    is never opened, so that what an earlier run left in it is neither
    truncated nor preceded by a new header. *)
Lemma main_async_create_mode_never_opens :
  ~ append_requested
      {| arg_start := -10; arg_line := None; arg_batch_size := 10 |}
      (Some [HeaderLine fieldnames; RowLine earlier_row])
  /\ main_async echo_service one_by_one
                {| arg_start := -10; arg_line := None; arg_batch_size := 10 |}
                (u "en [species]") (u "ja [species]") five_species
                (Some [HeaderLine fieldnames; RowLine earlier_row])
     = ([], IndexError)
  /\ run passes_all (closed (Some [HeaderLine fieldnames; RowLine earlier_row]))
         (fst (main_async echo_service one_by_one
                          {| arg_start := -10; arg_line := None;
                             arg_batch_size := 10 |}
                          (u "en [species]") (u "ja [species]") five_species
                          (Some [HeaderLine fieldnames;
                                 RowLine earlier_row])))
     = closed (Some [HeaderLine fieldnames; RowLine earlier_row]).
Proof.
  split; [|split].
  - intros [H|[H _]]; simpl in H; [done|lia].
  - vm_compute. reflexivity.
  - vm_compute. reflexivity.
Qed.

(** C9, amended.  Unless an index of the requested range lies outside
    the list, in which case [main_async] raises [IndexError] without
    opening the file: [main_async] opens the file, once and first of all,
    for appending exactly when a single ordinal is requested or the start
    ordinal exceeds 1 and the output file exists, and for writing in
    every other case; opened for writing, the file loses what it held and
    gets the header as its first line, and opened for appending it keeps
    what it held and gets no header.  With the default start ordinal 1 an
    existing file is overwritten.  A start ordinal above 1 with no output
    file creates the file, header first; the run ends as it would with
    the file present, and with a positive batch size and every task
    finishing it returns with the rows of the range written. *)
Theorem main_async_file_mode (service : request -> nat -> reply)
        (spill : list csv_line -> nat) :
  (forall finishing args en_prompt_template ja_prompt_template species_list
          output,
      (out_of_list species_list
                   (fst (requested_range args species_list))
                   (snd (requested_range args species_list))
       /\ main_async service finishing args en_prompt_template
                     ja_prompt_template species_list output
          = ([], IndexError))
      \/ (~ out_of_list species_list
                        (fst (requested_range args species_list))
                        (snd (requested_range args species_list))
          /\ exists mode rest,
              fst (main_async service finishing args en_prompt_template
                              ja_prompt_template species_list output)
              = Open mode :: rest
              /\ (forall m, Open m ∉ rest)
              /\ (mode = ModeA <-> append_requested args output)
              /\ (mode = ModeW <-> ~ append_requested args output)
              /\ run spill (closed output)
                     (fst (main_async service finishing args
                                      en_prompt_template ja_prompt_template
                                      species_list output))
                 = closed
                     (Some
                        (match mode with
                         | ModeW => [HeaderLine fieldnames]
                         | ModeA => default [] output
                         end
                         ++ map RowLine
                              (written
                                 (fst (main_async service finishing args
                                                  en_prompt_template
                                                  ja_prompt_template
                                                  species_list output)))))))
  /\ (forall finishing args en_prompt_template ja_prompt_template
             species_list output,
         arg_line args = None ->
         arg_start args = 1 ->
         run spill (closed output)
             (fst (main_async service finishing args en_prompt_template
                              ja_prompt_template species_list output))
         = closed
             (Some (HeaderLine fieldnames
                      :: map RowLine
                           (written
                              (fst (main_async service finishing args
                                               en_prompt_template
                                               ja_prompt_template
                                               species_list output))))))
  /\ (forall finishing args en_prompt_template ja_prompt_template
             species_list,
         arg_line args = None ->
         1 < arg_start args ->
         run spill (closed None)
             (fst (main_async service finishing args en_prompt_template
                              ja_prompt_template species_list None))
         = closed
             (Some (HeaderLine fieldnames
                      :: map RowLine
                           (written
                              (fst (main_async service finishing args
                                               en_prompt_template
                                               ja_prompt_template
                                               species_list None)))))
         /\ (forall old,
                snd (main_async service finishing args en_prompt_template
                                ja_prompt_template species_list None)
                = snd (main_async service finishing args en_prompt_template
                                  ja_prompt_template species_list
                                  (Some old)))
         /\ (0 < arg_batch_size args ->
             every_task_finishes
               finishing
               (Z.of_nat (length species_list) - arg_start args + 1)
               (arg_batch_size args) ->
             snd (main_async service finishing args en_prompt_template
                             ja_prompt_template species_list None)
             = Returned
             /\ written
                  (fst (main_async service finishing args
                                   en_prompt_template ja_prompt_template
                                   species_list None))
                = rows_for service en_prompt_template ja_prompt_template
                           species_list (arg_start args)
                           (Z.of_nat (length species_list)))).
Proof.
  assert (Hmain : forall finishing args en ja species_list output,
             main_async service finishing args en ja species_list output
             = process_and_save_batch
                 service finishing species_list
                 (fst (requested_range args species_list))
                 (snd (requested_range args species_list)) en ja
                 (match arg_line args with
                  | Some _ => ModeA
                  | None => if (1 <? arg_start args)
                               && bool_decide (is_Some output)
                            then ModeA else ModeW
                  end)
                 (arg_batch_size args)).
  { intros finishing [start line bs] en ja species_list output.
    unfold main_async, plan, requested_range. simpl. by destruct line. }
  split; [|split].
  - intros finishing args en ja species_list output.
    rewrite Hmain. set (mode := match arg_line args with Some _ => ModeA | None => _ end).
    destruct (process_and_save_batch_opens
                service en ja species_list spill finishing
                (fst (requested_range args species_list))
                (snd (requested_range args species_list)) mode
                (arg_batch_size args) output)
      as [[Hout Herr]|(Hin & _ & (rest & Hopen & Honce) & Hrun)];
      [by left|right].
    split; [done|]. exists mode, rest.
    assert (Hmode : mode = ModeA <-> append_requested args output).
    { unfold mode, append_requested.
      destruct (arg_line args) as [k|].
      - split; [by left|done].
      - destruct (Z.ltb_spec 1 (arg_start args)), output as [old|]; simpl;
          split; try done;
          try (intros [?|[? ?]]; done || lia).
        intros _. right. done. }
    split; [done|]. split; [done|]. split; [exact Hmode|].
    split; [|rewrite Hrun; by destruct mode].
    split.
    + intros Hw Happ. apply Hmode in Happ. congruence.
    + intros Hnot. destruct mode; [done|]. exfalso. by apply Hnot, Hmode.
  - intros finishing args en ja species_list output Hline Hstart.
    rewrite Hmain.
    assert (Hr : requested_range args species_list
                 = (1, Z.of_nat (length species_list))).
    { unfold requested_range. by rewrite Hline, Hstart. }
    rewrite Hline, Hstart, Hr. cbn [fst snd]. simpl andb. cbv iota.
    destruct (process_and_save_batch_opens
                service en ja species_list spill finishing 1
                (Z.of_nat (length species_list)) ModeW
                (arg_batch_size args) output)
      as [[Hout _]|(_ & _ & _ & Hrun)]; [|done].
    by apply within_list in Hout.
  - intros finishing args en ja species_list Hline Hstart.
    assert (Hr : requested_range args species_list
                 = (arg_start args, Z.of_nat (length species_list))).
    { unfold requested_range. by rewrite Hline. }
    rewrite !Hmain, Hline, Hr. cbn [fst snd].
    rewrite andb_false_r.
    split; [|split].
    + destruct (process_and_save_batch_opens
                  service en ja species_list spill finishing (arg_start args)
                  (Z.of_nat (length species_list)) ModeW
                  (arg_batch_size args) None)
        as [[Hout _]|(_ & _ & _ & Hrun)]; [|done].
      apply within_list in Hout; [done|lia].
    + intros old. rewrite Hmain, Hline, Hr. cbn [fst snd].
      apply process_and_save_batch_outcome_mode.
    + intros Hb Hfin.
      destruct (process_and_save_batch_valid
                  service species_list en ja finishing (arg_start args)
                  (Z.of_nat (length species_list)) ModeW
                  (arg_batch_size args))
        as (tasks & m & Hrows & Hnum & Hlen & Hfin' & Hvalid & Hcover & ->);
        [lia|lia|done|done|].
      split; [done|]. cbn [fst].
      destruct (batches_shape finishing tasks (arg_batch_size args)
                              (arg_start args) Hb Hnum Hfin' m 0%nat Hvalid)
        as [_ Hw].
      change (Open ModeW :: ?l) with ([Open ModeW] ++ l).
      rewrite !written_app, written_header, Hw. simpl.
      rewrite app_nil_r, drop_0, take_ge by (rewrite length_map; lia).
      done.
Qed.

Lemma main_async_file_mode_witness :
  run holds_one (closed None)
      (fst (main_async echo_service one_by_one
                       {| arg_start := 3; arg_line := None;
                          arg_batch_size := 1 |}
                       (u "en [species]") (u "ja [species]")
                       five_species None))
  = closed
      (Some (HeaderLine fieldnames
               :: map RowLine
                    (written
                       (fst (main_async echo_service one_by_one
                                        {| arg_start := 3; arg_line := None;
                                           arg_batch_size := 1 |}
                                        (u "en [species]")
                                        (u "ja [species]")
                                        five_species None)))))
  /\ snd (main_async echo_service one_by_one
                     {| arg_start := 3; arg_line := None;
                        arg_batch_size := 1 |}
                     (u "en [species]") (u "ja [species]")
                     five_species None)
     = Returned
  /\ written
       (fst (main_async echo_service one_by_one
                        {| arg_start := 3; arg_line := None;
                           arg_batch_size := 1 |}
                        (u "en [species]") (u "ja [species]")
                        five_species None))
     = rows_for echo_service (u "en [species]") (u "ja [species]")
                five_species 3 5.
Proof.
  destruct (main_async_file_mode echo_service holds_one) as (_ & _ & Hfresh).
  destruct (Hfresh one_by_one
                   {| arg_start := 3; arg_line := None; arg_batch_size := 1 |}
                   (u "en [species]") (u "ja [species]") five_species)
    as (Hfile & _ & Hret); [reflexivity|simpl; lia|].
  split; [exact Hfile|].
  apply Hret; [simpl; lia|apply one_by_one_finishes].
Defined.
(** ** The grouped export read back *)

Lemma expect_app (lit rest : str) : expect lit (lit ++ rest) = Some rest.
Proof.
  induction lit as [|d lit IH]; [by destruct rest|].
  simpl. by rewrite N.eqb_refl.
Qed.

Lemma hex_value_digit (n : N) :
  (n < 16)%N -> hex_value (hex_digit n) = Some n.
Proof.
  intros Hn. unfold hex_value, hex_digit.
  destruct (N.ltb_spec n 10).
  - rewrite (proj2 (N.leb_le _ _)), (proj2 (N.leb_le _ _)) by lia.
    simpl. f_equal. lia.
  - replace ((48 <=? 97 + (n - 10)) && (97 + (n - 10) <=? 57))%N
      with false by (symmetry; apply andb_false_iff; right;
                     apply N.leb_gt; lia).
    rewrite (proj2 (N.leb_le _ _)), (proj2 (N.leb_le _ _)) by lia.
    simpl. f_equal. lia.
Qed.

(** The reader undoes the escape of a character. *)
Lemma read_chars_escape (c : char) (tail : str) :
  read_chars (json_escape c ++ tail)
  = match read_chars tail with
    | Some (v, rest) => Some (c :: v, rest)
    | None => None
    end.
Proof.
  unfold json_escape.
  destruct (N.eqb_spec c 34) as [->|H1]; [done|].
  destruct (N.eqb_spec c 92) as [->|H2]; [done|].
  destruct (N.eqb_spec c 10) as [->|H3]; [done|].
  destruct (N.eqb_spec c 13) as [->|H4]; [done|].
  destruct (N.eqb_spec c 9) as [->|H5]; [done|].
  destruct (N.eqb_spec c 8) as [->|H6]; [done|].
  destruct (N.eqb_spec c 12) as [->|H7]; [done|].
  destruct (N.ltb_spec c 32) as [Hlt|Hge].
  - change ((backslash :: u "u00" ++ [hex_digit (c / 16);
                                      hex_digit (c mod 16)]) ++ tail)
      with (backslash :: 117%N :: 48%N :: 48%N :: hex_digit (c / 16)
              :: hex_digit (c mod 16) :: tail).
    cbn [read_chars].
    change (backslash =? 34)%N with false.
    change (backslash =? 92)%N with true.
    change (117 =? 117)%N with true. cbv iota.
    change (hex_value 48%N) with (Some 0%N).
    rewrite !hex_value_digit.
    2:{ apply N.mod_lt. lia. }
    2:{ apply N.Div0.div_lt_upper_bound. lia. }
    replace (((0 * 16 + 0) * 16 + c / 16) * 16 + c mod 16)%N with c.
    2:{ pose proof (N.div_mod c 16 ltac:(lia)). lia. }
    done.
  - cbn [app read_chars].
    rewrite (proj2 (N.eqb_neq _ _) H1), (proj2 (N.eqb_neq _ _) H2).
    by rewrite (proj2 (N.ltb_ge _ _) Hge).
Qed.

Lemma read_chars_escaped (s tail : str) :
  read_chars (concat (map json_escape s) ++ dquote :: tail) = Some (s, tail).
Proof.
  induction s as [|c s IH]; [done|].
  cbn [map concat]. by rewrite <- app_assoc, read_chars_escape, IH.
Qed.

(** The reader undoes [json_string]. *)
Lemma read_string_json_string (s tail : str) :
  read_string (json_string s ++ tail) = Some (s, tail).
Proof.
  unfold json_string. cbn [app read_string].
  change (dquote =? 34)%N with true. cbv iota.
  rewrite <- app_assoc. apply read_chars_escaped.
Qed.

Lemma read_strings_join (names : list str) : forall fuel tail,
  names <> [] ->
  (length names <= fuel)%nat ->
  read_strings fuel (join (u ", ") (map json_string names) ++ u "]" ++ tail)
  = Some (names, tail).
Proof.
  induction names as [|n names IH]; intros fuel tail Hne Hfuel; [done|].
  destruct fuel as [|fuel]; [simpl in Hfuel; lia|].
  destruct names as [|n' names].
  - cbn [map join read_strings].
    rewrite read_string_json_string. done.
  - cbn [map join read_strings]. cbn [map] in IH.
    rewrite <- !app_assoc, read_string_json_string.
    rewrite expect_app, IH; [done|done|simpl in *; lia].
Qed.

Lemma join_json_strings_length (names : list str) :
  (length names
   <= length (join (u ", ") (map json_string names)))%nat.
Proof.
  induction names as [|n names IH]; [done|].
  destruct names as [|n' names].
  - cbn [map join length]. unfold json_string.
    rewrite length_app. cbn [length]. lia.
  - change (join (u ", ") (map json_string (n :: n' :: names)))
      with (json_string n ++ u ", "
              ++ join (u ", ") (map json_string (n' :: names))).
    rewrite !length_app.
    change (length (n :: n' :: names)) with (S (length (n' :: names))).
    unfold json_string at 1. rewrite length_app.
    cbn [length] in IH |- *. lia.
Qed.

(** The reader undoes [json_array]. *)
Lemma read_list_json_array (names : list str) (tail : str) :
  read_list (json_array names ++ tail) = Some (names, tail).
Proof.
  unfold json_array, read_list. rewrite <- !app_assoc, expect_app.
  destruct names as [|n names]; [done|].
  replace (expect (u "]")
                  (join (u ", ") (map json_string (n :: names))
                     ++ u "]" ++ tail))
    with (@None str).
  2:{ cbn [map join]. by destruct (map json_string names). }
  apply read_strings_join; [done|].
  rewrite length_app. pose proof (join_json_strings_length (n :: names)).
  lia.
Qed.

(** A line that [json_dumps] writes reads back as the object that maps
    the label column to the label and ["scientific_name_list"] to the
    names. *)
Lemma read_object_json_dumps (label_key : str) (item : str * list str) :
  line_of_group label_key (json_dumps label_key item) item.
Proof.
  unfold line_of_group, json_dumps, read_object.
  rewrite expect_app. cbn [mbind option_bind].
  rewrite read_string_json_string. cbn [mbind option_bind].
  rewrite expect_app. cbn [mbind option_bind].
  rewrite read_string_json_string. cbn [mbind option_bind].
  rewrite expect_app. cbn [mbind option_bind].
  rewrite read_string_json_string. cbn [mbind option_bind].
  rewrite expect_app. cbn [mbind option_bind].
  rewrite read_list_json_array. cbn [mbind option_bind].
  done.
Qed.

(** Two lines as the utilities write them, read back. *)
Example read_object_example :
  read_object
    (json_dumps (u "english_common_name")
                (u "Grey " ++ [dquote] ++ u "Timber" ++ [dquote] ++ u " Wolf",
                 [u "Canis lupus"; u "Canis lupus lupus"]))
  = Some ((u "english_common_name",
           u "Grey " ++ [dquote] ++ u "Timber" ++ [dquote] ++ u " Wolf"),
          (u "scientific_name_list",
           [u "Canis lupus"; u "Canis lupus lupus"]))
  /\ read_object [] = None
  /\ read_object (u "{}") = None.
Proof. vm_compute. done. Qed.

(** C10.  For every table, each of the two grouping utilities writes
    lines, each ended by a line feed and holding one JSON object; the
    object of a line maps the label column to a label of the table and
    ["scientific_name_list"] to the scientific names of the rows that
    carry that label, in the order of the table; there is one line for
    each label of the table, and the labels increase strictly from line
    to line.  The utilities are functions of the table. *)
Theorem csv_to_jsonl_groups_by_label :
  groups_by_label En_csv_to_jsonl.csv_to_jsonl (u "english_common_name")
  /\ groups_by_label Jp_csv_to_jsonl.csv_to_jsonl (u "japanese_common_name").
Proof.
  assert (H : forall label_key,
             groups_by_label (csv_to_jsonl label_key) label_key).
  { intros label_key rows.
    exists (map (json_dumps label_key)
                (sorted_items (name_to_scientific_names rows))),
           (sorted_items (name_to_scientific_names rows)).
    destruct (name_to_scientific_names_spec rows) as [Hnd Hget].
    split; [|split; [|split; [|split]]].
    - unfold csv_to_jsonl. by rewrite map_map.
    - apply Forall_forall. intros l [item [-> _]]%list_elem_of_fmap.
      apply char_in_false_not_elem, json_dumps_no_newline.
    - apply Forall2_fmap_l, Forall2_same_length_lookup.
      split; [done|]. intros i x y Hx Hy. simplify_eq.
      apply read_object_json_dumps.
    - by apply sorted_items_keys.
    - intros label names. split.
      + intros H. unfold sorted_items in H.
        rewrite merge_sort_Permutation in H.
        apply dict_get_elem_of in H; [|done]. rewrite Hget in H.
        destruct (carrying label rows); by simplify_eq.
      + intros [-> Hne]. unfold sorted_items.
        rewrite merge_sort_Permutation. apply dict_get_elem_of; [done|].
        rewrite Hget. by destruct (carrying label rows). }
  split; apply H.
Qed.
(** ** The normalizer against the steps of the specification *)

(** *** White space and trimming *)

Lemma blank_is_space (c : char) : blank c <-> is_space c = true.
Proof.
  unfold blank, is_space.
  rewrite !orb_true_iff, !andb_true_iff, !N.leb_le, !N.eqb_eq.
  rewrite !elem_of_cons, elem_of_nil. lia.
Qed.

Section Trimmed.
Variables (p : char -> Prop) (pb : char -> bool).
Hypothesis pb_spec : forall c, p c <-> pb c = true.

Lemma lstrip_with_Forall l s :
  Forall p l -> lstrip_with pb (l ++ s) = lstrip_with pb s.
Proof.
  induction 1 as [|c l Hc _ IH]; [done|].
  simpl. by rewrite (proj1 (pb_spec c) Hc).
Qed.

Lemma lstrip_with_head s :
  (forall c, head s = Some c -> ~ p c) -> lstrip_with pb s = s.
Proof.
  destruct s as [|c s]; [done|]. intros H. simpl.
  destruct (pb c) eqn:E; [|done].
  exfalso. apply (H c); [done|]. by apply pb_spec.
Qed.

(** What [lstrip_with] cuts off, and where it stops. *)
Lemma lstrip_with_split s :
  exists l, s = l ++ lstrip_with pb s
            /\ Forall p l
            /\ forall c, head (lstrip_with pb s) = Some c -> ~ p c.
Proof.
  induction s as [|c s (l & Hs & Hl & Hh)].
  - exists []. by repeat split.
  - simpl. destruct (pb c) eqn:E.
    + exists (c :: l). repeat split; [cbn [app]; by f_equal| |done].
      constructor; [by apply pb_spec|done].
    + exists []. repeat split; [done|].
      intros d [= <-] Hd%pb_spec. congruence.
Qed.

Lemma head_rev {A} (l : list A) : head (rev l) = last l.
Proof.
  induction l as [|x l IH] using rev_ind; [done|].
  by rewrite rev_app_distr, last_snoc.
Qed.

Lemma trimmed_strip_with s t : trimmed p s t <-> t = strip_with pb s.
Proof.
  split.
  - intros (l & r & -> & Hl & Hr & Hhead & Hlast).
    unfold strip_with. rewrite lstrip_with_Forall by done.
    destruct t as [|c t].
    + simpl. rewrite <- (app_nil_r r), lstrip_with_Forall by done. done.
    + rewrite lstrip_with_head by (intros d [= <-]; by apply Hhead).
      unfold rstrip_with. rewrite rev_app_distr.
      rewrite lstrip_with_Forall by (by apply Forall_rev).
      rewrite lstrip_with_head; [by rewrite rev_involutive|].
      intros d Hd. rewrite head_rev in Hd. by apply Hlast.
  - intros ->. unfold strip_with.
    destruct (lstrip_with_split s) as (l & Hs & Hl & Hh).
    set (s' := lstrip_with pb s) in *.
    destruct (lstrip_with_split (rev s')) as (r & Hs' & Hr & Hh').
    exists l, (rev r). unfold rstrip_with.
    set (t := lstrip_with pb (rev s')) in *.
    assert (Hsplit : s' = rev t ++ rev r).
    { by rewrite <- rev_app_distr, <- Hs', rev_involutive. }
    repeat split.
    + by rewrite <- Hsplit.
    + done.
    + by apply Forall_rev.
    + intros c Hc. apply Hh. rewrite Hsplit.
      destruct (rev t); [done|]. done.
    + intros c Hc. apply Hh'. by rewrite <- Hc, <- head_rev, rev_involutive.
Qed.
End Trimmed.

Lemma trimmed_strip s t : trimmed blank s t <-> t = strip s.
Proof. apply trimmed_strip_with, blank_is_space. Qed.

Lemma quote_of_char_in t c :
  quote_of t c <-> char_in c (quotes_of t) = true.
Proof.
  rewrite char_in_elem_of. destruct t; simpl;
    unfold en_quotes, ja_quotes;
    rewrite !elem_of_cons, !elem_of_nil; tauto.
Qed.

Lemma trimmed_strip_chars t s s' :
  trimmed (quote_of t) s s' <-> s' = strip_chars (quotes_of t) s.
Proof. apply trimmed_strip_with. intros c. apply quote_of_char_in. Qed.

(** *** Leading labels *)

Lemma same_char_fold ignorecase a b :
  same_char ignorecase a b <-> fold_of ignorecase a = fold_of ignorecase b.
Proof.
  unfold same_char, fold_of, sre_lower. destruct ignorecase.
  - destruct (N.leb_spec 65 a), (N.leb_spec a 90),
             (N.leb_spec 65 b), (N.leb_spec b 90); simpl; lia.
  - split; [intros [H|[H _]]; done|by left].
Qed.

Lemma after_prefix_spec fold label : forall s rest,
  after_prefix fold label s = Some rest
  <-> exists w, s = w ++ rest /\ Forall2 (fun c d => fold c = fold d) w label.
Proof.
  induction label as [|d label IH]; intros s rest.
  - simpl. split.
    + intros [= ->]. exists []. by split.
    + intros (w & -> & Hw). by inversion Hw.
  - destruct s as [|c s]; simpl.
    + split; [done|]. intros (w & Hs & Hw). inversion Hw; subst. done.
    + destruct (char_eqb (fold c) (fold d)) eqn:E.
      * apply char_eqb_eq in E. rewrite IH. split.
        -- intros (w & -> & Hw). exists (c :: w). split; [done|].
           by constructor.
        -- intros (w & Hs & Hw). inversion Hw; subst.
           simpl in Hs. injection Hs as -> ->. by eexists.
      * split; [done|]. intros (w & Hs & Hw). inversion Hw; subst.
        simpl in Hs. injection Hs as -> ->.
        apply not_true_iff_false in E. destruct E. by apply char_eqb_eq.
Qed.

Lemma after_prefix_same_char ignorecase label s rest :
  after_prefix (fold_of ignorecase) label s = Some rest
  <-> exists w, s = w ++ rest /\ Forall2 (same_char ignorecase) w label.
Proof.
  rewrite after_prefix_spec. split; intros (w & Hs & Hw); exists w;
    (split; [done|]); eapply Forall2_impl; [exact Hw| |exact Hw|];
    intros a b; apply same_char_fold.
Qed.

Lemma lstrip_blank blanks t :
  Forall blank blanks -> (forall c, head t = Some c -> ~ blank c) ->
  lstrip_with is_space (blanks ++ t) = t.
Proof.
  intros Hb Ht.
  rewrite (lstrip_with_Forall blank is_space blank_is_space) by done.
  by apply (lstrip_with_head blank is_space blank_is_space).
Qed.

(** The English labels: one spelling, compared without regard to case. *)
Lemma label_removed_en label s t :
  label_removed true [label] s t <-> t = drop_en_label label s.
Proof.
  unfold drop_en_label. change sre_lower with (fold_of true). split.
  - intros [(label' & w & blanks & Hin & Hw & -> & Hb & Ht)|[Hnot ->]].
    + apply list_elem_of_singleton in Hin as ->.
      rewrite (proj2 (after_prefix_same_char true label
                        (w ++ blanks ++ t) (blanks ++ t)))
        by (by exists w).
      symmetry. by apply lstrip_blank.
    + destruct (after_prefix (fold_of true) label s) as [rest|] eqn:E;
        [|done].
      destruct Hnot. apply after_prefix_same_char in E as (w & -> & Hw).
      exists label, w, rest. split; [by apply list_elem_of_singleton|done].
  - intros ->.
    destruct (after_prefix (fold_of true) label s) as [rest|] eqn:E.
    + left. apply after_prefix_same_char in E as (w & -> & Hw).
      destruct (lstrip_with_split blank is_space blank_is_space rest)
        as (blanks & Hrest & Hb & Hh).
      exists label, w, blanks.
      split; [by apply list_elem_of_singleton|].
      split; [done|]. split; [by rewrite <- Hrest|done].
    + right. split; [|done].
      intros (label' & w & rest & Hin & -> & Hw).
      apply list_elem_of_singleton in Hin as ->.
      rewrite (proj2 (after_prefix_same_char true label (w ++ rest) rest))
        in E by (by exists w).
      done.
Qed.

Lemma Forall2_same_char_false w label :
  Forall2 (same_char false) w label <-> w = label.
Proof.
  rewrite list_eq_Forall2. split; intros H; eapply Forall2_impl;
    try exact H; intros a b.
  - by intros [?|[? _]].
  - by left.
Qed.

(** The Japanese labels: compared exactly, with either colon. *)
Lemma label_removed_ja w s t :
  label_removed false [w ++ [0x3A%N]; w ++ [0xFF1A%N]] s t
  <-> t = drop_ja_label w s.
Proof.
  assert (Hcolon : forall c : char,
             char_in c colons = true <-> c = 0x3A%N \/ c = 0xFF1A%N).
  { intros c. rewrite char_in_elem_of. unfold colons.
    rewrite !elem_of_cons, elem_of_nil. tauto. }
  assert (Hlabel : forall label,
             label ∈ [w ++ [0x3A%N]; w ++ [0xFF1A%N]]
             <-> exists c, char_in c colons = true /\ label = w ++ [c]).
  { intros label. rewrite !elem_of_cons, elem_of_nil. split.
    - intros [->|[->|[]]]; [exists 0x3A%N|exists 0xFF1A%N]; by split.
    - intros (c & [-> | ->]%Hcolon & ->); tauto. }
  assert (Hafter : forall c rest,
             after_prefix (fun c => c) w (w ++ c :: rest)
             = Some (c :: rest)).
  { intros c rest. apply (after_prefix_same_char false).
    exists w. split; [done|]. by apply Forall2_same_char_false. }
  unfold drop_ja_label. split.
  - intros [(label & w' & blanks & Hin & Hw & -> & Hb & Ht)|[Hnot ->]].
    + apply Forall2_same_char_false in Hw as ->.
      apply Hlabel in Hin as (c & Hc & ->).
      rewrite <- app_assoc. cbn [app]. rewrite Hafter, Hc.
      symmetry. by apply lstrip_blank.
    + destruct (after_prefix (fun c => c) w s) as [[|c rest]|] eqn:E;
        [done| |done].
      destruct (char_in c colons) eqn:Hc; [|done].
      destruct Hnot.
      apply (after_prefix_same_char false) in E as (w' & -> & Hw).
      apply Forall2_same_char_false in Hw as ->.
      exists (w ++ [c]), (w ++ [c]), rest.
      split; [apply Hlabel; by exists c|].
      split; [by rewrite <- app_assoc|].
      by apply Forall2_same_char_false.
  - intros ->.
    assert (Hstay : ~ (exists c rest, char_in c colons = true
                                      /\ s = w ++ c :: rest) ->
                    label_removed false [w ++ [0x3A%N]; w ++ [0xFF1A%N]]
                                  s s).
    { intros Hnot. right. split; [|done].
      intros (label & w' & rest & Hin & -> & Hw).
      apply Forall2_same_char_false in Hw as ->.
      apply Hlabel in Hin as (c & Hc & ->).
      apply Hnot. exists c, rest. split; [done|].
      by rewrite <- app_assoc. }
    destruct (after_prefix (fun c => c) w s) as [[|c rest]|] eqn:E.
    + apply Hstay. intros (c & rest & _ & ->). by rewrite Hafter in E.
    + destruct (char_in c colons) eqn:Hc.
      * left. apply (after_prefix_same_char false) in E as (w' & -> & Hw).
        apply Forall2_same_char_false in Hw as ->.
        destruct (lstrip_with_split blank is_space blank_is_space rest)
          as (blanks & Hrest & Hb & Hh).
        exists (w ++ [c]), (w ++ [c]), blanks.
        split; [apply Hlabel; by exists c|].
        split; [by apply Forall2_same_char_false|].
        split; [|done]. rewrite <- app_assoc. cbn [app]. by rewrite <- Hrest.
      * apply Hstay. intros (c' & rest' & Hc' & ->).
        rewrite Hafter in E. injection E as -> ->. congruence.
    + apply Hstay. intros (c & rest & _ & ->). by rewrite Hafter in E.
Qed.

(** *** The first line *)

Lemma before_newline_app line rest :
  newline ∉ line -> before_newline (line ++ newline :: rest) = line.
Proof.
  induction line as [|c line IH]; intros Hnot.
  - done.
  - apply not_elem_of_cons in Hnot as [Hc Hline]. simpl.
    destruct (char_eqb c newline) eqn:E.
    + apply char_eqb_eq in E. congruence.
    + by rewrite IH.
Qed.

Lemma before_newline_split s :
  newline ∈ s -> exists rest, s = before_newline s ++ newline :: rest.
Proof.
  induction s as [|c s IH]; [by intros ?%elem_of_nil|].
  intros Hin. cbn [before_newline].
  destruct (char_eqb c newline) eqn:E.
  - apply char_eqb_eq in E as ->. by exists s.
  - apply elem_of_cons in Hin as [Heq|Hin].
    + symmetry in Heq. apply char_eqb_eq in Heq. congruence.
    + destruct (IH Hin) as [rest Hrest]. exists rest. cbn [app].
      by rewrite <- Hrest.
Qed.

Lemma first_line_cut s t : first_line s t <-> t = cut_at_line_break s.
Proof.
  unfold first_line, cut_at_line_break. change line_feed with newline.
  split.
  - intros [(line & rest & -> & Hnot & Ht)|[Hnot ->]].
    + rewrite (proj2 (char_in_elem_of _ _)), before_newline_app by
        (done || (apply elem_of_app; right; by left)).
      by apply trimmed_strip.
    + destruct (char_in newline s) eqn:E; [|done].
      by apply char_in_elem_of in E.
  - intros ->. destruct (char_in newline s) eqn:E.
    + left. apply char_in_elem_of, before_newline_split in E as [rest E].
      exists (before_newline s), rest.
      split; [done|]. split; [apply before_newline_no_newline|].
      by apply trimmed_strip.
    + right. split; [|done]. intros H%char_in_elem_of. congruence.
Qed.

(** *** The five steps *)

Lemma normalized_normalize t raw result :
  normalized t raw result <-> result = normalize t raw.
Proof.
  assert (Hlabels : forall s s',
             (exists s2,
                 label_removed (ignorecase_of t) (first_labels t) s s2
                 /\ label_removed (ignorecase_of t) (second_labels t) s2 s')
             <-> s' = remove_prefixes t s).
  { intros s s'. destruct t; simpl.
    - change [[67; 111; 109; 109; 111; 110; 32; 78; 97; 109; 101; 58]]%N
        with [u "Common Name:"].
      change [[78; 97; 109; 101; 58]]%N with [u "Name:"].
      split.
      + intros (s2 & ->%label_removed_en & ->%label_removed_en). done.
      + intros ->. eexists. split; by apply label_removed_en.
    - change [[21628; 31216; 58]; [21628; 31216; 65306]]%N
        with [kosho ++ [0x3A%N]; kosho ++ [0xFF1A%N]].
      change [[26085; 26412; 35486; 21517; 58];
              [26085; 26412; 35486; 21517; 65306]]%N
        with [nihongomei ++ [0x3A%N]; nihongomei ++ [0xFF1A%N]].
      split.
      + intros (s2 & ->%label_removed_ja & ->%label_removed_ja). done.
      + intros ->. eexists. split; by apply label_removed_ja. }
  unfold normalized, normalize. split.
  - intros (s1 & s2 & s3 & s4 & s5 & ->%trimmed_strip & H2 & H3
            & ->%first_line_cut & ->%trimmed_strip_chars & ->%trimmed_strip).
    assert (Hs3 : s3 = remove_prefixes t (strip raw))
      by (apply Hlabels; by exists s2).
    by rewrite Hs3.
  - intros ->.
    destruct (proj2 (Hlabels (strip raw) _) eq_refl) as (s2 & H2 & H3).
    exists (strip raw), s2, (remove_prefixes t (strip raw)),
           (cut_at_line_break (remove_prefixes t (strip raw))),
           (strip_chars (quotes_of t)
                        (cut_at_line_break
                           (remove_prefixes t (strip raw)))).
    split; [by apply trimmed_strip|]. split; [done|]. split; [done|].
    split; [by apply first_line_cut|].
    split; [by apply trimmed_strip_chars|by apply trimmed_strip].
Qed.

Lemma selects_target_of language t :
  selects language t <-> target_of language = t.
Proof.
  unfold target_of.
  destruct (str_eqb language (u "ja")) eqn:E.
  - apply str_eqb_eq in E as ->. destruct t; simpl.
    + split; [intros H; by destruct H|done].
    + done.
  - assert (Hne : language <> u "ja").
    { intros ->. by vm_compute in E. }
    destruct t; simpl.
    + done.
    + split; [intros H; by destruct Hne|done].
Qed.

(** C8.  For every input and every language argument,
    [clean_common_name] returns exactly the text that the five steps of
    the specification lead to, each step taken as a relation between
    texts: trim the white space at both ends; remove the leading labels
    of the language, anchored at the start and matched without regard to
    case for English, each with the white space after it; when a line
    feed remains, keep the text before the first one and trim it; strip
    the quote characters of the language from both ends; trim.  The steps
    determine their result, so that the function equals their
    composition.  Every language argument selects one of the two
    languages.  Being a function, [clean_common_name] always returns, and
    on an empty or whitespace-only input it returns the empty string. *)
Theorem clean_common_name_composition :
  (forall (common_name language : str) (t : target) (result : str),
      selects language t ->
      (normalized t common_name result
       <-> clean_common_name common_name language = result))
  /\ (forall language : str,
         selects language LangJa \/ selects language LangEn)
  /\ (forall common_name language : str,
         Forall blank common_name ->
         clean_common_name common_name language = []).
Proof.
  split; [|split].
  - intros common_name language t result Ht%selects_target_of.
    rewrite clean_common_name_steps, Ht, normalized_normalize.
    split; congruence.
  - intros language. simpl.
    destruct (decide (language = [0x6A; 0x61]%N)); [by left|by right].
  - intros common_name language Hblank.
    rewrite clean_common_name_steps. apply normalize_blank.
    apply forallb_forall. intros c Hc%list_elem_of_In.
    apply blank_is_space. by eapply Forall_forall in Hblank.
Qed.

Lemma clean_common_name_composition_witness :
  normalized LangEn (u "  NAME:  'Grey Wolf' ") (u "Grey Wolf")
  /\ clean_common_name [0x20; 0x0A]%N (u "en") = [].
Proof.
  split.
  - apply (proj1 clean_common_name_composition
                 (u "  NAME:  'Grey Wolf' ") (u "en") LangEn (u "Grey Wolf")).
    + simpl. discriminate.
    + vm_compute. reflexivity.
  - apply (proj2 (proj2 clean_common_name_composition)).
    repeat (apply Forall_cons_2; [apply blank_is_space; reflexivity|]).
    apply Forall_nil_2.
Defined.

(** The steps on an example, each shown from its own definition: the
    label is found in upper case, the white space after it goes with it,
    and the quotes go from both ends. *)
Example normalized_steps_example :
  trimmed blank (u "  NAME:  'Grey Wolf' ") (u "NAME:  'Grey Wolf'")
  /\ label_removed true (second_labels LangEn)
                   (u "NAME:  'Grey Wolf'") (u "'Grey Wolf'")
  /\ trimmed (quote_of LangEn) (u "'Grey Wolf'") (u "Grey Wolf").
Proof.
  split; [|split].
  - exists (u "  "), (u " "). split; [done|].
    split; [repeat constructor; apply blank_is_space; done|].
    split; [repeat constructor; apply blank_is_space; done|].
    split; intros c [= <-] H%blank_is_space; done.
  - left. exists (u "Name:"), (u "NAME:"), (u "  ").
    split; [by left|]. split.
    + vm_compute (u _).
      repeat (constructor;
              [first [by left|right; split; [reflexivity|lia]]|]).
      constructor.
    + split; [done|].
      split; [repeat constructor; apply blank_is_space; done|].
      intros c [= <-] H%blank_is_space. done.
  - exists (u "'"), (u "'"). split; [done|].
    split; [repeat constructor; apply (quote_of_char_in LangEn); done|].
    split; [repeat constructor; apply (quote_of_char_in LangEn); done|].
    split; intros c [= <-]; simpl; rewrite !elem_of_cons, elem_of_nil;
      intros [H|[H|[]]]; done.
Qed.
